(** * CrossLingualMorphTagger: decoding, pooling and sentence assembly

    A shallow embedding of the inference-time code of
    [morph_tagger/layers.py] ([segment_sum], [EncoderRNN.forward],
    [DecoderRNN.predict], [DecoderRNN.predict_beam], [TransformerRNN.predict],
    [DecoderFF.predict]) and of [morph_tagger/predict.py]
    ([predict_sentence]), together with the properties the specification
    states about them.

    Conventions of the embedding.
    - Tensor entries and scores are exact rationals ([Q]); the learned layers
      (GRU cells, linear maps, softmax, sigmoid, the pretrained transformer)
      are parameters of the development, carried in records.
    - Dropout is the identity: prediction runs the modules in evaluation mode.
    - A Python [str] is a [string], a [dict] is a [gmap], a Python exception
      is an [Err] value of [result].
    - [torch.topk] and [sorted] are stable: among equal keys the element that
      comes first in the input comes first in the output. *)

From Stdlib Require Import QArith Qabs Ascii.
From stdpp Require Import gmap strings list pretty sorting.

Local Open Scope nat_scope.

(** ** Exceptions and results *)

Inductive exn : Set :=
| KeyError
| IndexError
| RuntimeError
| TypeError
| AttributeError.

Inductive result (A : Type) : Type :=
| Ok (a : A)
| Err (e : exn).

Arguments Ok {A} a.
Arguments Err {A} e.

#[global] Instance result_ret : MRet result := fun A a => Ok a.

#[global] Instance result_bind : MBind result := fun A B f m =>
  match m with
  | Ok a => f a
  | Err e => Err e
  end.

Definition of_option {A : Type} (e : exn) (o : option A) : result A :=
  match o with
  | Some a => Ok a
  | None => Err e
  end.

(** ** Rational helpers *)

Definition Vec : Type := list Q.

Definition Qltb (x y : Q) : bool := negb (Qle_bool y x).

Definition Qnat (n : nat) : Q := inject_Z (Z.of_nat n).

Definition zeros (d : nat) : Vec := replicate d 0%Q.

Definition vadd (u v : Vec) : Vec := zip_with Qplus u v.

Definition relu (v : Vec) : Vec :=
  (fun x => if Qle_bool 0 x then x else 0%Q) <$> v.

(** ** Stable descending sort: [sorted(xs, key=..., reverse=True)] *)

Section Sorting.
Context {A : Type} (key : A -> Q).

Fixpoint insert_desc (x : A) (l : list A) : list A :=
  match l with
  | [] => [x]
  | y :: r => if Qltb (key x) (key y) then y :: insert_desc x r else x :: l
  end.

Definition sort_desc (l : list A) : list A := foldr insert_desc [] l.

End Sorting.

(** [t.topk(k)] on a one-dimensional tensor: the [k] largest entries with
    their positions, largest first; asking for more entries than there are
    is a runtime error. *)
Definition topk (k : nat) (t : list Q) : result (list (nat * Q)) :=
  if decide (k <= length t)
  then Ok (take k (sort_desc snd (imap pair t)))
  else Err RuntimeError.

(** [torch.argmax] on a one-dimensional tensor: the position of the largest
    entry. *)
Definition argmax (t : list Q) : result nat :=
  top ← topk 1 t;
  of_option RuntimeError (fst <$> head top).

(** ** [segment_sum] (layers.py) *)

(** A tensor of shape [(1, n, d)]: [rows] holds the [n] rows, [last_dim] is
    [shape[-1]]. *)
Record Tensor : Type := mkTensor { last_dim : nat; rows : list Vec }.

(** [torch.unique]: the distinct values, ascending. *)
Fixpoint insert_unique (x : nat) (l : list nat) : list nat :=
  match l with
  | [] => [x]
  | y :: r =>
      if x <? y then x :: l
      else if x =? y then l
      else y :: insert_unique x r
  end.

Definition unique (l : list nat) : list nat := foldr insert_unique [] l.

(** [res.index_add(0, index, source)]: row [source[i]] is added to row
    [index[i]] of [res], for [i] in order; an index outside [res] raises. *)
Fixpoint index_add_loop (res : list Vec) (pairs : list (nat * Vec))
  : result (list Vec) :=
  match pairs with
  | [] => Ok res
  | (i, v) :: rest =>
      match res !! i with
      | None => Err IndexError
      | Some row => index_add_loop (<[i := vadd row v]> res) rest
      end
  end.

Definition index_add (res : list Vec) (index : list nat) (source : list Vec)
  : result (list Vec) :=
  if decide (length index = length source)
  then index_add_loop res (zip index source)
  else Err RuntimeError.

Definition segment_sum (data : Tensor) (segment_ids : list nat)
  : result Tensor :=
  let unique_segment_ids := unique segment_ids in
  let res := replicate (length unique_segment_ids) (zeros (last_dim data)) in
  out ← index_add res segment_ids (rows data);
  mret (mkTensor (last_dim data) out).

(** ** Strings *)

(** [''.join(xs)] and, in general, [sep.join(xs)]. *)
Fixpoint join (sep : string) (xs : list string) : string :=
  match xs with
  | [] => EmptyString
  | [x] => x
  | x :: rest => x +:+ sep +:+ join sep rest
  end.

Arguments join : simpl never.

(** The characters of a string, each as a one-character string: what
    iterating over a Python [str] yields. *)
Fixpoint chars (s : string) : list string :=
  match s with
  | EmptyString => []
  | String a r => String a EmptyString :: chars r
  end.

Definition tab : string := String "009"%char EmptyString.
Definition newline : string := String "010"%char EmptyString.

(** [s[:-1]]. *)
Fixpoint drop_last (s : string) : string :=
  match s with
  | EmptyString => EmptyString
  | String a EmptyString => EmptyString
  | String a r => String a (drop_last r)
  end.

(** ** Hidden states *)

(** The hidden state of a multi-layer GRU: one vector per layer (and per
    direction). *)
Definition Hidden : Type := list Vec.

(** ** [DecoderRNN] (layers.py) *)

Module DecoderRNN.


(** The learned layers of a decoder and its vocabulary.  [gru] is one
    time step of [self.gru] on a single embedded symbol: the top-layer output
    and the next hidden state. *)
Record t : Type := mk {
  W : Vec -> Vec;
  embedding : nat -> Vec;
  gru : Vec -> Hidden -> Vec * Hidden;
  classifier : Vec -> list Q;
  softmax : list Q -> list Q;
  index2token : gmap nat string;
  vocab_size : nat
}.

(** The initial hidden state built at the top of [predict] and
    [predict_beam]: the optional transformer context, the projected context
    vector and the word embedding, in this order. *)
Definition init_hidden (dec : t) (word_embedding context_vector : Vec)
    (transformer_context : option Vec) : Hidden :=
  let context_vector := relu (W dec context_vector) in
  match transformer_context with
  | Some transformer_context =>
      [relu transformer_context; context_vector; word_embedding]
  | None => [context_vector; word_embedding]
  end.

(** What the greedy loop has built so far: the rows written into [scores],
    the value [predicted_token] took at each executed iteration, and the list
    [predictions]. *)
Record GreedyRun : Type := mkGreedyRun {
  run_scores : list (list Q);
  run_tokens : list nat;
  run_predictions : list string
}.

(** The [for di in range(max_len)] loop of [DecoderRNN.predict], with
    [steps] iterations left. *)
Fixpoint predict_loop (dec : t) (steps : nat) (predicted_token : nat)
    (hidden : Hidden) (run : GreedyRun) : result GreedyRun :=
  match steps with
  | 0 => Ok run
  | S steps =>
      let embedded := embedding dec predicted_token in
      let '(output, hidden) := gru dec embedded hidden in
      let output := classifier dec output in
      top ← topk 1 output;
      match top with
      | [] => Err RuntimeError
      | (topi, _) :: _ =>
          let predicted_token := topi in
          let run := mkGreedyRun (run_scores run ++ [output])
                                 (run_tokens run ++ [predicted_token])
                                 (run_predictions run) in
          if predicted_token =? 1 then Ok run
          else if 2 <? predicted_token then
            token ← of_option KeyError (index2token dec !! predicted_token);
            predict_loop dec steps predicted_token hidden
              (mkGreedyRun (run_scores run) (run_tokens run)
                           (run_predictions run ++ [token]))
          else predict_loop dec steps predicted_token hidden run
      end
  end.

Definition predict_run (dec : t) (word_embedding context_vector : Vec)
    (transformer_context : option Vec) (max_len : nat) : result GreedyRun :=
  let hidden := init_hidden dec word_embedding context_vector
                  transformer_context in
  predict_loop dec max_len 2 hidden (mkGreedyRun [] [] []).

(** [DecoderRNN.predict]: the [max_len] by [vocab_size] tensor [scores]
    (rows of iterations that did not run stay zero) and [predictions]. *)
Definition predict (dec : t) (word_embedding context_vector : Vec)
    (transformer_context : option Vec) (max_len : nat)
  : result (list (list Q) * list string) :=
  run ← predict_run dec word_embedding context_vector transformer_context
          max_len;
  mret (run_scores run
          ++ replicate (max_len - length (run_scores run))
               (zeros (vocab_size dec)),
        run_predictions run).

(** The [State] named tuple of [predict_beam]. *)
Record State : Type := mkState {
  prediction : string;
  score : Q;
  normalized_score : Q;
  last_output : nat;
  hidden : Hidden
}.

Section BeamSearch.
Variable dec : t.
Variable surface_len : nat.
Variable beam_size : nat.

(** The candidate built in the body of the [for ix, score in zip(...)] loop
    from its parent [state], the hidden state [_hidden] after the step, the
    symbol [ix] and its probability [p]. *)
Definition beam_child (state : State) (_hidden : Hidden) (ix : nat) (p : Q)
  : result State :=
  let _score := (score state * p)%Q in
  if ix =? 1 then
    let _prediction := prediction state in
    let prediction_len := (Qnat (String.length _prediction) + 1)%Q in
    let _normalized_score :=
      ((_score / ((5 + prediction_len) / 6))
       * (Qnat surface_len / prediction_len))%Q in
    Ok (mkState _prediction _score _normalized_score ix _hidden)
  else
    token ← of_option KeyError (index2token dec !! ix);
    let _prediction := prediction state +:+ token in
    let _normalized_score :=
      (_score / ((5 + Qnat (String.length _prediction)) / 6))%Q in
    Ok (mkState _prediction _score _normalized_score ix _hidden).

(** The [for] loop over the [beam_size] best symbols of one parent. *)
Fixpoint beam_children (state : State) (_hidden : Hidden)
    (tops : list (nat * Q)) (new_states completed_states : list State)
  : result (list State * list State) :=
  match tops with
  | [] => Ok (new_states, completed_states)
  | (ix, p) :: tops =>
      new_state ← beam_child state _hidden ix p;
      if ix =? 1
      then beam_children state _hidden tops new_states
             (completed_states ++ [new_state])
      else beam_children state _hidden tops (new_states ++ [new_state])
             completed_states
  end.

(** The inner [while states] loop: one expansion round. *)
Fixpoint beam_round (states new_states completed_states : list State)
  : result (list State * list State) :=
  match states with
  | [] => Ok (new_states, completed_states)
  | state :: states =>
      if decide (surface_len + 2 <= String.length (prediction state))
      then beam_round states new_states completed_states
      else
        let embedded := embedding dec (last_output state) in
        let '(gru_outputs, _hidden) := gru dec embedded (hidden state) in
        let scores := softmax dec (classifier dec gru_outputs) in
        tops ← topk beam_size scores;
        '(new_states, completed_states) ←
          beam_children state _hidden tops new_states completed_states;
        beam_round states new_states completed_states
  end.

(** The outer [while states] loop.  Python puts no bound on the number of
    rounds; [fuel] bounds it here and [None] means the bound was reached. *)
Fixpoint beam_search (fuel : nat) (states completed_states : list State)
  {struct fuel} : option (result (list State)) :=
  match states with
  | [] => Some (Ok completed_states)
  | _ :: _ =>
      match fuel with
      | 0 => None
      | S fuel =>
          match beam_round states [] completed_states with
          | Err e => Some (Err e)
          | Ok (new_states, completed_states) =>
              beam_search fuel
                (take beam_size (sort_desc normalized_score new_states))
                completed_states
          end
      end
  end.

(** The last line of [predict_beam]: element 0 of the completed candidates
    sorted by normalized score, best first. *)
Definition best_completed (completed_states : list State) : result string :=
  state ← of_option IndexError
            (head (sort_desc normalized_score completed_states));
  mret (prediction state).

Definition predict_beam (fuel : nat) (word_embedding context_vector : Vec)
    (transformer_context : option Vec) : option (result string) :=
  let h := init_hidden dec word_embedding context_vector
             transformer_context in
  let states := [mkState EmptyString 1 1 2 h] in
  match beam_search fuel states [] with
  | None => None
  | Some (Err e) => Some (Err e)
  | Some (Ok completed_states) => Some (best_completed completed_states)
  end.

End BeamSearch.

End DecoderRNN.

(** ** [DecoderFF] (layers.py) *)

Module DecoderFF.

Record t : Type := mk {
  W : Vec -> Vec;
  classifier : Vec -> list Q;
  sigmoid : Q -> Q;
  index2token : gmap nat string
}.

(** The [for ix, pred in enumerate(preds)] loop, from position [ix] on. *)
Fixpoint collect (dec : t) (ix : nat) (preds : list bool)
    (predictions : list string) : result (list string) :=
  match preds with
  | [] => Ok predictions
  | pred :: preds =>
      if (2 <? ix) && pred then
        token ← of_option KeyError (index2token dec !! ix);
        collect dec (S ix) preds (predictions ++ [token])
      else collect dec (S ix) preds predictions
  end.

(** The tensor [scores] of [predict]: one sigmoid score per vocabulary
    entry. *)
Definition scores (dec : t) (word_embedding context_vector : Vec)
    (transformer_context : option Vec) : list Q :=
  let context_vector := relu (W dec context_vector) in
  let hidden :=
    match transformer_context with
    | Some transformer_context => relu transformer_context ++ context_vector
    | None => context_vector ++ word_embedding
    end in
  let outputs := W dec hidden in
  let outputs := relu outputs in
  let outputs := classifier dec outputs in
  sigmoid dec <$> outputs.

Definition predict (dec : t) (word_embedding context_vector : Vec)
    (transformer_context : option Vec) : result (list string) :=
  let scores := scores dec word_embedding context_vector
                  transformer_context in
  let preds := (fun s => Qltb (1 # 2) s) <$> scores in
  collect dec 0 preds [].

End DecoderFF.

(** ** [TransformerRNN] (layers.py) *)

Module TransformerRNN.

(** [gru] runs the bidirectional multi-layer GRU over the embedded
    characters of one word and returns one output per character position. *)
Record t : Type := mk {
  W : Vec -> Vec;
  embedding : nat -> Vec;
  gru : list Vec -> Hidden -> list Vec;
  classifier : Vec -> list Q;
  softmax : list Q -> list Q;
  index2transformation : gmap nat string
}.

Section Predict.
(** [data_utils.inverse_transformation]: rebuilds a lemma from a surface
    word and its transformation labels.  The function is not part of the
    sources at hand and is a parameter here. *)
Variable inverse_transformation : string -> list string -> string.
Variable dec : t.

(** The softmax scores of one word: one row per character position. *)
Definition word_scores (word_embedding context_vector : Vec)
    (transformer_context : option Vec) (x : list nat) : list (list Q) :=
  let context_vector := relu (W dec context_vector) in
  let hidden :=
    match transformer_context with
    | Some transformer_context =>
        let transformer_context := relu transformer_context in
        [transformer_context; transformer_context;
         context_vector; context_vector; word_embedding; word_embedding]
    | None =>
        [context_vector; context_vector; word_embedding; word_embedding]
    end in
  let embeddings := embedding dec <$> x in
  let outputs := gru dec embeddings hidden in
  (fun output => softmax dec (classifier dec output)) <$> outputs.

(** The labels of one word: the best transformation at every position. *)
Definition word_labels (row_scores : list (list Q)) : result (list string) :=
  mapM (fun _scores =>
          ix ← argmax _scores;
          of_option KeyError (index2transformation dec !! ix)) row_scores.

(** [TransformerRNN.predict] on the words of one sentence.  The rows of
    [word_embeddings], [context_vectors], [x] and, when present,
    [transformer_context] belong to the same words; stacking tensors with
    different numbers of rows is a runtime error. *)
Definition predict (word_embeddings context_vectors : list Vec)
    (x : list (list nat)) (surfaces : list string)
    (transformer_context : option (list Vec))
  : result (list (list (list Q)) * list string) :=
  let n := length context_vectors in
  if negb ((length word_embeddings =? n) && (length x =? n)
           && match transformer_context with
              | Some tc => length tc =? n
              | None => true
              end)
  then Err RuntimeError
  else
    let contexts :=
      match transformer_context with
      | Some tc => Some <$> tc
      | None => replicate n None
      end in
    let scores :=
      zip_with (fun '(we, cv) '(tc, row) => word_scores we cv tc row)
        (zip word_embeddings context_vectors) (zip contexts x) in
    predictions ← mapM word_labels scores;
    let predictions :=
      zip_with (fun surface prediction =>
                  inverse_transformation surface
                    (take (String.length surface) prediction))
        surfaces predictions in
    mret (scores, predictions).

End Predict.

End TransformerRNN.

(** ** [EncoderRNN] (layers.py) *)

Module EncoderRNN.

(** [char_gru], [word_gru_forward] and [word_gru_backward] are single GRU
    time steps (input, then hidden state); [based_model] is the pretrained
    transformer, [None] when no model name was given. *)
Record t : Type := mk {
  hidden_size1 : nat;
  hidden_size2 : nat;
  embedding : nat -> Vec;
  char_gru : Vec -> Vec -> Vec;
  word_gru_forward : Vec -> Vec -> Vec;
  word_gru_backward : Vec -> Vec -> Vec;
  based_model : option (list nat -> Tensor);
  tuning_layer : Vec -> Vec
}.

(** The hidden states a recurrent cell goes through along a sequence. *)
Fixpoint scan (cell : Vec -> Vec -> Vec) (h : Vec) (xs : list Vec)
  : list Vec :=
  match xs with
  | [] => []
  | x :: xs => let h := cell x h in h :: scan cell h xs
  end.

(** The bidirectional [word_gru]: at every position the forward and the
    backward hidden state, concatenated. *)
Definition word_gru (enc : t) (xs : list Vec) (h : Vec) : list Vec :=
  zip_with app (scan (word_gru_forward enc) h xs)
    (reverse (scan (word_gru_backward enc) h (reverse xs))).

(** [EncoderRNN.forward] on [x1 = (sub_tokens, word_ids)] and the encoded
    characters [x2] of the words of one sentence.  The batch dimension of
    size one that the assertion of the source checks is not represented. *)
Definition forward (enc : t) (x1 : list nat * list nat)
    (x2 : list (list nat))
  : result (option Tensor * list Vec * list Vec) :=
  let char_gru_hidden := zeros (hidden_size1 enc) in
  let word_gru_hidden := zeros (hidden_size2 enc) in
  let char_embeddings := fmap (embedding enc) <$> x2 in
  let word_embeddings :=
    (fun word => foldl (fun h e => char_gru enc e h) char_gru_hidden word)
      <$> char_embeddings in
  let context_embeddings := word_gru enc word_embeddings word_gru_hidden in
  match based_model enc with
  | Some based_model =>
      let '(sub_tokens, word_ids) := x1 in
      let context_embeddings_pretrained := based_model sub_tokens in
      context_embeddings_pretrained ←
        segment_sum context_embeddings_pretrained word_ids;
      let context_embeddings_pretrained :=
        mkTensor (hidden_size2 enc)
          (tuning_layer enc <$> rows context_embeddings_pretrained) in
      mret (Some context_embeddings_pretrained, word_embeddings,
            context_embeddings)
  | None => mret (None, word_embeddings, context_embeddings)
  end.

End EncoderRNN.

(** ** [ConllDataset] (data_loaders.py) *)

Module ConllDataset.

Definition PAD_token : string := "<p>".
Definition EOS_token : string := "<e>".
Definition START_TAG : string := "<s>".

(** The part of the dataset object prediction reads. *)
Record t : Type := mk { surface_char2id : gmap string nat }.

(** [ConllDataset.encode]: symbols missing from the vocabulary are
    skipped. *)
Definition encode (seq : list string) (vocab : gmap string nat)
    (add_start_tag add_end_tag : bool) : result (list nat) :=
  res ← (if add_start_tag
         then v ← of_option KeyError (vocab !! START_TAG); mret [v]
         else mret []);
  let res := res ++ omap (fun token => vocab !! token) seq in
  if add_end_tag
  then v ← of_option KeyError (vocab !! EOS_token); mret (res ++ [v])
  else mret res.

End ConllDataset.

(** ** [predict_sentence] (predict.py) *)

(** The calls [predict_sentence] makes into the neural modules. *)
Inductive call : Set :=
| EncoderCall
| LemmaDecoderCall
| MorphDecoderCall.

(** A computation that may raise and that records the module calls made so
    far, in order. *)
Definition traced (A : Type) : Type := list call * result A.

#[global] Instance traced_ret : MRet traced := fun A a => ([], Ok a).

#[global] Instance traced_bind : MBind traced := fun A B f m =>
  match m with
  | (l, Ok a) => let '(l', r) := f a in (l ++ l', r)
  | (l, Err e) => (l, Err e)
  end.

(** A step that calls no module. *)
Definition lift {A : Type} (r : result A) : traced A := ([], r).

(** A step that is one call into a module. *)
Definition invoke {A : Type} (c : call) (r : result A) : traced A := ([c], r).

(** The decoders [predict_sentence] is given: a [TransformerRNN] or a
    [DecoderRNN] for lemmas, a [DecoderRNN] or a [DecoderFF] for tags. *)
Inductive LemmaDecoder : Type :=
| LemmaTransformerRNN (d : TransformerRNN.t)
| LemmaDecoderRNN (d : DecoderRNN.t).

Inductive MorphDecoder : Type :=
| MorphDecoderRNN (d : DecoderRNN.t)
| MorphDecoderFF (d : DecoderFF.t).

(** A word-piece tokenizer followed by [convert_tokens_to_ids]. *)
Definition Tokenizer : Type := string -> list nat.

(** [REMOVE_EOS_REGEX.sub('', surface)]: the pattern is a dollar sign at the
    end of the string or just before a newline that ends the string. *)
Fixpoint remove_eos (s : string) : string :=
  match s with
  | EmptyString => EmptyString
  | String a r =>
      if bool_decide (a = "$"%char ∧ (r = EmptyString ∨ r = newline))
      then r
      else String a (remove_eos r)
  end.

(** One record of the output. *)
Definition conll_line (i : nat) (surface lemma morph_feature : string)
  : string :=
  pretty (i + 1) +:+ tab +:+ remove_eos surface +:+ tab +:+ lemma +:+ tab
  +:+ "_" +:+ tab +:+ "_" +:+ tab +:+ morph_feature +:+ tab
  +:+ "_" +:+ tab +:+ "_" +:+ tab +:+ "_" +:+ tab +:+ "_" +:+ newline.

(** The loop that appends one record per word, [i] being the position of
    the first remaining word. *)
Fixpoint add_lines (conll_sentence : string) (i : nat)
    (entries : list (string * (string * string))) : string :=
  match entries with
  | [] => conll_sentence
  | (surface, (lemma, morph_feature)) :: entries =>
      add_lines (conll_sentence +:+ conll_line i surface lemma morph_feature)
        (S i) entries
  end.

(** The body of the override loop for one word. *)
Definition override_lemma (is_transformer : bool)
    (surface2lemma : gmap string string) (surface lemma : string) : string :=
  let _surface := if is_transformer then drop_last surface else surface in
  match surface2lemma !! _surface with
  | Some mapped => if bool_decide (mapped ≠ lemma) then mapped else lemma
  | None => lemma
  end.

(** [if surface2lemma: ...]: a missing or empty dictionary changes
    nothing. *)
Definition apply_surface2lemma (is_transformer : bool)
    (surface2lemma : option (gmap string string))
    (surface_words lemmas : list string) : list string :=
  match surface2lemma with
  | Some surface2lemma =>
      if bool_decide (surface2lemma = ∅) then lemmas
      else zip_with (override_lemma is_transformer surface2lemma)
             surface_words lemmas
  | None => lemmas
  end.

Definition is_TransformerRNN (decoder_lemma : LemmaDecoder) : bool :=
  match decoder_lemma with
  | LemmaTransformerRNN _ => true
  | LemmaDecoderRNN _ => false
  end.

(** [t[i]] on the rows of a tensor. *)
Definition row (t : list Vec) (i : nat) : result Vec :=
  of_option IndexError (t !! i).

(** [transformer_output[0][i]]. *)
Definition transformer_row (transformer_output : option Tensor) (i : nat)
  : result Vec :=
  match transformer_output with
  | None => Err TypeError
  | Some t => row (rows t) i
  end.

Section PredictSentence.
Variable inverse_transformation : string -> list string -> string.
(** [AutoTokenizer.from_pretrained(transformer_model_name)], used when no
    tokenizer is passed. *)
Variable from_pretrained : Tokenizer.

Variable surface_words : list string.
Variable encoder : EncoderRNN.t.
Variable decoder_lemma : LemmaDecoder.
Variable decoder_morph_tags : MorphDecoder.
Variable dataset : ConllDataset.t.
Variable use_transformer use_char_lstm : bool.
Variable tokenizer : option Tokenizer.
Variable use_rnn_morph : bool.
Variable max_morph_features_len : nat.
Variable surface2lemma : option (gmap string string).

Definition max_token_len : nat :=
  max_list (String.length <$> surface_words) + 1.

(** The rows of [encoded_surfaces]. *)
Definition encode_surfaces : result (list (list nat)) :=
  if use_char_lstm then
    mapM (fun surface =>
            encoded_surface ←
              ConllDataset.encode (chars surface)
                (ConllDataset.surface_char2id dataset) false true;
            mret (encoded_surface
                    ++ replicate (max_token_len - length encoded_surface) 0))
      surface_words
  else mret (replicate (length surface_words) (replicate max_token_len 0)).

(** [sub_tokens] and [word_ids]. *)
Definition tokenize : list nat * list nat :=
  let tokenizer := default from_pretrained tokenizer in
  (mjoin ((fun surface => tokenizer (drop_last surface)) <$> surface_words),
   mjoin (imap (fun word_id surface =>
                  replicate (length (tokenizer (drop_last surface))) word_id)
            surface_words)).

(** The lemma of word [i] with a character decoder. *)
Definition decode_lemma (d : DecoderRNN.t) (transformer_output : option Tensor)
    (word_representations context_aware_representations : list Vec)
    (i : nat) : traced string :=
  word_representation ← lift (row word_representations i);
  context ← lift (row context_aware_representations i);
  transformer_context ←
    lift (if use_transformer
          then tc ← transformer_row transformer_output i; mret (Some tc)
          else mret None);
  '(_, lemma) ←
    invoke LemmaDecoderCall
      (DecoderRNN.predict d word_representation context transformer_context
         (2 * max_token_len));
  mret (join EmptyString lemma).

(** The tags of word [i], joined.  A decoder that does not match
    [use_rnn_morph] fails with a type error: a [DecoderFF] takes no
    [max_len], and the pair a [DecoderRNN] returns cannot be joined. *)
Definition decode_morph (transformer_output : option Tensor)
    (word_representations context_aware_representations : list Vec)
    (i : nat) : traced string :=
  word_representation ← lift (row word_representations i);
  context ← lift (row context_aware_representations i);
  transformer_context ←
    lift (if use_transformer
          then tc ← transformer_row transformer_output i; mret (Some tc)
          else mret None);
  morph_feature ←
    (if use_rnn_morph then
       match decoder_morph_tags with
       | MorphDecoderRNN d =>
           '(_, morph_feature) ←
             invoke MorphDecoderCall
               (DecoderRNN.predict d word_representation context
                  transformer_context max_morph_features_len);
           mret morph_feature
       | MorphDecoderFF _ => lift (Err TypeError)
       end
     else
       match decoder_morph_tags with
       | MorphDecoderFF d =>
           invoke MorphDecoderCall
             (DecoderFF.predict d word_representation context
                transformer_context)
       | MorphDecoderRNN d =>
           _ ← invoke MorphDecoderCall
                 (DecoderRNN.predict d word_representation context
                    transformer_context 50);
           lift (Err TypeError)
       end);
  mret (join ";" morph_feature).

Definition predict_sentence : traced string :=
  if length surface_words =? 0 then mret EmptyString
  else
    encoded_surfaces ← lift encode_surfaces;
    (* a list has no [view]: without the transformer the arguments of the
       encoder call cannot be built *)
    '(sub_tokens, word_ids) ←
      lift (if use_transformer then Ok tokenize else Err AttributeError);
    '(transformer_output, word_representations,
      context_aware_representations) ←
      invoke EncoderCall
        (EncoderRNN.forward encoder (sub_tokens, word_ids) encoded_surfaces);
    let words_count := length context_aware_representations in
    lemmas ←
      match decoder_lemma with
      | LemmaTransformerRNN d =>
          '(_, lemmas) ←
            invoke LemmaDecoderCall
              (TransformerRNN.predict inverse_transformation d
                 word_representations context_aware_representations
                 encoded_surfaces surface_words
                 (if use_transformer then rows <$> transformer_output
                  else None));
          mret lemmas
      | LemmaDecoderRNN d =>
          mapM (decode_lemma d transformer_output word_representations
                  context_aware_representations) (seq 0 words_count)
      end;
    let lemmas :=
      apply_surface2lemma (is_TransformerRNN decoder_lemma) surface2lemma
        surface_words lemmas in
    morph_features ←
      mapM (decode_morph transformer_output word_representations
              context_aware_representations) (seq 0 words_count);
    let conll_sentence := "# Sentence" +:+ newline in
    mret (add_lines conll_sentence 0
            (zip surface_words (zip lemmas morph_features))).

End PredictSentence.

(** ** [DecoderRNN.forward] (layers.py)

    The training-time pass of the decoder, next to the prediction methods of
    the module [DecoderRNN] above. *)

Module DecoderRNNForward.
Import DecoderRNN.

(** [self.gru(embeddings, hidden)] on the embedded symbols of one word: the
    top-layer output at every position. *)
Fixpoint unroll (dec : t) (embeddings : list Vec) (hidden : Hidden)
  : list Vec :=
  match embeddings with
  | [] => []
  | embedded :: embeddings =>
      let '(output, hidden) := gru dec embedded hidden in
      output :: unroll dec embeddings hidden
  end.

(** The scores of one word of the batch: one row per symbol of [y]. *)
Definition forward_word (dec : t) (word_embedding context_vector : Vec)
    (y : list nat) (transformer_context : option Vec) : list (list Q) :=
  let hidden := init_hidden dec word_embedding context_vector
                  transformer_context in
  let embeddings := embedding dec <$> y in
  let outputs := unroll dec embeddings hidden in
  classifier dec <$> outputs.

(** [DecoderRNN.forward] on the words of one sentence.  The rows of
    [word_embeddings], [context_vectors], [y] and, when present,
    [transformer_context] belong to the same words; concatenating tensors
    with different numbers of rows is a runtime error. *)
Definition forward (dec : t) (word_embeddings context_vectors : list Vec)
    (y : list (list nat)) (transformer_context : option (list Vec))
  : result (list (list (list Q))) :=
  let n := length context_vectors in
  if negb ((length word_embeddings =? n) && (length y =? n)
           && match transformer_context with
              | Some tc => length tc =? n
              | None => true
              end)
  then Err RuntimeError
  else
    let contexts :=
      match transformer_context with
      | Some tc => Some <$> tc
      | None => replicate n None
      end in
    Ok (zip_with (fun '(we, cv) '(tc, row) => forward_word dec we cv row tc)
          (zip word_embeddings context_vectors) (zip contexts y)).

End DecoderRNNForward.

(** ** The vocabularies of [ConllDataset] (data_loaders.py) *)

Module Vocabularies.

(** A sentence of the data set, as [ConllDataset] reads it: its length
    [len(sentence)] and four fields.  Surface words and lemmas are strings,
    a transformation is the list of labels of one word, and so is a
    morphological tag.  The class itself comes from [data_utils], whose code
    is not part of the sources at hand; nothing is assumed here on how the
    length and the fields relate. *)
Record Sentence : Type := mkSentence {
  sentence_len : nat;
  surface_words : list string;
  lemmas : list string;
  transformations : list (list string);
  morph_tags : list (list string)
}.

(** [vocab[symbol] = len(vocab)]. *)
Definition assign (vocab : gmap string nat) (symbol : string)
  : gmap string nat :=
  <[symbol := size vocab]> vocab.

(** [for symbol in symbols: vocab[symbol] = len(vocab)]. *)
Definition assign_all (vocab : gmap string nat) (symbols : list string)
  : gmap string nat :=
  foldl assign vocab symbols.

(** [if symbol not in vocab: vocab[symbol] = len(vocab)]. *)
Definition assign_new (vocab : gmap string nat) (symbol : string)
  : gmap string nat :=
  if decide (is_Some (vocab !! symbol)) then vocab else assign vocab symbol.

(** The four vocabularies of a data set. *)
Record t : Type := mk {
  surface_char2id : gmap string nat;
  lemma_char2id : gmap string nat;
  transformation2id : gmap string nat;
  morph_tag2id : gmap string nat
}.

(** [if vocab: self.vocab = vocab, else: ...]: a vocabulary that is missing
    or empty is replaced by one that holds the reserved symbols. *)
Definition supplied_or (supplied : option (gmap string nat))
    (reserved : list string) : gmap string nat :=
  match supplied with
  | Some vocab =>
      if decide (vocab = ∅) then assign_all ∅ reserved else vocab
  | None => assign_all ∅ reserved
  end.

Section CreateVocabs.
(** [set_order xs] lists the elements of [set(xs)] in the order in which
    Python iterates over the set. *)
Variable set_order : list string -> list string.

Definition create_vocabs (sentences : list Sentence) (self : t) : t :=
  let unique_surfaces := set_order (mjoin (surface_words <$> sentences)) in
  let unique_chars := set_order (mjoin (chars <$> unique_surfaces)) in
  let surface_char2id := assign_all (surface_char2id self) unique_chars in
  let unique_lemmas := set_order (mjoin (lemmas <$> sentences)) in
  let unique_chars := set_order (mjoin (chars <$> unique_lemmas)) in
  let lemma_char2id := assign_all (lemma_char2id self) unique_chars in
  let transformation2id :=
    foldl assign_new (transformation2id self)
      (mjoin (mjoin (transformations <$> sentences))) in
  let unique_morph_tags := mjoin (morph_tags <$> sentences) in
  let unique_tags := set_order (mjoin unique_morph_tags) in
  let morph_tag2id := assign_all (morph_tag2id self) unique_tags in
  mk surface_char2id lemma_char2id transformation2id morph_tag2id.

(** [ConllDataset.__init__], from the sentences [read_dataset] returned to
    the vocabularies. *)
Definition init (sentences : list Sentence)
    (surface_char2id lemma_char2id morph_tag2id transformation2id
       : option (gmap string nat))
    (mode : string) (max_sentences : nat) : t :=
  let sentences :=
    if (0 <? max_sentences) && (max_sentences <? length sentences)
    then take max_sentences sentences else sentences in
  let self :=
    mk (supplied_or surface_char2id
          [ConllDataset.PAD_token; ConllDataset.EOS_token])
       (supplied_or lemma_char2id
          [ConllDataset.PAD_token; ConllDataset.EOS_token;
           ConllDataset.START_TAG])
       (supplied_or transformation2id [ConllDataset.PAD_token])
       (supplied_or morph_tag2id
          [ConllDataset.PAD_token; ConllDataset.EOS_token;
           ConllDataset.START_TAG]) in
  if decide (mode = "train") then create_vocabs sentences self else self.

End CreateVocabs.

End Vocabularies.

(** ** [ConllDataset.__getitem__] (data_loaders.py) *)

Module GetItem.
Import Vocabularies.

(** What [__getitem__] raises: [max] of an empty list is a value error, an
    exception that prediction never meets; the others are those of
    [result]. *)
Inductive raised : Set :=
| ValueError
| Raised (e : exn).

Definition and_then {A B : Type} (m : raised + A) (k : A -> raised + B)
  : raised + B :=
  match m with
  | inl r => inl r
  | inr a => k a
  end.

Definition of_result {A : Type} (r : result A) : raised + A :=
  match r with
  | Ok a => inr a
  | Err e => inl (Raised e)
  end.

(** [max([...])]. *)
Definition max_of (xs : list nat) : raised + nat :=
  match xs with
  | [] => inl ValueError
  | _ :: _ => inr (max_list xs)
  end.

(** The loop
    [for ix, seq in enumerate(seqs):
       encoded = self.encode(seq, vocab, ...)
       tensor[ix, :encoded.size()[0]] = encoded]
    from position [ix] on, [tensor] being rows of [width] entries: a row
    that does not exist is an index error, an encoded sequence longer than
    the row a runtime error.  Every width [__getitem__] uses is positive. *)
Fixpoint encode_rows (vocab : gmap string nat)
    (add_start_tag add_end_tag : bool) (width ix : nat)
    (seqs : list (list string)) (tensor : list (list nat))
  : result (list (list nat)) :=
  match seqs with
  | [] => Ok tensor
  | seq :: seqs =>
      encoded ← ConllDataset.encode seq vocab add_start_tag add_end_tag;
      match tensor !! ix with
      | None => Err IndexError
      | Some _ =>
          if decide (length encoded <= width)
          then encode_rows vocab add_start_tag add_end_tag width (S ix) seqs
                 (<[ix := encoded ++ replicate (width - length encoded) 0]>
                    tensor)
          else Err RuntimeError
      end
  end.

(** The five tensors [__getitem__] returns; the first one is the empty list
    when the data set has no transformer. *)
Record item : Type := mkItem {
  encoded_surfaces_pretrained : option (list nat * list nat);
  encoded_surfaces : list (list nat);
  encoded_lemmas : list (list nat);
  encoded_morph_tags : list (list nat);
  encoded_transformations : list (list nat)
}.

Section GetItem.
Variable self : Vocabularies.t.
(** [self.tokenizer], set exactly when [self.transformer_model_name] is. *)
Variable tokenizer : option Tokenizer.

Definition getitem (sentence : Sentence) : raised + item :=
  and_then
    (max_of ((fun surface => String.length surface + 1)
               <$> surface_words sentence)) (fun max_token_len =>
  and_then
    (max_of ((fun lemma => String.length lemma + 2) <$> lemmas sentence))
    (fun max_lemma_len =>
  and_then
    (max_of ((fun morph_tag => length morph_tag + 2)
               <$> morph_tags sentence)) (fun max_morph_tags_len =>
  let zeros := fun width =>
    replicate (sentence_len sentence) (replicate width 0) in
  and_then
    (of_result
       (encode_rows (surface_char2id self) false true max_token_len 0
          (chars <$> surface_words sentence) (zeros max_token_len)))
    (fun encoded_surfaces =>
  and_then
    (of_result
       (encode_rows (lemma_char2id self) true true max_lemma_len 0
          (chars <$> lemmas sentence) (zeros max_lemma_len)))
    (fun encoded_lemmas =>
  and_then
    (of_result
       (encode_rows (morph_tag2id self) true true max_morph_tags_len 0
          (morph_tags sentence) (zeros max_morph_tags_len)))
    (fun encoded_morph_tags =>
  and_then
    (of_result
       (encode_rows (transformation2id self) false false max_token_len 0
          (transformations sentence) (zeros max_token_len)))
    (fun encoded_transformations =>
  let encoded_surfaces_pretrained :=
    match tokenizer with
    | Some tokenizer =>
        Some (tokenize tokenizer (surface_words sentence) (Some tokenizer))
    | None => None
    end in
  inr (mkItem encoded_surfaces_pretrained encoded_surfaces encoded_lemmas
         encoded_morph_tags encoded_transformations)))))))).

End GetItem.

End GetItem.

(** ** [predict] and [predict_unimorph] (predict.py)

    Both functions load a data set object, a tokenizer and the three modules
    from files, read the sentences to tag and write one text per sentence.
    The objects loaded and the sentences read are arguments here, and the
    output file is the text written to it. *)

(** [for sentence in data_surface_words: f.write(predict_sentence(...));
    f.write('\n')]: the text written so far, the module calls made so far
    and how the loop ended. *)
Fixpoint write_predictions (predict_one : list string -> traced string)
    (data_surface_words : list (list string)) (f : string)
    (calls : list call) : string * traced unit :=
  match data_surface_words with
  | [] => (f, (calls, Ok tt))
  | sentence :: data_surface_words =>
      match predict_one sentence with
      | (l, Ok conll_sentence) =>
          write_predictions predict_one data_surface_words
            (f +:+ conll_sentence +:+ newline) (calls ++ l)
      | (l, Err e) => (f, (calls ++ l, Err e))
      end
  end.

Section PredictFiles.
Variable inverse_transformation : string -> list string -> string.
Variable from_pretrained : Tokenizer.

(** [predict]: the lemma decoder is a [TransformerRNN], the tag decoder a
    [DecoderRNN], and [use_rnn_morph] and [max_morph_features_len] are left
    to their defaults. *)
Definition predict (train_set : ConllDataset.t) (encoder : EncoderRNN.t)
    (decoder_lemma : TransformerRNN.t) (decoder_morph_tags : DecoderRNN.t)
    (use_transformer use_char_lstm : bool)
    (data_surface_words : list (list string)) : string * traced unit :=
  let tokenizer := if use_transformer then Some from_pretrained else None in
  write_predictions
    (fun sentence =>
       predict_sentence inverse_transformation from_pretrained sentence
         encoder (LemmaTransformerRNN decoder_lemma)
         (MorphDecoderRNN decoder_morph_tags) train_set use_transformer
         use_char_lstm tokenizer false 10 (Some ∅))
    data_surface_words EmptyString [].

(** The body of [predict_unimorph] for one training file.  Which decoders
    are built depends on the language and on the flags; [lemma_rnn],
    [lemma_transformer], [morph_rnn] and [morph_ff] are what each choice
    loads.  [use_rnn_morph] picks the tag decoder and is not passed on to
    [predict_sentence]. *)
Definition predict_unimorph (train_set : ConllDataset.t)
    (encoder : EncoderRNN.t) (lemma_rnn : DecoderRNN.t)
    (lemma_transformer : TransformerRNN.t) (morph_rnn : DecoderRNN.t)
    (morph_ff : DecoderFF.t) (read_surface_lemma_map : gmap string string)
    (non_transformer_language : bool)
    (use_surface_lemma_mapping use_min_edit_operation_decoder : bool)
    (use_transformer use_char_lstm use_rnn_morph : bool)
    (data_surface_words : list (list string)) : string * traced unit :=
  let tokenizer := if use_transformer then Some from_pretrained else None in
  let surface2lemma :=
    if use_surface_lemma_mapping then Some read_surface_lemma_map
    else None in
  let decoder_lemma :=
    if non_transformer_language || negb use_min_edit_operation_decoder
    then LemmaDecoderRNN lemma_rnn
    else LemmaTransformerRNN lemma_transformer in
  let decoder_morph_tags :=
    if use_rnn_morph then MorphDecoderRNN morph_rnn
    else MorphDecoderFF morph_ff in
  write_predictions
    (fun sentence =>
       predict_sentence inverse_transformation from_pretrained sentence
         encoder decoder_lemma decoder_morph_tags train_set use_transformer
         use_char_lstm tokenizer false 10 surface2lemma)
    data_surface_words EmptyString [].

End PredictFiles.

(** ** Small instances

    Concrete modules and inputs on which the definitions above are run in
    the examples of the next part. *)

Definition vocabulary : gmap nat string :=
  list_to_map
    [(0, "<p>"); (1, "<e>"); (2, "<s>"); (3, "a"); (4, "b"); (5, "c")].

(** A rational stand-in for softmax on rows of non-negative scores: every
    entry divided by the sum of the row. *)
Definition normalise (t : list Q) : list Q :=
  (fun x => (x / foldr Qplus 0 t)%Q) <$> t.

(** A decoder that plays a script: whatever symbol it is fed, its classifier
    returns row [n] of [script] at step [n].  The step is read off the
    hidden state, which starts with two layers and grows by one per step. *)
Definition scripted (script : list (list Q)) : DecoderRNN.t :=
  DecoderRNN.mk (fun v => v) (fun token => [Qnat token])
    (fun _ h => (default [] (script !! (length h - 2)), [] :: h))
    (fun v => v) normalise vocabulary 6.

Definition one_hot (ix : nat) : list Q := <[ix := 1%Q]> (replicate 6 0%Q).

(** Emits [a], [b], [c] and then the end symbol. *)
Definition spell_abc : DecoderRNN.t :=
  scripted [one_hot 3; one_hot 4; one_hot 5; one_hot 1].

(** Emits the padding symbol, then [a], then the end symbol. *)
Definition spell_pad_a : DecoderRNN.t :=
  scripted [one_hot 0; one_hot 3; one_hot 1].

(** Two symbols compete at the first step, the end symbol and [a] at the
    second, and the end symbol wins the third. *)
Definition branching : DecoderRNN.t :=
  scripted [[0; 0; 0; 3 # 5; 2 # 5; 0]; [0; 1 # 2; 0; 1 # 4; 1 # 4; 0];
            [0; 1; 0; 0; 0; 0]]%Q.

Definition tags : gmap nat string :=
  list_to_map
    [(0, "<p>"); (1, "<e>"); (2, "<s>"); (3, "N"); (4, "PL"); (5, "SG")].

(** A rational stand-in for the sigmoid: increasing, with value one half
    at zero. *)
Definition squash (x : Q) : Q := ((1 + x / (1 + Qabs x)) / 2)%Q.

(** A tag classifier with fixed logits: high for the three reserved
    entries and for [N] and [SG], low for [PL]. *)
Definition tagger : DecoderFF.t :=
  DecoderFF.mk (fun v => v) (fun _ => [3; 3; 3; 3; -1; 2]%Q) squash tags.

Definition toy_encoder : EncoderRNN.t :=
  EncoderRNN.mk 1 1 (fun c => [Qnat c]) vadd (fun x _ => x) (fun x _ => x)
    (Some (fun sub_tokens =>
             mkTensor 1 ((fun token => [Qnat token]) <$> sub_tokens)))
    (fun v => v).

(** One sub-word per word. *)
Definition toy_tokenizer : Tokenizer := fun s => [String.length s].

Definition toy_dataset : ConllDataset.t :=
  ConllDataset.mk
    (list_to_map
       [("<p>", 0); ("<e>", 1); ("d", 2); ("o", 3); ("g", 4); ("$", 5)]).

(** An inverse transformation that keeps the surface word. *)
Definition keep_surface : string -> list string -> string :=
  fun surface _ => surface.

Definition toy_labeler : TransformerRNN.t :=
  TransformerRNN.mk (fun v => v) (fun c => [Qnat c]) (fun xs _ => xs)
    (fun _ => [0; 1]%Q) normalise (list_to_map [(0, "<p>"); (1, "same")]).

Definition canine : gmap string string := {[ "dog" := "canine" ]}.

(** A vocabulary of characters with the three reserved symbols first. *)
Definition abc_vocab : gmap string nat :=
  list_to_map
    [("<p>", 0); ("<e>", 1); ("<s>", 2); ("a", 3); ("b", 4); ("c", 5)].


(** Two sentences of a data set. *)
Definition toy_sentences : list Vocabularies.Sentence :=
  [Vocabularies.mkSentence 2 ["ab$"; "b$"] ["a"; "b"]
     [["same"; "delete"; "same"]; ["same"; "same"]] [["N"; "SG"]; ["V"]];
   Vocabularies.mkSentence 1 ["ba$"] ["b"] [["same"; "delete"; "delete"]]
     [["N"; "PL"]]].

(** Vocabularies for the sentences above. *)
Definition toy_vocabularies : Vocabularies.t :=
  Vocabularies.mk
    (list_to_map [("<p>", 0); ("<e>", 1); ("a", 2); ("b", 3); ("$", 4)])
    abc_vocab
    (list_to_map [("<p>", 0); ("same", 1); ("delete", 2)])
    (list_to_map
       [("<p>", 0); ("<e>", 1); ("<s>", 2); ("N", 3); ("SG", 4); ("V", 5)]).

(** ** Vocabulary of the properties *)

(** Descending order of the keys. *)
Definition ge_key {A : Type} (key : A -> Q) (a b : A) : Prop :=
  (key b <= key a)%Q.

(** The trace of a loop of [steps] iterations: the end symbol closes it, or
    it runs the full number of iterations without the end symbol. *)
Definition stops_at_END (steps : nat) (tokens : list nat) : Prop :=
  (∃ before, tokens = before ++ [1] ∧ 1 ∉ before)
  ∨ ((1 ∉ tokens) ∧ length tokens = steps).

(** A greedy loop that has not run yet, and two runs one after the
    other. *)
Definition empty_run : DecoderRNN.GreedyRun := DecoderRNN.mkGreedyRun [] [] [].

Definition append_run (run r : DecoderRNN.GreedyRun) : DecoderRNN.GreedyRun :=
  DecoderRNN.mkGreedyRun
    (DecoderRNN.run_scores run ++ DecoderRNN.run_scores r)
    (DecoderRNN.run_tokens run ++ DecoderRNN.run_tokens r)
    (DecoderRNN.run_predictions run ++ DecoderRNN.run_predictions r).

(** The probabilities the decoder gives to the next symbol after [state],
    and the hidden state it moves to. *)
Definition next_scores (dec : DecoderRNN.t) (state : DecoderRNN.State)
  : list Q :=
  DecoderRNN.softmax dec
    (DecoderRNN.classifier dec
       (DecoderRNN.gru dec
          (DecoderRNN.embedding dec (DecoderRNN.last_output state))
          (DecoderRNN.hidden state)).1).

Definition next_hidden (dec : DecoderRNN.t) (state : DecoderRNN.State)
  : Hidden :=
  (DecoderRNN.gru dec
     (DecoderRNN.embedding dec (DecoderRNN.last_output state))
     (DecoderRNN.hidden state)).2.

(** [child] is what the loop body of beam search builds from [parent] for
    one of the best symbols of the step taken from [parent]. *)
Definition expands (dec : DecoderRNN.t) (surface_len beam_size : nat)
    (parent child : DecoderRNN.State) : Prop :=
  String.length (DecoderRNN.prediction parent) < surface_len + 2
  ∧ ∃ (tops : list (nat * Q)) (ix : nat) (p : Q),
      topk beam_size (next_scores dec parent) = Ok tops
      ∧ (ix, p) ∈ tops
      ∧ DecoderRNN.beam_child dec surface_len parent (next_hidden dec parent)
          ix p = Ok child.

(** The rows of [data] labelled [j], in order. *)
Definition segment (j : nat) (segment_ids : list nat) (data : list Vec)
  : list Vec :=
  snd <$> filter (fun p => p.1 = j) (zip segment_ids data).

(** The ten fields of the record of word [i]. *)
Definition conll_fields (i : nat) (surface lemma : string)
    (tags : list string) : list string :=
  [pretty (i + 1); remove_eos surface; lemma; "_"; "_"; join ";" tags;
   "_"; "_"; "_"; "_"].

(** The text of a sentence: the comment line, then one record per word. *)
Definition conll_text (surface_words lemmas : list string)
    (tagss : list (list string)) : string :=
  "# Sentence" +:+ newline
  +:+ join EmptyString
        (imap (fun i '(surface, (lemma, tags)) =>
                 join tab (conll_fields i surface lemma tags) +:+ newline)
           (zip surface_words (zip lemmas tagss))).

(** The key the override dictionary is looked up at for a word. *)
Definition lookup_key (decoder_lemma : LemmaDecoder) (surface : string)
  : string :=
  if is_TransformerRNN decoder_lemma then drop_last surface else surface.

(** The sub-word ids [predict_sentence] computes for one word. *)
Definition sub_tokens_of (from_pretrained : Tokenizer)
    (tokenizer : option Tokenizer) (surface : string) : list nat :=
  default from_pretrained tokenizer (drop_last surface).

(** A vocabulary that numbers its symbols without clash and without gap:
    the ids are exactly the numbers below its size. *)
Definition dense (vocab : gmap string nat) : Prop :=
  (∀ s1 s2 id, vocab !! s1 = Some id -> vocab !! s2 = Some id -> s1 = s2)
  ∧ ∀ id, id < size vocab <-> ∃ s, vocab !! s = Some id.

(** Python's iteration over a set visits every element once. *)
Definition enumerates (set_order : list string -> list string) : Prop :=
  ∀ xs, NoDup (set_order xs) ∧ ∀ x, x ∈ set_order xs <-> x ∈ xs.

(** No vocabulary was supplied: [None] or the empty dictionary. *)
Definition not_supplied (supplied : option (gmap string nat)) : Prop :=
  supplied = None ∨ supplied = Some ∅.

(** [vocab] numbers the [reserved] symbols by their positions and holds,
    besides them, exactly the symbols of the data, without clash or gap. *)
Definition numbered (reserved : list string) (in_data : string -> Prop)
    (vocab : gmap string nat) : Prop :=
  dense vocab
  ∧ (∀ i s, reserved !! i = Some s -> vocab !! s = Some i)
  ∧ ∀ s, is_Some (vocab !! s) <-> s ∈ reserved ∨ in_data s.

(** The sentences [ConllDataset] keeps. *)
Definition kept_sentences (sentences : list Vocabularies.Sentence)
    (max_sentences : nat) : list Vocabularies.Sentence :=
  if (0 <? max_sentences) && (max_sentences <? length sentences)
  then take max_sentences sentences else sentences.

(** The characters of the surface words, the characters of the lemmas, the
    transformation labels and the tags of some sentences. *)
Definition surface_char_of (sentences : list Vocabularies.Sentence)
    (ch : string) : Prop :=
  ∃ sentence surface,
    sentence ∈ sentences ∧ surface ∈ Vocabularies.surface_words sentence
    ∧ ch ∈ chars surface.

Definition lemma_char_of (sentences : list Vocabularies.Sentence)
    (ch : string) : Prop :=
  ∃ sentence lemma,
    sentence ∈ sentences ∧ lemma ∈ Vocabularies.lemmas sentence
    ∧ ch ∈ chars lemma.

Definition transformation_of (sentences : list Vocabularies.Sentence)
    (label : string) : Prop :=
  ∃ sentence transformation,
    sentence ∈ sentences
    ∧ transformation ∈ Vocabularies.transformations sentence
    ∧ label ∈ transformation.

Definition tag_of (sentences : list Vocabularies.Sentence) (tag : string)
  : Prop :=
  ∃ sentence morph_tag,
    sentence ∈ sentences ∧ morph_tag ∈ Vocabularies.morph_tags sentence
    ∧ tag ∈ morph_tag.

(** What the unguarded loops of [create_vocabs] make of a [supplied]
    vocabulary: every symbol of the data gets an id that is at least the
    size of [supplied], all of them the same id when the data brings no new
    symbol, and the other entries stay. *)
Definition renumbered (supplied : gmap string nat)
    (in_data : string -> Prop) (vocab : gmap string nat) : Prop :=
  (∀ s, in_data s -> ∃ id, vocab !! s = Some id ∧ size supplied <= id)
  ∧ ((∀ s, in_data s -> is_Some (supplied !! s)) ->
     ∀ s, in_data s -> vocab !! s = Some (size supplied))
  ∧ ∀ s, ¬ in_data s -> vocab !! s = supplied !! s.

(** The number of sentences without a word that come before the first
    sentence with one. *)
Fixpoint leading_empty (data_surface_words : list (list string)) : nat :=
  match data_surface_words with
  | [] :: data_surface_words => S (leading_empty data_surface_words)
  | _ => 0
  end.

(** A text of [n] empty lines. *)
Definition empty_lines (n : nat) : string :=
  join EmptyString (replicate n newline).

(** A row of [width] entries that starts with [encoded]. *)
Definition padded (width : nat) (encoded : list nat) : list nat :=
  encoded ++ replicate (width - length encoded) 0.

(** A sentence with at least one word whose fields have one entry per word,
    and vocabularies that hold the reserved symbols [__getitem__] adds. *)
Definition ready (self : Vocabularies.t) (sentence : Vocabularies.Sentence)
  : Prop :=
  0 < Vocabularies.sentence_len sentence
  ∧ length (Vocabularies.surface_words sentence)
    = Vocabularies.sentence_len sentence
  ∧ length (Vocabularies.lemmas sentence)
    = Vocabularies.sentence_len sentence
  ∧ length (Vocabularies.morph_tags sentence)
    = Vocabularies.sentence_len sentence
  ∧ length (Vocabularies.transformations sentence)
    = Vocabularies.sentence_len sentence
  ∧ is_Some (Vocabularies.surface_char2id self !! ConllDataset.EOS_token)
  ∧ is_Some (Vocabularies.lemma_char2id self !! ConllDataset.START_TAG)
  ∧ is_Some (Vocabularies.lemma_char2id self !! ConllDataset.EOS_token)
  ∧ is_Some (Vocabularies.morph_tag2id self !! ConllDataset.START_TAG)
  ∧ is_Some (Vocabularies.morph_tag2id self !! ConllDataset.EOS_token).

(** A tensor of [n] rows of [width] entries. *)
Definition has_shape (n width : nat) (tensor : list (list nat)) : Prop :=
  length tensor = n ∧ Forall (fun row => length row = width) tensor.

(** The ids of the labels of a transformation that the vocabulary holds. *)
Definition known_labels (self : Vocabularies.t) (transformation : list string)
  : list nat :=
  omap (fun label => Vocabularies.transformation2id self !! label)
    transformation.

(** * Properties *)

(** ** Results, strings, sorting *)

Lemma bind_Ok {A B : Type} (m : result A) (f : A -> result B) (b : B) :
  (m ≫= f) = Ok b <-> ∃ a, m = Ok a ∧ f a = Ok b.
Proof.
  destruct m as [a|e]; simpl; split.
  - intros H. by exists a.
  - by intros (a' & [= ->] & H).
  - done.
  - by intros (a' & ? & _).
Qed.

Lemma of_option_Ok {A : Type} (e : exn) (o : option A) (a : A) :
  of_option e o = Ok a <-> o = Some a.
Proof. destruct o; simpl; split; congruence. Qed.

Lemma string_app_cons (a : ascii) (s1 s2 : string) :
  String a s1 +:+ s2 = String a (s1 +:+ s2).
Proof. reflexivity. Qed.

Lemma string_length_app (s1 s2 : string) :
  String.length (s1 +:+ s2) = String.length s1 + String.length s2.
Proof.
  induction s1 as [|a s1 IH]; [done|].
  rewrite string_app_cons. simpl. by rewrite IH.
Qed.

Lemma string_app_assoc (s1 s2 s3 : string) :
  (s1 +:+ s2) +:+ s3 = s1 +:+ (s2 +:+ s3).
Proof.
  induction s1 as [|a s1 IH]; [done|].
  rewrite !string_app_cons. by rewrite IH.
Qed.

Lemma string_app_nil_r (s : string) : s +:+ EmptyString = s.
Proof.
  induction s as [|a s IH]; [done|]. rewrite string_app_cons. by rewrite IH.
Qed.

Lemma string_length_pos (s : string) :
  s ≠ EmptyString -> 0 < String.length s.
Proof. destruct s; simpl; [done|lia]. Qed.

Lemma join_empty_cons (x : string) (xs : list string) :
  join EmptyString (x :: xs) = x +:+ join EmptyString xs.
Proof.
  destruct xs as [|y xs]; [|reflexivity].
  change (x = x +:+ EmptyString). by rewrite string_app_nil_r.
Qed.

Lemma Qltb_lt (x y : Q) : Qltb x y = true <-> (x < y)%Q.
Proof.
  unfold Qltb. rewrite negb_true_iff. split.
  - intros H. apply Qnot_le_lt. intros Hle. apply Qle_bool_iff in Hle.
    congruence.
  - intros H. destruct (Qle_bool y x) eqn:E; [|done].
    apply Qle_bool_iff in E. exfalso. by apply (Qlt_not_le x y).
Qed.

Lemma Qltb_ge (x y : Q) : Qltb x y = false <-> (y <= x)%Q.
Proof. unfold Qltb. rewrite negb_false_iff. apply Qle_bool_iff. Qed.

Section SortingFacts.
Context {A : Type} (key : A -> Q).

Lemma insert_desc_perm (x : A) (l : list A) : insert_desc key x l ≡ₚ x :: l.
Proof.
  induction l as [|y r IH]; simpl; [done|].
  destruct (Qltb (key x) (key y)); [|done].
  rewrite IH. apply Permutation_swap.
Qed.

Lemma sort_desc_perm (l : list A) : sort_desc key l ≡ₚ l.
Proof.
  induction l as [|x l IH]; simpl; [done|].
  rewrite insert_desc_perm. by rewrite IH.
Qed.

Lemma insert_desc_sorted (x : A) (l : list A) :
  StronglySorted (ge_key key) l -> StronglySorted (ge_key key) (insert_desc key x l).
Proof.
  induction 1 as [|y r Hr IH Hy]; simpl.
  - repeat constructor.
  - destruct (Qltb (key x) (key y)) eqn:E.
    + constructor; [done|].
      rewrite insert_desc_perm. constructor; [|done].
      apply Qltb_lt in E. by apply Qlt_le_weak.
    + apply Qltb_ge in E. constructor; [by constructor|].
      constructor; [done|].
      eapply Forall_impl; [exact Hy|]. intros z Hz. unfold ge_key in *.
      by eapply Qle_trans.
Qed.

Lemma sort_desc_sorted (l : list A) : StronglySorted (ge_key key) (sort_desc key l).
Proof.
  induction l as [|x l IH]; simpl; [constructor|].
  by apply insert_desc_sorted.
Qed.

(** Element 0 of the sorted list is an element of the list with the
    greatest key. *)
Lemma sort_desc_head (l : list A) (s : A) :
  head (sort_desc key l) = Some s ->
  s ∈ l ∧ ∀ x, x ∈ l -> (key x <= key s)%Q.
Proof.
  intros Hh. pose proof (sort_desc_sorted l) as Hs.
  pose proof (sort_desc_perm l) as Hp.
  destruct (sort_desc key l) as [|s' r]; simplify_eq/=.
  split.
  - rewrite <- Hp. left.
  - intros x Hx. rewrite <- Hp in Hx.
    apply StronglySorted_inv in Hs as [_ Hall].
    apply elem_of_cons in Hx as [->|Hx]; [apply Qle_refl|].
    rewrite Forall_forall in Hall. by apply Hall.
Qed.

Lemma sort_desc_nil_inv (l : list A) : sort_desc key l = [] -> l = [].
Proof.
  intros H. pose proof (sort_desc_perm l) as Hp. rewrite H in Hp.
  by apply Permutation_nil_l in Hp.
Qed.

End SortingFacts.

Lemma topk_length (k : nat) (t : list Q) (top : list (nat * Q)) :
  topk k t = Ok top -> length top = k.
Proof.
  unfold topk. case_decide as Hk; [|done]. intros [= <-].
  rewrite length_take. rewrite (Permutation_length (sort_desc_perm snd _)).
  rewrite length_imap. lia.
Qed.

(** The entries [topk] returns are entries of the tensor, paired with their
    positions. *)
Lemma topk_lookup (k : nat) (t : list Q) (top : list (nat * Q)) (ix : nat)
    (p : Q) :
  topk k t = Ok top -> (ix, p) ∈ top -> t !! ix = Some p.
Proof.
  unfold topk. case_decide as Hk; [|done]. intros [= <-] Hin.
  apply elem_of_take in Hin as (i & Hin & _).
  apply list_elem_of_lookup_2 in Hin. rewrite sort_desc_perm in Hin.
  apply elem_of_lookup_imap in Hin as (j & y & [= -> ->] & Hy). done.
Qed.

Lemma topk_1_inv (t : list Q) (top : list (nat * Q)) :
  topk 1 t = Ok top -> ∃ ix p, top = [(ix, p)].
Proof.
  intros H. apply topk_length in H.
  destruct top as [|[ix p] [|? ?]]; simplify_eq/=. by exists ix, p.
Qed.

Lemma argmax_topk (t : list Q) (ix : nat) :
  argmax t = Ok ix <-> ∃ p, topk 1 t = Ok [(ix, p)].
Proof.
  unfold argmax. split.
  - intros (top & Htop & Hhead)%bind_Ok.
    destruct (topk_1_inv _ _ Htop) as (ix' & p & ->).
    simpl in Hhead. simplify_eq. by exists p.
  - intros [p ->]. done.
Qed.

(** ** Greedy decoding *)

Section GreedyFacts.
Import DecoderRNN.

Lemma predict_loop_spec (dec : t) (steps : nat) :
  ∀ (predicted_token : nat) (hidden : Hidden) (run run' : GreedyRun),
  predict_loop dec steps predicted_token hidden run = Ok run' ->
  ∃ (tokens : list nat) (predictions : list string),
    run_tokens run' = run_tokens run ++ tokens
    ∧ run_predictions run' = run_predictions run ++ predictions
    ∧ length (run_scores run') = length (run_scores run) + length tokens
    ∧ length tokens <= steps
    ∧ stops_at_END steps tokens
    ∧ Forall2 (fun id token => index2token dec !! id = Some token)
        (filter (fun id => 2 < id) tokens) predictions.
Proof.
  induction steps as [|steps IH]; intros tok h run run' Hrun.
  - simplify_eq/=. exists [], []. rewrite !app_nil_r.
    split_and!; try done; try (simpl; lia).
    right. split; [apply not_elem_of_nil|done].
  - simpl in Hrun. destruct (gru dec (embedding dec tok) h) as [output h'].
    apply bind_Ok in Hrun as (top & Htop & Hrun).
    destruct top as [|[topi v] top]; [done|].
    destruct (topi =? 1) eqn:E1.
    { apply Nat.eqb_eq in E1 as ->. simplify_eq/=. exists [1], [].
      rewrite app_nil_r, length_app. simpl.
      split_and!; try done; try lia.
      left. exists []. split; [done|apply not_elem_of_nil]. }
    apply Nat.eqb_neq in E1.
    assert (Hcons : ∀ tokens, stops_at_END steps tokens ->
              stops_at_END (S steps) (topi :: tokens)).
    { intros tokens [(before & -> & Hb)|[Hn Hl]].
      - left. exists (topi :: before). split; [done|].
        rewrite not_elem_of_cons. auto.
      - right. split; [|simpl; lia]. rewrite not_elem_of_cons. auto. }
    destruct (2 <? topi) eqn:E2.
    + apply Nat.ltb_lt in E2.
      apply bind_Ok in Hrun as (token & Htok & Hrun).
      apply of_option_Ok in Htok.
      apply IH in Hrun
        as (tokens & predictions & Ht & Hp & Hs & Hl & Hstop & Hf).
      simpl in *. exists (topi :: tokens), (token :: predictions).
      rewrite Ht, Hp, Hs, <- !app_assoc, length_app. simpl.
      split_and!; try done; try lia; [by apply Hcons|].
      rewrite filter_cons_True by done. by constructor.
    + apply Nat.ltb_ge in E2.
      apply IH in Hrun
        as (tokens & predictions & Ht & Hp & Hs & Hl & Hstop & Hf).
      simpl in *. exists (topi :: tokens), predictions.
      rewrite Ht, Hp, Hs, <- !app_assoc, length_app. simpl.
      split_and!; try done; try lia; [by apply Hcons|].
      rewrite filter_cons_False by lia. done.
Qed.

Lemma predict_loop_shift (dec : t) (steps : nat) :
  ∀ (predicted_token : nat) (hidden : Hidden) (run : GreedyRun),
  predict_loop dec steps predicted_token hidden run
  = r ← predict_loop dec steps predicted_token hidden empty_run;
    mret (append_run run r).
Proof.
  induction steps as [|steps IH]; intros tok h run.
  - simpl. unfold mret, result_ret, append_run. simpl.
    rewrite !app_nil_r. by destruct run.
  - simpl. destruct (gru dec (embedding dec tok) h) as [output h'].
    destruct (topk 1 (classifier dec output)) as [top|e]; simpl; [|done].
    destruct top as [|[topi v] top]; [done|].
    destruct (topi =? 1).
    { simpl. unfold mret, result_ret, append_run. simpl.
      by rewrite app_nil_r. }
    destruct (2 <? topi).
    + destruct (index2token dec !! topi) as [token|]; simpl; [|done].
      rewrite IH. symmetry. rewrite IH.
      destruct (predict_loop dec steps topi h' empty_run) as [r|e]; simpl;
        [|done].
      unfold mret, result_ret, append_run. simpl.
      by rewrite ?app_nil_r, <- ?app_assoc.
    + rewrite IH. symmetry. rewrite IH.
      destruct (predict_loop dec steps topi h' empty_run) as [r|e]; simpl;
        [|done].
      unfold mret, result_ret, append_run. simpl.
      by rewrite ?app_nil_r, <- ?app_assoc.
Qed.

(** The greedy loop raises nothing when the classifier has at least one
    output and the vocabulary names every position above the reserved
    ones. *)
Lemma predict_loop_total (dec : t) (steps : nat) :
  (∀ v, 0 < length (classifier dec v)) ->
  (∀ v ix, 2 < ix -> ix < length (classifier dec v) ->
           is_Some (index2token dec !! ix)) ->
  ∀ (predicted_token : nat) (hidden : Hidden) (run : GreedyRun),
  ∃ run', predict_loop dec steps predicted_token hidden run = Ok run'.
Proof.
  intros Hpos Hvocab.
  induction steps as [|steps IH]; intros tok h run; simpl; [by eexists|].
  destruct (gru dec (embedding dec tok) h) as [output h'].
  destruct (topk 1 (classifier dec output)) as [top|e] eqn:Htop.
  2: { unfold topk in Htop. specialize (Hpos output).
       case_decide; [done|lia]. }
  simpl. destruct (topk_1_inv _ _ Htop) as (topi & v & ->).
  destruct (topi =? 1); [by eexists|].
  destruct (2 <? topi) eqn:E2; [|apply IH].
  apply Nat.ltb_lt in E2.
  destruct (Hvocab output topi E2) as [token ->].
  { eapply lookup_lt_Some, topk_lookup; [exact Htop|left]. }
  simpl. apply IH.
Qed.

End GreedyFacts.

(** C2.  Whatever the word representation, the context vector, the optional
    transformer context and the maximum length, a sequence that greedy
    decoding returns holds only symbols of vocabulary ids above 2 (so none
    of PAD, END and START, the vocabulary giving one id to a symbol), it is
    the symbols of the ids above 2 that were predicted, in order, it is at
    most [max_len] long, and the loop ran until the first END and no
    further: END is the last predicted id and occurs once, or END was never
    predicted and the loop ran [max_len] times. *)
Theorem greedy_output_excludes_specials (dec : DecoderRNN.t)
    (word_embedding context_vector : Vec) (transformer_context : option Vec)
    (max_len : nat) (scores : list (list Q)) (predictions : list string) :
  DecoderRNN.predict dec word_embedding context_vector transformer_context
    max_len = Ok (scores, predictions) ->
  ∃ run : DecoderRNN.GreedyRun,
    DecoderRNN.predict_run dec word_embedding context_vector
      transformer_context max_len = Ok run
    ∧ DecoderRNN.run_predictions run = predictions
    ∧ length scores = max_len
    ∧ length predictions <= max_len
    ∧ Forall2
        (fun id token => DecoderRNN.index2token dec !! id = Some token)
        (filter (fun id => 2 < id) (DecoderRNN.run_tokens run)) predictions
    ∧ (∀ token, token ∈ predictions ->
         ∃ id, 2 < id ∧ DecoderRNN.index2token dec !! id = Some token)
    ∧ ((∀ i j token, DecoderRNN.index2token dec !! i = Some token ->
          DecoderRNN.index2token dec !! j = Some token -> i = j) ->
       ∀ token id, token ∈ predictions -> id <= 2 ->
         DecoderRNN.index2token dec !! id ≠ Some token)
    ∧ length (DecoderRNN.run_tokens run) <= max_len
    ∧ ((∃ before, DecoderRNN.run_tokens run = before ++ [1] ∧ 1 ∉ before)
       ∨ ((1 ∉ DecoderRNN.run_tokens run)
          ∧ length (DecoderRNN.run_tokens run) = max_len)).
Proof.
  unfold DecoderRNN.predict. intros (run & Hrun & [= <- <-])%bind_Ok.
  exists run. split; [done|]. split; [done|].
  unfold DecoderRNN.predict_run in Hrun.
  apply predict_loop_spec in Hrun
    as (tokens & preds & Ht & Hp & Hs & Hl & Hstop & Hf).
  simpl in Ht, Hp, Hs. rewrite Ht, Hp.
  assert (Hin : ∀ token, token ∈ preds ->
            ∃ id, 2 < id ∧ DecoderRNN.index2token dec !! id = Some token).
  { intros token Htok.
    apply list_elem_of_lookup_1 in Htok as [i Hi].
    destruct (Forall2_lookup_r _ _ _ _ _ Hf Hi) as (id & Hid & Hlook).
    apply list_elem_of_lookup_2, list_elem_of_filter in Hid as [Hgt _].
    by exists id. }
  split_and!; try done.
  - rewrite length_app, length_replicate. lia.
  - apply Forall2_length in Hf. rewrite <- Hf.
    pose proof (length_filter (fun id => 2 < id) tokens). lia.
  - intros Hinj token id Htok Hid Hlook.
    destruct (Hin token Htok) as (id' & Hgt & Hlook').
    specialize (Hinj _ _ _ Hlook Hlook'). lia.
Qed.

(** The hypothesis of C2 holds for the scripted decoder that spells [abc]:
    greedy decoding returns the three letters after four iterations. *)
Lemma greedy_output_excludes_specials_witness :
  ∃ run : DecoderRNN.GreedyRun,
    DecoderRNN.predict_run spell_abc [] [] None 5 = Ok run
    ∧ DecoderRNN.run_predictions run = ["a"; "b"; "c"]
    ∧ length [one_hot 3; one_hot 4; one_hot 5; one_hot 1; zeros 6] = 5
    ∧ length ["a"; "b"; "c"] <= 5
    ∧ Forall2
        (fun id token => DecoderRNN.index2token spell_abc !! id = Some token)
        (filter (fun id => 2 < id) (DecoderRNN.run_tokens run))
        ["a"; "b"; "c"]
    ∧ (∀ token, token ∈ ["a"; "b"; "c"] ->
         ∃ id, 2 < id ∧ DecoderRNN.index2token spell_abc !! id = Some token)
    ∧ ((∀ i j token, DecoderRNN.index2token spell_abc !! i = Some token ->
          DecoderRNN.index2token spell_abc !! j = Some token -> i = j) ->
       ∀ token id, token ∈ ["a"; "b"; "c"] -> id <= 2 ->
         DecoderRNN.index2token spell_abc !! id ≠ Some token)
    ∧ length (DecoderRNN.run_tokens run) <= 5
    ∧ ((∃ before, DecoderRNN.run_tokens run = before ++ [1] ∧ 1 ∉ before)
       ∨ ((1 ∉ DecoderRNN.run_tokens run)
          ∧ length (DecoderRNN.run_tokens run) = 5)).
Proof.
  apply (greedy_output_excludes_specials spell_abc [] [] None 5
           [one_hot 3; one_hot 4; one_hot 5; one_hot 1; zeros 6]
           ["a"; "b"; "c"]).
  vm_compute. reflexivity.
Defined.

(** ** Beam search *)

Section BeamFacts.
Import DecoderRNN.
Variable dec : t.
Variable surface_len beam_size : nat.

Lemma beam_child_last_output (state : State) (_hidden : Hidden) (ix : nat)
    (p : Q) (child : State) :
  beam_child dec surface_len state _hidden ix p = Ok child ->
  last_output child = ix.
Proof.
  unfold beam_child. destruct (ix =? 1).
  - by intros [= <-].
  - intros (token & _ & [= <-])%bind_Ok. done.
Qed.

Lemma beam_children_spec (state : State) (_hidden : Hidden)
    (tops : list (nat * Q)) :
  ∀ new_states completed_states new_states' completed_states',
  beam_children dec surface_len state _hidden tops new_states completed_states
    = Ok (new_states', completed_states') ->
  ∃ open closed,
    new_states' = new_states ++ open
    ∧ completed_states' = completed_states ++ closed
    ∧ Forall (fun child => last_output child ≠ 1 ∧ ∃ ix p, (ix, p) ∈ tops
                ∧ beam_child dec surface_len state _hidden ix p = Ok child)
        open
    ∧ Forall (fun child => last_output child = 1 ∧ ∃ ix p, (ix, p) ∈ tops
                ∧ beam_child dec surface_len state _hidden ix p = Ok child)
        closed.
Proof.
  induction tops as [|[ix p] tops IH]; intros new comp new' comp' H.
  - simplify_eq/=. exists [], []. by rewrite !app_nil_r.
  - simpl in H. apply bind_Ok in H as (child & Hchild & H).
    pose proof (beam_child_last_output _ _ _ _ _ Hchild) as Hlast.
    assert (Hweaken : ∀ (P : Prop) c,
              (P ∧ ∃ ix' p', (ix', p') ∈ tops
                 ∧ beam_child dec surface_len state _hidden ix' p' = Ok c) ->
              P ∧ ∃ ix' p', (ix', p') ∈ (ix, p) :: tops
                 ∧ beam_child dec surface_len state _hidden ix' p' = Ok c).
    { intros P c (? & ix' & p' & ? & ?). split; [done|].
      exists ix', p'. split; [by right|done]. }
    assert (Hhere : ∃ ix' p', (ix', p') ∈ (ix, p) :: tops
              ∧ beam_child dec surface_len state _hidden ix' p' = Ok child).
    { exists ix, p. split; [left|done]. }
    destruct (ix =? 1) eqn:E.
    + apply Nat.eqb_eq in E.
      apply IH in H as (open & closed & -> & -> & Ho & Hc).
      exists open, (child :: closed). rewrite <- app_assoc.
      split_and!; try done.
      * eapply Forall_impl; [exact Ho|]. intros c. apply Hweaken.
      * constructor; [split; [congruence|done]|].
        eapply Forall_impl; [exact Hc|]. intros c. apply Hweaken.
    + apply Nat.eqb_neq in E.
      apply IH in H as (open & closed & -> & -> & Ho & Hc).
      exists (child :: open), closed. rewrite <- app_assoc.
      split_and!; try done.
      * constructor; [split; [congruence|done]|].
        eapply Forall_impl; [exact Ho|]. intros c. apply Hweaken.
      * eapply Forall_impl; [exact Hc|]. intros c. apply Hweaken.
Qed.

Lemma beam_round_spec (states : list State) :
  ∀ new_states completed_states new_states' completed_states',
  beam_round dec surface_len beam_size states new_states completed_states
    = Ok (new_states', completed_states') ->
  ∃ open closed,
    new_states' = new_states ++ open
    ∧ completed_states' = completed_states ++ closed
    ∧ Forall (fun child => last_output child ≠ 1
                ∧ ∃ parent, parent ∈ states
                    ∧ expands dec surface_len beam_size parent child) open
    ∧ Forall (fun child => last_output child = 1
                ∧ ∃ parent, parent ∈ states
                    ∧ expands dec surface_len beam_size parent child) closed.
Proof.
  induction states as [|state states IH]; intros new comp new' comp' H.
  - simplify_eq/=. exists [], []. by rewrite !app_nil_r.
  - assert (Hweaken : ∀ (P : Prop) c,
              (P ∧ ∃ parent, parent ∈ states
                     ∧ expands dec surface_len beam_size parent c) ->
              P ∧ ∃ parent, parent ∈ state :: states
                    ∧ expands dec surface_len beam_size parent c).
    { intros P c (? & parent & ? & ?). split; [done|].
      exists parent. split; [by right|done]. }
    simpl in H. case_decide as Hlen.
    + apply IH in H as (open & closed & -> & -> & Ho & Hc).
      exists open, closed. split_and!; try done.
      * eapply Forall_impl; [exact Ho|]. intros c. apply Hweaken.
      * eapply Forall_impl; [exact Hc|]. intros c. apply Hweaken.
    + destruct (gru dec (embedding dec (last_output state)) (hidden state))
        as [gru_outputs _hidden] eqn:Hgru.
      apply bind_Ok in H as (tops & Htops & H).
      apply bind_Ok in H as ([new1 comp1] & Hch & H).
      apply beam_children_spec in Hch
        as (open1 & closed1 & -> & -> & Ho1 & Hc1).
      apply IH in H as (open & closed & -> & -> & Ho & Hc).
      exists (open1 ++ open), (closed1 ++ closed). rewrite <- !app_assoc.
      assert (Hex : ∀ child, (∃ ix p, (ix, p) ∈ tops
                  ∧ beam_child dec surface_len state _hidden ix p = Ok child)
                -> ∃ parent, parent ∈ state :: states ∧ expands dec surface_len beam_size parent child).
      { intros child (ix & p & Hin & Hchild). exists state. split; [left|].
        split; [lia|]. exists tops, ix, p.
        unfold next_scores, next_hidden. rewrite Hgru. done. }
      split_and!; try done; apply Forall_app; split.
      * eapply Forall_impl; [exact Ho1|]. intros c [? ?]. auto.
      * eapply Forall_impl; [exact Ho|]. intros c. apply Hweaken.
      * eapply Forall_impl; [exact Hc1|]. intros c [? ?]. auto.
      * eapply Forall_impl; [exact Hc|]. intros c. apply Hweaken.
Qed.

Lemma beam_round_skip (states new_states completed_states : list State) :
  Forall (fun state => surface_len + 2 <= String.length (prediction state))
    states ->
  beam_round dec surface_len beam_size states new_states completed_states
  = Ok (new_states, completed_states).
Proof.
  induction 1 as [|state states Hs _ IH]; simpl.
  - reflexivity.
  - case_decide; [exact IH|contradiction].
Qed.

Lemma beam_search_nil (fuel : nat) (completed_states : list State) :
  beam_search dec surface_len beam_size fuel [] completed_states
  = Some (Ok completed_states).
Proof. by destruct fuel. Qed.

Lemma beam_search_step (fuel : nat) (state : State)
    (states completed_states : list State) :
  beam_search dec surface_len beam_size (S fuel) (state :: states)
    completed_states
  = match beam_round dec surface_len beam_size (state :: states) []
            completed_states with
    | Err e => Some (Err e)
    | Ok (new_states, completed_states) =>
        beam_search dec surface_len beam_size fuel
          (take beam_size (sort_desc normalized_score new_states))
          completed_states
    end.
Proof. reflexivity. Qed.

(** *** Termination *)

Hypothesis tokens_nonempty :
  ∀ ix token, index2token dec !! ix = Some token -> token ≠ EmptyString.

Lemma expands_longer (parent child : State) :
  expands dec surface_len beam_size parent child ->
  last_output child ≠ 1 ->
  String.length (prediction parent) < String.length (prediction child).
Proof.
  intros (_ & tops & ix & p & _ & _ & Hchild) Hne.
  pose proof (beam_child_last_output _ _ _ _ _ Hchild) as Hlast.
  unfold beam_child in Hchild. destruct (ix =? 1) eqn:E.
  { apply Nat.eqb_eq in E. congruence. }
  apply bind_Ok in Hchild as (token & Htok%of_option_Ok & [= <-]). simpl.
  rewrite string_length_app.
  pose proof (string_length_pos token (tokens_nonempty _ _ Htok)). lia.
Qed.

(** When no symbol of the vocabulary is the empty string, round [r] only
    sees candidates of length [r] at least, so the search is over after
    [surface_len + 3] rounds. *)
Lemma beam_search_terminates_from (fuel : nat) :
  ∀ (r : nat) (states completed_states : list State),
  Forall (fun state => r <= String.length (prediction state)) states ->
  r <= surface_len + 2 ->
  surface_len + 3 <= fuel + r ->
  is_Some (beam_search dec surface_len beam_size fuel states completed_states).
Proof.
  induction fuel as [|fuel IH]; intros r states comp Hall Hr Hfuel.
  { lia. }
  destruct states as [|state states]; [done|].
  rewrite beam_search_step.
  destruct (beam_round dec surface_len beam_size (state :: states) [] comp)
    as [[new comp']|e] eqn:Hround; [|done].
  destruct (decide (r = surface_len + 2)) as [->|Hne].
  - rewrite beam_round_skip in Hround; [|exact Hall]. simplify_eq/=.
    rewrite take_nil. by destruct fuel.
  - apply beam_round_spec in Hround as (open & closed & -> & -> & Ho & _).
    apply (IH (S r)); [|lia|lia].
    apply Forall_take. rewrite sort_desc_perm.
    eapply Forall_impl; [exact Ho|]. intros child (Hlast & parent & Hin & Hex).
    apply expands_longer in Hex; [|done].
    rewrite Forall_forall in Hall. specialize (Hall _ Hin). simpl in *. lia.
Qed.

End BeamFacts.

(** With no empty symbol in the vocabulary, [predict_beam] is over, with a
    string or an exception, within [surface_len + 3] rounds. *)
Lemma predict_beam_terminates (dec : DecoderRNN.t)
    (surface_len beam_size fuel : nat) (word_embedding context_vector : Vec)
    (transformer_context : option Vec) :
  (∀ ix token, DecoderRNN.index2token dec !! ix = Some token ->
     token ≠ EmptyString) ->
  surface_len + 3 <= fuel ->
  is_Some (DecoderRNN.predict_beam dec surface_len beam_size fuel
             word_embedding context_vector transformer_context).
Proof.
  intros Htokens Hfuel. unfold DecoderRNN.predict_beam.
  destruct (beam_search_terminates_from dec surface_len beam_size Htokens
              fuel 0
              [DecoderRNN.mkState EmptyString 1 1 2
                 (DecoderRNN.init_hidden dec word_embedding context_vector
                    transformer_context)] []) as [r Hr].
  - apply Forall_singleton. simpl. lia.
  - lia.
  - lia.
  - rewrite Hr. by destruct r.
Qed.

(** C3.  In one expansion round of beam search every new candidate has a
    parent among the candidates of the round whose partial output is
    shorter than [surface_len + 2], and its cumulative score is the
    parent's cumulative score times the probability the softmax gives to
    its symbol.  A candidate that emits END keeps the parent's output and
    gets the normalized score
    [(score / ((5 + completed_length) / 6)) * (surface_len / completed_length)]
    with [completed_length] the length of that output plus one; any other
    candidate appends its symbol and gets [score / ((5 + length) / 6)] for
    the length of the new output.  When the search ends with at least one
    completed candidate, [predict_beam] returns the output of a completed
    candidate whose normalized score no other completed candidate
    exceeds; and the search does end, within [surface_len + 3] rounds, when
    no symbol of the vocabulary is the empty string. *)
Theorem beam_scores_and_selection (dec : DecoderRNN.t)
    (surface_len beam_size : nat)
    (states new_states completed_states : list DecoderRNN.State)
    (new_states' completed_states' : list DecoderRNN.State) :
  DecoderRNN.beam_round dec surface_len beam_size states new_states
    completed_states = Ok (new_states', completed_states') ->
  (∃ open closed : list DecoderRNN.State,
     new_states' = new_states ++ open
     ∧ completed_states' = completed_states ++ closed
     ∧ Forall (fun child => ∃ parent ix p token,
         parent ∈ states
         ∧ String.length (DecoderRNN.prediction parent) < surface_len + 2
         ∧ next_scores dec parent !! ix = Some p
         ∧ ix ≠ 1
         ∧ DecoderRNN.index2token dec !! ix = Some token
         ∧ DecoderRNN.score child = (DecoderRNN.score parent * p)%Q
         ∧ DecoderRNN.prediction child
           = DecoderRNN.prediction parent +:+ token
         ∧ DecoderRNN.normalized_score child
           = (DecoderRNN.score child
              / ((5 + Qnat (String.length (DecoderRNN.prediction child)))
                 / 6))%Q) open
     ∧ Forall (fun child => ∃ parent p,
         parent ∈ states
         ∧ String.length (DecoderRNN.prediction parent) < surface_len + 2
         ∧ next_scores dec parent !! 1 = Some p
         ∧ DecoderRNN.score child = (DecoderRNN.score parent * p)%Q
         ∧ DecoderRNN.prediction child = DecoderRNN.prediction parent
         ∧ DecoderRNN.normalized_score child
           = ((DecoderRNN.score child
               / ((5 + (Qnat (String.length (DecoderRNN.prediction parent))
                        + 1)) / 6))
              * (Qnat surface_len
                 / (Qnat (String.length (DecoderRNN.prediction parent))
                    + 1)))%Q) closed)
  ∧ (∀ (fuel : nat) (word_embedding context_vector : Vec)
      (transformer_context : option Vec)
      (completed : list DecoderRNN.State),
      DecoderRNN.beam_search dec surface_len beam_size fuel
        [DecoderRNN.mkState EmptyString 1 1 2
           (DecoderRNN.init_hidden dec word_embedding context_vector
              transformer_context)] []
      = Some (Ok completed) ->
      completed ≠ [] ->
      ∃ best, best ∈ completed
        ∧ (∀ other, other ∈ completed ->
             (DecoderRNN.normalized_score other
              <= DecoderRNN.normalized_score best)%Q)
        ∧ DecoderRNN.predict_beam dec surface_len beam_size fuel
            word_embedding context_vector transformer_context
          = Some (Ok (DecoderRNN.prediction best)))
  ∧ ((∀ ix token, DecoderRNN.index2token dec !! ix = Some token ->
        token ≠ EmptyString) ->
     ∀ (fuel : nat) (word_embedding context_vector : Vec)
       (transformer_context : option Vec),
       surface_len + 3 <= fuel ->
       is_Some (DecoderRNN.predict_beam dec surface_len beam_size fuel
                  word_embedding context_vector transformer_context)).
Proof.
  intros Hround. split_and!.
  - apply beam_round_spec in Hround as (open & closed & -> & -> & Ho & Hc).
    exists open, closed. split_and!; try done.
    + eapply Forall_impl; [exact Ho|].
      intros child (Hlast & parent & Hin & Hlen & tops & ix & p
                    & Htops & Hix & Hchild).
      pose proof (beam_child_last_output _ _ _ _ _ _ _ Hchild) as Hlast'.
      unfold DecoderRNN.beam_child in Hchild.
      destruct (ix =? 1) eqn:E.
      { apply Nat.eqb_eq in E. congruence. }
      apply Nat.eqb_neq in E.
      apply bind_Ok in Hchild as (token & Htok%of_option_Ok & [= <-]).
      exists parent, ix, p, token. split_and!; try done.
      eapply topk_lookup; [exact Htops|exact Hix].
    + eapply Forall_impl; [exact Hc|].
      intros child (Hlast & parent & Hin & Hlen & tops & ix & p
                    & Htops & Hix & Hchild).
      pose proof (beam_child_last_output _ _ _ _ _ _ _ Hchild) as Hlast'.
      assert (ix = 1) as -> by congruence.
      unfold DecoderRNN.beam_child in Hchild. simpl in Hchild.
      injection Hchild as <-.
      exists parent, p. split_and!; try done.
      eapply topk_lookup; [exact Htops|exact Hix].
  - intros fuel we cv tc completed Hsearch Hne.
    unfold DecoderRNN.predict_beam. rewrite Hsearch.
    unfold DecoderRNN.best_completed.
    destruct (head (sort_desc DecoderRNN.normalized_score completed))
      as [best|] eqn:Hhead.
    + apply sort_desc_head in Hhead as [Hin Hmax].
      exists best. split_and!; done.
    + destruct (sort_desc DecoderRNN.normalized_score completed) eqn:Hs;
        [|done].
      by apply sort_desc_nil_inv in Hs.
  - intros Htokens fuel we cv tc Hfuel. by apply predict_beam_terminates.
Qed.

(** C4.  When the search ends and no candidate has completed,
    [predict_beam] raises [IndexError]: it returns no string at all. *)
Theorem beam_without_completion_raises (dec : DecoderRNN.t)
    (surface_len beam_size fuel : nat) (word_embedding context_vector : Vec)
    (transformer_context : option Vec) :
  DecoderRNN.beam_search dec surface_len beam_size fuel
    [DecoderRNN.mkState EmptyString 1 1 2
       (DecoderRNN.init_hidden dec word_embedding context_vector
          transformer_context)] []
  = Some (Ok []) ->
  DecoderRNN.predict_beam dec surface_len beam_size fuel word_embedding
    context_vector transformer_context = Some (Err IndexError)
  ∧ ∀ s : string,
      DecoderRNN.predict_beam dec surface_len beam_size fuel word_embedding
        context_vector transformer_context ≠ Some (Ok s).
Proof.
  intros Hsearch. unfold DecoderRNN.predict_beam. rewrite Hsearch.
  split; [reflexivity|]. intros s. discriminate.
Qed.

(** The hypothesis of C4 holds for the decoder that spells [abc] on a
    surface of one character: the cap of three characters is reached
    before END. *)
Lemma beam_without_completion_raises_witness :
  DecoderRNN.beam_search spell_abc 1 1 10
    [DecoderRNN.mkState EmptyString 1 1 2
       (DecoderRNN.init_hidden spell_abc [] [] None)] []
  = Some (Ok [])
  ∧ (DecoderRNN.predict_beam spell_abc 1 1 10 [] [] None
     = Some (Err IndexError)
     ∧ ∀ s : string,
         DecoderRNN.predict_beam spell_abc 1 1 10 [] [] None ≠ Some (Ok s)).
Proof.
  split; [vm_compute; reflexivity|].
  apply (beam_without_completion_raises spell_abc 1 1 10 [] [] None).
  vm_compute. reflexivity.
Defined.

(** The hypotheses of C3 hold for the branching decoder with beam width 2:
    the first round opens the candidates [a] and [b], and the search
    returns [a], the completed candidate with the best normalized score. *)
Lemma beam_scores_and_selection_witness :
  ∃ (new_states' completed_states' : list DecoderRNN.State)
    (best : DecoderRNN.State),
    DecoderRNN.beam_round branching 1 2
      [DecoderRNN.mkState EmptyString 1 1 2
         (DecoderRNN.init_hidden branching [] [] None)] [] []
    = Ok (new_states', completed_states')
    ∧ DecoderRNN.prediction <$> new_states' = ["a"; "b"]
    ∧ DecoderRNN.predict_beam branching 1 2 10 [] [] None
      = Some (Ok (DecoderRNN.prediction best))
    ∧ DecoderRNN.prediction best = "a".
Proof.
  destruct (DecoderRNN.beam_round branching 1 2
              [DecoderRNN.mkState EmptyString 1 1 2
                 (DecoderRNN.init_hidden branching [] [] None)] [] [])
    as [[new_states' completed_states']|e] eqn:Hround;
    [|vm_compute in Hround; discriminate].
  destruct (beam_scores_and_selection _ _ _ _ _ _ _ _ Hround)
    as (_ & Hsel & _).
  edestruct (Hsel 10 [] [] None) as (best & Hin & Hmax & Hbeam);
    [vm_compute; reflexivity|discriminate|].
  exists new_states', completed_states', best.
  split; [reflexivity|].
  vm_compute in Hround. injection Hround as <- <-.
  split; [reflexivity|]. split; [exact Hbeam|].
  vm_compute in Hbeam. injection Hbeam as Hbeam. symmetry. exact Hbeam.
Defined.

(** ** Beam width one and greedy decoding *)

Section BeamGreedy.
Import DecoderRNN.
Variable dec : t.
Variable surface_len : nat.
Hypothesis softmax_argmax : ∀ (predicted_token : nat) (h : Hidden),
  argmax
    (softmax dec (classifier dec (gru dec (embedding dec predicted_token) h).1))
  = argmax (classifier dec (gru dec (embedding dec predicted_token) h).1).

Lemma beam_follows_greedy (steps : nat) :
  ∀ (state : State) (r : GreedyRun) (before : list nat)
    (completed_states : list State) (fuel : nat),
  predict_loop dec steps (last_output state) (hidden state) empty_run = Ok r ->
  run_tokens r = before ++ [1] ->
  Forall (fun id => 2 < id) before ->
  String.length (prediction state +:+ join EmptyString (run_predictions r))
    < surface_len + 2 ->
  length (run_tokens r) <= fuel ->
  ∃ child,
    beam_search dec surface_len 1 fuel [state] completed_states
    = Some (Ok (completed_states ++ [child]))
    ∧ prediction child
      = prediction state +:+ join EmptyString (run_predictions r).
Proof.
  induction steps as [|steps IH];
    intros state r before comp fuel Hrun Htokens Hbefore Hlen Hfuel.
  { simplify_eq/=. by destruct before. }
  simpl in Hrun.
  destruct (gru dec (embedding dec (last_output state)) (hidden state))
    as [output h'] eqn:Hgru.
  apply bind_Ok in Hrun as (top & Htop & Hrun).
  destruct (topk_1_inv _ _ Htop) as (topi & v & ->).
  assert (Hbest : ∃ p, topk 1 (softmax dec (classifier dec output))
                       = Ok [(topi, p)]).
  { apply argmax_topk.
    specialize (softmax_argmax (last_output state) (hidden state)).
    rewrite Hgru in softmax_argmax. simpl in softmax_argmax.
    rewrite softmax_argmax. apply argmax_topk. by exists v. }
  destruct Hbest as [p Hbest].
  assert (Hshort : String.length (prediction state) < surface_len + 2).
  { rewrite string_length_app in Hlen. lia. }
  destruct fuel as [|fuel].
  { rewrite Htokens, length_app in Hfuel. simpl in Hfuel. lia. }
  rewrite beam_search_step. simpl beam_round.
  rewrite decide_False by lia. rewrite Hgru, Hbest. simpl.
  destruct (topi =? 1) eqn:E1.
  - apply Nat.eqb_eq in E1 as ->. simpl in Hrun. simplify_eq/=.
    unfold beam_child. simpl. rewrite beam_search_nil.
    eexists. split; [reflexivity|]. simpl.
    change (join EmptyString []) with EmptyString.
    by rewrite string_app_nil_r.
  - unfold beam_child. rewrite E1. apply Nat.eqb_neq in E1. simpl in Hrun.
    destruct (2 <? topi) eqn:E2.
    + apply bind_Ok in Hrun as (token & Htok & Hrun).
      rewrite predict_loop_shift in Hrun.
      apply bind_Ok in Hrun as (r2 & Hr2 & [= <-]).
      apply of_option_Ok in Htok. rewrite Htok. simpl.
      unfold append_run in Htokens, Hlen, Hfuel.
      cbn [run_tokens run_predictions app length] in Htokens, Hlen, Hfuel.
      destruct before as [|b before].
      { cbn [app] in Htokens. by simplify_eq. }
      cbn [app] in Htokens. injection Htokens as Hb Htokens. subst b.
      apply Forall_cons in Hbefore as [_ Hbefore].
      rewrite join_empty_cons, <- string_app_assoc in Hlen.
      edestruct (IH (mkState (prediction state +:+ token)
                       (score state * p)%Q
                       (score state * p
                        / ((5 + Qnat (String.length
                                        (prediction state +:+ token)))
                           / 6))%Q topi h') r2 before comp fuel)
        as (child & Hsearch & Hpred); simpl; try done; try lia.
      exists child. split; [exact Hsearch|].
      rewrite Hpred. simpl. unfold append_run. cbn [run_predictions app].
      by rewrite join_empty_cons, string_app_assoc.
    + apply Nat.ltb_ge in E2. rewrite predict_loop_shift in Hrun.
      apply bind_Ok in Hrun as (r2 & Hr2 & [= <-]). simpl in Htokens.
      destruct before as [|b before]; simplify_eq/=.
      apply Forall_cons in Hbefore as [? _]. lia.
Qed.

End BeamGreedy.

(** C1, as stated, fails.  The decoder that spells [abc] and then END gives
    [abc] under greedy decoding, while beam search of width one on a
    surface of one character stops expanding at three characters and never
    completes: it returns no string, whatever the number of rounds
    allowed. *)
Lemma beam_width_one_differs_from_greedy :
  DecoderRNN.predict spell_abc [] [] None 4
  = Ok ([one_hot 3; one_hot 4; one_hot 5; one_hot 1], ["a"; "b"; "c"])
  ∧ join EmptyString ["a"; "b"; "c"] = "abc"
  ∧ DecoderRNN.predict_beam spell_abc 1 1 5 [] [] None
    = Some (Err IndexError)
  ∧ ∀ fuel : nat,
      DecoderRNN.predict_beam spell_abc 1 1 fuel [] [] None
      ≠ Some (Ok "abc").
Proof.
  split; [vm_compute; reflexivity|].
  split; [vm_compute; reflexivity|].
  split; [vm_compute; reflexivity|].
  intros fuel.
  do 5 (destruct fuel as [|fuel]; [vm_compute; discriminate|]).
  vm_compute. discriminate.
Qed.

(** C1, amended.  Let the softmax keep the position of the largest score.
    When greedy decoding ends by predicting END, has predicted only ids
    above 2 before it, and its joined output is shorter than
    [surface_len + 2], beam search of width one ends within as many rounds
    as greedy decoding took steps and returns the joined greedy output. *)
Theorem beam_width_one_equals_greedy (dec : DecoderRNN.t)
    (surface_len max_len fuel : nat) (word_embedding context_vector : Vec)
    (transformer_context : option Vec) (run : DecoderRNN.GreedyRun)
    (before : list nat) :
  (∀ (predicted_token : nat) (h : Hidden),
     argmax
       (DecoderRNN.softmax dec
          (DecoderRNN.classifier dec
             (DecoderRNN.gru dec (DecoderRNN.embedding dec predicted_token)
                h).1))
     = argmax
         (DecoderRNN.classifier dec
            (DecoderRNN.gru dec (DecoderRNN.embedding dec predicted_token)
               h).1)) ->
  DecoderRNN.predict_run dec word_embedding context_vector
    transformer_context max_len = Ok run ->
  DecoderRNN.run_tokens run = before ++ [1] ->
  Forall (fun id => 2 < id) before ->
  String.length (join EmptyString (DecoderRNN.run_predictions run))
    < surface_len + 2 ->
  length (DecoderRNN.run_tokens run) <= fuel ->
  (∃ scores,
     DecoderRNN.predict dec word_embedding context_vector
       transformer_context max_len
     = Ok (scores, DecoderRNN.run_predictions run))
  ∧ DecoderRNN.predict_beam dec surface_len 1 fuel word_embedding
      context_vector transformer_context
    = Some (Ok (join EmptyString (DecoderRNN.run_predictions run))).
Proof.
  intros Hsoftmax Hrun Htokens Hbefore Hlen Hfuel. split.
  { unfold DecoderRNN.predict. rewrite Hrun. by eexists. }
  unfold DecoderRNN.predict_run in Hrun. unfold DecoderRNN.predict_beam.
  edestruct (beam_follows_greedy dec surface_len Hsoftmax max_len
               (DecoderRNN.mkState EmptyString 1 1 2
                  (DecoderRNN.init_hidden dec word_embedding context_vector
                     transformer_context)) run before [] fuel)
    as (child & Hsearch & Hpred); try done.
  rewrite Hsearch. unfold DecoderRNN.best_completed. simpl.
  by rewrite Hpred.
Qed.

(** The hypotheses of the amended C1 hold for the decoder that spells
    [abc] and a surface of two characters. *)
Lemma beam_width_one_equals_greedy_witness :
  (∃ scores,
     DecoderRNN.predict spell_abc [] [] None 4 = Ok (scores, ["a"; "b"; "c"]))
  ∧ DecoderRNN.predict_beam spell_abc 2 1 4 [] [] None = Some (Ok "abc").
Proof.
  apply (beam_width_one_equals_greedy spell_abc 2 4 4 [] [] None
           (DecoderRNN.mkGreedyRun
              [one_hot 3; one_hot 4; one_hot 5; one_hot 1] [3; 4; 5; 1]
              ["a"; "b"; "c"]) [3; 4; 5]).
  - intros predicted_token h. unfold spell_abc, scripted. simpl.
    destruct (length h - 2) as [|[|[|[|n]]]]; vm_compute; reflexivity.
  - vm_compute. reflexivity.
  - reflexivity.
  - repeat constructor.
  - vm_compute. lia.
  - simpl. lia.
Defined.

(** ** Segment sums *)

Lemma Qplus_0_l_eq (x : Q) : (0 + x)%Q = x.
Proof.
  destruct x as [n d]. unfold Qplus. simpl. by rewrite Z.mul_1_r.
Qed.

Lemma vadd_zeros_l (d : nat) (v : Vec) : length v = d -> vadd (zeros d) v = v.
Proof.
  intros <-. unfold vadd, zeros.
  induction v as [|x v IH]; simpl; [done|]. by rewrite Qplus_0_l_eq, IH.
Qed.

Lemma index_add_loop_length (pairs : list (nat * Vec)) :
  ∀ res out, index_add_loop res pairs = Ok out -> length out = length res.
Proof.
  induction pairs as [|[i v] pairs IH]; intros res out H; simpl in H.
  - by injection H as <-.
  - destruct (res !! i) as [row|]; [|done].
    apply IH in H. by rewrite length_insert in H.
Qed.

Lemma index_add_loop_ok (pairs : list (nat * Vec)) :
  ∀ res, Forall (fun p => p.1 < length res) pairs ->
  index_add_loop res pairs
  = Ok (imap (fun j row =>
                foldl vadd row (snd <$> filter (fun p => p.1 = j) pairs))
          res).
Proof.
  induction pairs as [|[i v] pairs IH]; intros res Hall; simpl.
  - f_equal. apply list_eq. intros j. rewrite list_lookup_imap.
    by destruct (res !! j).
  - apply Forall_cons in Hall as [Hi Hall]. simpl in Hi.
    destruct (lookup_lt_is_Some_2 res i Hi) as [row Hrow]. rewrite Hrow.
    rewrite IH by (by rewrite length_insert).
    f_equal. apply list_eq. intros j. rewrite !list_lookup_imap.
    destruct (decide (i = j)) as [->|Hne].
    + rewrite list_lookup_insert_eq by done. rewrite Hrow. simpl.
      by rewrite filter_cons_True.
    + rewrite list_lookup_insert_ne by done.
      rewrite filter_cons_False by done. done.
Qed.

Lemma index_add_loop_err (pairs : list (nat * Vec)) :
  ∀ res, Exists (fun p => length res <= p.1) pairs ->
  index_add_loop res pairs = Err IndexError.
Proof.
  induction pairs as [|[i v] pairs IH]; intros res Hex; simpl.
  - by apply Exists_nil in Hex.
  - destruct (res !! i) as [row|] eqn:Hrow; [|done].
    apply Exists_cons in Hex as [Hi|Hex].
    + apply lookup_lt_Some in Hrow. simpl in Hi. lia.
    + apply IH. by rewrite length_insert.
Qed.

(** *** [unique] *)

Lemma elem_of_insert_unique (x y : nat) (l : list nat) :
  y ∈ insert_unique x l <-> y = x ∨ y ∈ l.
Proof.
  induction l as [|z l IH]; simpl.
  - rewrite list_elem_of_singleton, elem_of_nil. tauto.
  - destruct (x <? z) eqn:E1; [by rewrite elem_of_cons|].
    destruct (x =? z) eqn:E2.
    + apply Nat.eqb_eq in E2 as ->. rewrite elem_of_cons. tauto.
    + rewrite !elem_of_cons, IH. tauto.
Qed.

Lemma elem_of_unique (x : nat) (l : list nat) : x ∈ unique l <-> x ∈ l.
Proof.
  induction l as [|y l IH]; simpl; [done|].
  by rewrite elem_of_insert_unique, IH, elem_of_cons.
Qed.

Lemma insert_unique_sorted (x : nat) (l : list nat) :
  StronglySorted lt l -> StronglySorted lt (insert_unique x l).
Proof.
  induction 1 as [|z l Hl IH Hz]; simpl.
  - repeat constructor.
  - destruct (x <? z) eqn:E1.
    + apply Nat.ltb_lt in E1. constructor; [by constructor|].
      constructor; [done|]. eapply Forall_impl; [exact Hz|].
      intros w Hw. simpl in Hw. lia.
    + apply Nat.ltb_ge in E1. destruct (x =? z) eqn:E2; [by constructor|].
      apply Nat.eqb_neq in E2. constructor; [done|].
      apply Forall_forall. intros w Hw.
      apply elem_of_insert_unique in Hw as [->|Hw]; [lia|].
      rewrite Forall_forall in Hz. by apply Hz.
Qed.

Lemma unique_sorted (l : list nat) : StronglySorted lt (unique l).
Proof.
  induction l as [|x l IH]; simpl; [constructor|].
  by apply insert_unique_sorted.
Qed.

Lemma sorted_lt_NoDup (l : list nat) : StronglySorted lt l -> NoDup l.
Proof.
  induction 1 as [|x l Hl IH Hx]; constructor; [|done].
  intros Hin. rewrite Forall_forall in Hx. specialize (Hx _ Hin). lia.
Qed.

Lemma unique_NoDup (l : list nat) : NoDup (unique l).
Proof. apply sorted_lt_NoDup, unique_sorted. Qed.

(** Labels below the number of distinct labels take every value below
    it. *)
Lemma labels_below_count (l : list nat) :
  Forall (fun x => x < length (unique l)) l ->
  ∀ x, x ∈ l <-> x < length (unique l).
Proof.
  intros Hall x. split.
  - intros Hx. rewrite Forall_forall in Hall. by apply Hall.
  - intros Hx.
    assert (Hsub : unique l ⊆+ seq 0 (length (unique l))).
    { apply NoDup_submseteq; [apply unique_NoDup|].
      intros y Hy. apply (proj1 (elem_of_unique y l)) in Hy.
      apply elem_of_seq.
      rewrite Forall_forall in Hall. specialize (Hall _ Hy). lia. }
    apply submseteq_length_Permutation in Hsub;
      [|by rewrite length_seq].
    apply elem_of_unique. rewrite Hsub. apply elem_of_seq. lia.
Qed.

Lemma contiguous_below_count (l : list nat) :
  (∀ x y, x ∈ l -> y < x -> y ∈ l) ->
  Forall (fun x => x < length (unique l)) l.
Proof.
  intros Hdown. apply Forall_forall. intros x Hx.
  assert (Hsub : seq 0 (S x) ⊆+ unique l).
  { apply NoDup_submseteq; [apply NoDup_seq|].
    intros y Hy%elem_of_seq. apply elem_of_unique.
    destruct (decide (y = x)) as [->|Hne]; [done|].
    apply (Hdown x); [done|lia]. }
  apply submseteq_length in Hsub. rewrite length_seq in Hsub. lia.
Qed.

#[local] Instance lt_antisym : AntiSymm (=) lt.
Proof. intros x y ? ?. lia. Qed.

Lemma unique_seq (l : list nat) :
  Forall (fun x => x < length (unique l)) l ->
  unique l = seq 0 (length (unique l)).
Proof.
  intros Hall. apply (StronglySorted_unique lt).
  - apply unique_sorted.
  - clear. generalize 0. induction (length (unique l)) as [|n IH]; intros a.
    + constructor.
    + simpl. constructor; [apply IH|].
      apply Forall_forall. intros y Hy%elem_of_seq. lia.
  - apply NoDup_Permutation; [apply unique_NoDup|apply NoDup_seq|].
    intros x. rewrite elem_of_unique, elem_of_seq.
    rewrite (labels_below_count l Hall). lia.
Qed.

Lemma segment_sum_ok (data : Tensor) (segment_ids : list nat) :
  length (rows data) = length segment_ids ->
  Forall (fun x => x < length (unique segment_ids)) segment_ids ->
  segment_sum data segment_ids
  = Ok (mkTensor (last_dim data)
          ((fun j => foldl vadd (zeros (last_dim data))
                       (segment j segment_ids (rows data)))
             <$> seq 0 (length (unique segment_ids)))).
Proof.
  intros Hlen Hall. unfold segment_sum, index_add.
  rewrite decide_True by done.
  rewrite index_add_loop_ok.
  2: { rewrite length_replicate. apply Forall_forall. intros [i v] Hin.
       apply elem_of_zip_l in Hin. rewrite Forall_forall in Hall.
       by apply Hall. }
  simpl. do 2 f_equal. apply list_eq. intros j.
  rewrite list_lookup_imap, list_lookup_fmap.
  destruct (decide (j < length (unique segment_ids))) as [Hj|Hj].
  - rewrite lookup_replicate_2 by done. rewrite lookup_seq_lt by done. done.
  - rewrite (proj1 (lookup_replicate_None _ _ _)) by lia.
    rewrite lookup_seq_ge by lia. done.
Qed.

Lemma segment_sum_err (data : Tensor) (segment_ids : list nat) :
  length (rows data) = length segment_ids ->
  Exists (fun x => length (unique segment_ids) <= x) segment_ids ->
  segment_sum data segment_ids = Err IndexError.
Proof.
  intros Hlen Hex. unfold segment_sum, index_add.
  rewrite decide_True by done.
  rewrite index_add_loop_err; [done|].
  rewrite length_replicate. apply Exists_exists in Hex as (x & Hx & Hk).
  apply list_elem_of_lookup_1 in Hx as [i Hi].
  destruct (lookup_lt_is_Some_2 (rows data) i) as [v Hv].
  { rewrite Hlen. by eapply lookup_lt_Some. }
  apply Exists_exists. exists (x, v). split; [|done].
  apply list_elem_of_lookup_2 with i. rewrite lookup_zip_with, Hi. simpl.
  by rewrite Hv.
Qed.

(** C5.  Four embedding vectors [a], [b], [c], [e] of the dimension of the
    tensor, labelled [0, 0, 1, 1], are pooled into exactly two rows: [a + b]
    and then [c + e].  In general, for labels whose values are contiguous
    from 0 (every value below a label is a label too, as in an ascending
    sequence of word indices without gaps), the output has one row per
    distinct label, in ascending order of the labels, and the row of a
    label is the sum of the rows of the input that carry it. *)
Theorem segment_sum_pools_by_word :
  (∀ (d : nat) (a b c e : Vec),
     length a = d -> length b = d -> length c = d -> length e = d ->
     segment_sum (mkTensor d [a; b; c; e]) [0; 0; 1; 1]
     = Ok (mkTensor d [vadd a b; vadd c e]))
  ∧ ∀ (data : Tensor) (segment_ids : list nat),
      length (rows data) = length segment_ids ->
      (∀ x y, x ∈ segment_ids -> y < x -> y ∈ segment_ids) ->
      ∃ out : Tensor,
        segment_sum data segment_ids = Ok out
        ∧ last_dim out = last_dim data
        ∧ (∀ x, x ∈ unique segment_ids <-> x ∈ segment_ids)
        ∧ StronglySorted lt (unique segment_ids)
        ∧ length (rows out) = length (unique segment_ids)
        ∧ ∀ i word, unique segment_ids !! i = Some word ->
            rows out !! i
            = Some (foldl vadd (zeros (last_dim data))
                      (segment word segment_ids (rows data))).
Proof.
  split.
  - intros d a b c e Ha Hb Hc He.
    rewrite segment_sum_ok by (repeat constructor). simpl.
    unfold segment. simpl. by rewrite !vadd_zeros_l.
  - intros data ids Hlen Hdown.
    pose proof (contiguous_below_count ids Hdown) as Hall.
    eexists. split; [by apply segment_sum_ok|]. simpl.
    split_and!; try done.
    + intros x. apply elem_of_unique.
    + apply unique_sorted.
    + by rewrite length_fmap, length_seq.
    + intros i word Hi. rewrite (unique_seq ids Hall) in Hi.
      apply lookup_seq in Hi as [-> Hi]. rewrite list_lookup_fmap.
      rewrite lookup_seq_lt by done. done.
Qed.

(** C10.  [segment_sum] allocates one row per distinct label and adds every
    input row into the row numbered by its label.  So, on an input with as
    many labels as rows, it returns exactly when the labels take every
    value below the number of distinct labels and no other; a label at or
    above that number makes the index-add raise [IndexError]. *)
Theorem segment_sum_safe_iff_contiguous (data : Tensor)
    (segment_ids : list nat) :
  length (rows data) = length segment_ids ->
  (NoDup (unique segment_ids)
   ∧ ∀ x, x ∈ unique segment_ids <-> x ∈ segment_ids)
  ∧ (∀ out, segment_sum data segment_ids = Ok out ->
       length (rows out) = length (unique segment_ids))
  ∧ ((∃ out, segment_sum data segment_ids = Ok out)
     <-> ∀ x, x ∈ segment_ids <-> x < length (unique segment_ids))
  ∧ ((∃ x, x ∈ segment_ids ∧ length (unique segment_ids) <= x) ->
     segment_sum data segment_ids = Err IndexError).
Proof.
  intros Hlen.
  assert (Herr : (∃ x, x ∈ segment_ids ∧ length (unique segment_ids) <= x) ->
            segment_sum data segment_ids = Err IndexError).
  { intros (x & Hx & Hk). apply segment_sum_err; [done|].
    apply Exists_exists. by exists x. }
  split_and!.
  - apply unique_NoDup.
  - intros x. apply elem_of_unique.
  - intros out Hout.
    destruct (decide (Forall (fun x => x < length (unique segment_ids))
                        segment_ids)) as [Hall|Hnot].
    + rewrite segment_sum_ok in Hout by done. injection Hout as <-. simpl.
      by rewrite length_fmap, length_seq.
    + apply not_Forall_Exists in Hnot; [|apply _].
      rewrite segment_sum_err in Hout; [done|done|].
      eapply Exists_impl; [exact Hnot|]. intros x Hx. simpl in Hx. lia.
  - split.
    + intros [out Hout].
      apply labels_below_count. apply Forall_forall. intros x Hx.
      destruct (decide (x < length (unique segment_ids))) as [|Hge]; [done|].
      rewrite Herr in Hout; [done|]. exists x. split; [done|lia].
    + intros Hset. eexists. apply segment_sum_ok; [done|].
      apply Forall_forall. intros x Hx. by apply Hset.
  - exact Herr.
Qed.

(** The hypothesis of C10 holds for three rows labelled [0, 0, 2]: two
    distinct labels, so the label 2 is out of range. *)
Lemma segment_sum_safe_iff_contiguous_witness :
  length (rows (mkTensor 2 [[1; 2]; [3; 4]; [5; 6]]%Q)) = length [0; 0; 2]
  ∧ length (unique [0; 0; 2]) = 2
  ∧ segment_sum (mkTensor 2 [[1; 2]; [3; 4]; [5; 6]]%Q) [0; 0; 2]
    = Err IndexError.
Proof.
  split; [reflexivity|]. split; [reflexivity|].
  apply (segment_sum_safe_iff_contiguous
           (mkTensor 2 [[1; 2]; [3; 4]; [5; 6]]%Q) [0; 0; 2]); [reflexivity|].
  exists 2. split; [|simpl; lia]. do 2 right. left.
Defined.

(** The hypotheses of the first part of C5 hold for four rows of
    dimension two. *)
Lemma segment_sum_pools_by_word_witness :
  segment_sum (mkTensor 2 [[1; 2]; [3; 4]; [5; 6]; [7; 8]]%Q) [0; 0; 1; 1]
  = Ok (mkTensor 2 [vadd [1; 2] [3; 4]; vadd [5; 6] [7; 8]]%Q).
Proof.
  apply (proj1 segment_sum_pools_by_word 2); reflexivity.
Defined.

(** ** Feed-forward tag decoding *)

Lemma collect_spec (dec : DecoderFF.t) (preds : list bool) :
  ∀ (ix : nat) (predictions out : list string),
  DecoderFF.collect dec ix preds predictions = Ok out ->
  ∃ new, out = predictions ++ new
    ∧ ∀ token, token ∈ new <->
        ∃ j, preds !! j = Some true ∧ 2 < ix + j
             ∧ DecoderFF.index2token dec !! (ix + j) = Some token.
Proof.
  induction preds as [|pred preds IH]; intros ix acc out H; simpl in H.
  - injection H as <-. exists []. rewrite app_nil_r. split; [done|].
    intros token. rewrite elem_of_nil. split; [done|].
    by intros (j & Hj & _).
  - assert (Hshift : ∀ (token : string) (new : list string),
      (token ∈ new <-> ∃ j, preds !! j = Some true ∧ 2 < S ix + j
          ∧ DecoderFF.index2token dec !! (S ix + j) = Some token) ->
      ∀ P : Prop,
      (P <-> pred = true ∧ 2 < ix
             ∧ DecoderFF.index2token dec !! ix = Some token) ->
      (P ∨ token ∈ new <->
       ∃ j, (pred :: preds) !! j = Some true ∧ 2 < ix + j
            ∧ DecoderFF.index2token dec !! (ix + j) = Some token)).
    { intros token new Hnew P HP. rewrite Hnew, HP. split.
      - intros [(-> & Hgt & Hlook)|(j & Hj & Hgt & Hlook)].
        + exists 0. by rewrite Nat.add_0_r.
        + exists (S j). by rewrite Nat.add_succ_r.
      - intros ([|j] & Hj & Hgt & Hlook).
        + left. rewrite Nat.add_0_r in Hgt, Hlook. by simplify_eq/=.
        + right. exists j. rewrite Nat.add_succ_r in Hgt, Hlook. done. }
    destruct ((2 <? ix) && pred) eqn:E.
    + apply andb_true_iff in E as [Hgt%Nat.ltb_lt ->].
      apply bind_Ok in H as (tok & Htok%of_option_Ok & H).
      apply IH in H as (new & -> & Hnew).
      exists (tok :: new). rewrite <- app_assoc. split; [done|].
      intros token. rewrite elem_of_cons. apply Hshift; [apply Hnew|].
      split; [intros ->; done|]. intros (_ & _ & Hlook). congruence.
    + apply IH in H as (new & -> & Hnew).
      exists new. split; [done|]. intros token.
      rewrite <- (Hshift token new (Hnew token) False); [tauto|].
      split; [done|]. intros (-> & Hgt%Nat.ltb_lt & _).
      rewrite Hgt in E. done.
Qed.

(** C8.  A run of [DecoderFF.predict] that returns tags is a function of
    its inputs: a second run on the same word embedding, context vector and
    optional transformer context returns the same tags.  A tag is returned
    exactly when it is the symbol of a vocabulary id above 2 whose sigmoid
    score exceeds one half; so, the vocabulary giving one id to a symbol,
    the symbols of ids 0, 1 and 2 are never returned.  The set of returned
    tags does not depend on the order of the vocabulary: two runs that pair
    the same symbols with the same scores above id 2, at whatever
    positions, return the same set. *)
Theorem feed_forward_tags_threshold (dec : DecoderFF.t)
    (word_embedding context_vector : Vec) (transformer_context : option Vec)
    (predictions : list string) :
  DecoderFF.predict dec word_embedding context_vector transformer_context
  = Ok predictions ->
  (∀ predictions',
     DecoderFF.predict dec word_embedding context_vector transformer_context
     = Ok predictions' -> predictions' = predictions)
  ∧ (∀ token, token ∈ predictions <->
       ∃ ix s, 2 < ix
         ∧ DecoderFF.scores dec word_embedding context_vector
             transformer_context !! ix = Some s
         ∧ (1 # 2 < s)%Q
         ∧ DecoderFF.index2token dec !! ix = Some token)
  ∧ ((∀ i j token, DecoderFF.index2token dec !! i = Some token ->
        DecoderFF.index2token dec !! j = Some token -> i = j) ->
     ∀ token id, token ∈ predictions -> id <= 2 ->
       DecoderFF.index2token dec !! id ≠ Some token)
  ∧ ∀ (dec' : DecoderFF.t) (word_embedding' context_vector' : Vec)
      (transformer_context' : option Vec) (predictions' : list string),
      DecoderFF.predict dec' word_embedding' context_vector'
        transformer_context' = Ok predictions' ->
      (∀ token s,
         (∃ ix, 2 < ix
            ∧ DecoderFF.scores dec' word_embedding' context_vector'
                transformer_context' !! ix = Some s
            ∧ DecoderFF.index2token dec' !! ix = Some token)
         <-> (∃ ix, 2 < ix
                ∧ DecoderFF.scores dec word_embedding context_vector
                    transformer_context !! ix = Some s
                ∧ DecoderFF.index2token dec !! ix = Some token)) ->
      ∀ token, token ∈ predictions' <-> token ∈ predictions.
Proof.
  assert (Hmem : ∀ d we cv tc preds,
    DecoderFF.predict d we cv tc = Ok preds ->
    ∀ token, token ∈ preds <->
      ∃ ix s, 2 < ix ∧ DecoderFF.scores d we cv tc !! ix = Some s
        ∧ (1 # 2 < s)%Q ∧ DecoderFF.index2token d !! ix = Some token).
  { intros d we cv tc preds H token. unfold DecoderFF.predict in H.
    apply collect_spec in H as (new & -> & Hnew). simpl.
    rewrite Hnew. split.
    - intros (j & Hj & Hgt & Hlook). simpl in Hgt, Hlook.
      rewrite list_lookup_fmap in Hj.
      destruct (DecoderFF.scores d we cv tc !! j) as [s|] eqn:Hs;
        simplify_eq/=.
      exists j, s. split_and!; try done. by apply Qltb_lt.
    - intros (ix & s & Hgt & Hs & Hlt & Hlook). exists ix.
      rewrite list_lookup_fmap, Hs. simpl.
      split_and!; try done. f_equal. by apply Qltb_lt. }
  intros H. split_and!.
  - intros predictions' H'. congruence.
  - by apply Hmem.
  - intros Hinj token id Htok Hid Hlook.
    apply (Hmem _ _ _ _ _ H) in Htok as (ix & s & Hgt & _ & _ & Hlook').
    specialize (Hinj _ _ _ Hlook Hlook'). lia.
  - intros dec' we' cv' tc' predictions' H' Hsame token.
    rewrite (Hmem _ _ _ _ _ H), (Hmem _ _ _ _ _ H'). split.
    + intros (ix & s & Hgt & Hs & Hlt & Hlook).
      destruct (proj1 (Hsame token s)) as (ix' & ? & ? & ?); [by exists ix|].
      by exists ix', s.
    + intros (ix & s & Hgt & Hs & Hlt & Hlook).
      destruct (proj2 (Hsame token s)) as (ix' & ? & ? & ?); [by exists ix|].
      by exists ix', s.
Qed.

(** The hypothesis of C8 holds for the tagger with fixed logits: [N] and
    [SG] pass the threshold, [PL] does not, and the reserved entries are
    left out although their scores are high. *)
Lemma feed_forward_tags_threshold_witness :
  DecoderFF.predict tagger [] [] None = Ok ["N"; "SG"]
  ∧ (∀ token, token ∈ ["N"; "SG"] <->
       ∃ ix s, 2 < ix
         ∧ DecoderFF.scores tagger [] [] None !! ix = Some s
         ∧ (1 # 2 < s)%Q
         ∧ DecoderFF.index2token tagger !! ix = Some token).
Proof.
  split; [vm_compute; reflexivity|].
  apply (feed_forward_tags_threshold tagger [] [] None ["N"; "SG"]).
  vm_compute. reflexivity.
Defined.

(** ** Sentence prediction *)

Lemma traced_bind_Ok {A B : Type} (m : traced A) (f : A -> traced B)
    (calls : list call) (b : B) :
  (m ≫= f) = (calls, Ok b) <->
  ∃ l1 a l2, m = (l1, Ok a) ∧ f a = (l2, Ok b) ∧ calls = l1 ++ l2.
Proof.
  destruct m as [l1 [a|e]]; unfold mbind, traced_bind; split.
  - destruct (f a) as [l2 r] eqn:Hf. intros [= <- ->].
    by exists l1, a, l2.
  - intros (l1' & a' & l2 & [= <- <-] & Hf & ->). by rewrite Hf.
  - done.
  - by intros (l1' & a' & l2 & ? & _).
Qed.

Lemma lift_Ok {A : Type} (r : result A) (calls : list call) (a : A) :
  lift r = (calls, Ok a) <-> r = Ok a ∧ calls = [].
Proof. unfold lift. split; [by intros [= <- ->]|by intros [-> ->]]. Qed.

Lemma invoke_Ok {A : Type} (c : call) (r : result A) (calls : list call)
    (a : A) :
  invoke c r = (calls, Ok a) <-> r = Ok a ∧ calls = [c].
Proof. unfold invoke. split; [by intros [= <- ->]|by intros [-> ->]]. Qed.

Lemma traced_mapM_Ok {A B : Type} (f : A -> traced B) (l : list A) :
  ∀ (calls : list call) (ys : list B),
  mapM f l = (calls, Ok ys) ->
  Forall2 (fun x y => ∃ c, f x = (c, Ok y)) l ys.
Proof.
  induction l as [|x l IH]; intros calls ys H.
  - injection H as <- <-. constructor.
  - change (mapM f (x :: l)) with (y ← f x; k ← mapM f l; mret (y :: k)) in H.
    apply traced_bind_Ok in H as (l1 & y & l2 & Hy & H & ->).
    apply traced_bind_Ok in H as (l3 & k & l4 & Hk & H & ->).
    injection H as <- <-. constructor; [by exists l1|by eapply IH].
Qed.

Lemma result_mapM_Ok {A B : Type} (f : A -> result B) (l : list A) :
  ∀ ys : list B,
  mapM f l = Ok ys -> Forall2 (fun x y => f x = Ok y) l ys.
Proof.
  induction l as [|x l IH]; intros ys H.
  - injection H as <-. constructor.
  - change (mapM f (x :: l)) with (y ← f x; k ← mapM f l; mret (y :: k)) in H.
    apply bind_Ok in H as (y & Hy & H).
    apply bind_Ok in H as (k & Hk & H).
    injection H as <-. constructor; [done|by apply IH].
Qed.

Lemma scan_length (cell : Vec -> Vec -> Vec) (xs : list Vec) :
  ∀ h, length (EncoderRNN.scan cell h xs) = length xs.
Proof. induction xs as [|x xs IH]; intros h; simpl; [done|]. by rewrite IH. Qed.

(** The encoder returns one word embedding and one context vector per
    row of encoded characters. *)
Lemma forward_rows (enc : EncoderRNN.t) (x1 : list nat * list nat)
    (x2 : list (list nat)) (transformer_output : option Tensor)
    (word_embeddings context_embeddings : list Vec) :
  EncoderRNN.forward enc x1 x2
  = Ok (transformer_output, word_embeddings, context_embeddings) ->
  length word_embeddings = length x2
  ∧ length context_embeddings = length x2.
Proof.
  unfold EncoderRNN.forward.
  assert (Hctx : ∀ (ws : list Vec) h,
            length (EncoderRNN.word_gru enc ws h) = length ws).
  { intros ws h. unfold EncoderRNN.word_gru.
    rewrite length_zip_with, length_reverse, !scan_length, length_reverse.
    lia. }
  destruct (EncoderRNN.based_model enc) as [based_model|].
  - destruct x1 as [sub_tokens word_ids].
    intros (pre & _ & [= _ <- <-])%bind_Ok.
    by rewrite Hctx, !length_fmap.
  - intros [= _ <- <-]. by rewrite Hctx, !length_fmap.
Qed.

Lemma transformer_predict_length
    (inverse_transformation : string -> list string -> string)
    (dec : TransformerRNN.t) (word_embeddings context_vectors : list Vec)
    (x : list (list nat)) (surfaces : list string)
    (transformer_context : option (list Vec))
    (scores : list (list (list Q))) (predictions : list string) :
  TransformerRNN.predict inverse_transformation dec word_embeddings
    context_vectors x surfaces transformer_context
  = Ok (scores, predictions) ->
  length predictions = length surfaces `min` length context_vectors.
Proof.
  unfold TransformerRNN.predict.
  destruct (negb _) eqn:Hguard; [done|].
  apply negb_false_iff in Hguard.
  apply andb_true_iff in Hguard as [Hguard Htc].
  apply andb_true_iff in Hguard as [Hwe%Nat.eqb_eq Hx%Nat.eqb_eq].
  intros (labels & Hlabels & [= _ <-])%bind_Ok.
  apply result_mapM_Ok, Forall2_length in Hlabels.
  rewrite length_zip_with, <- Hlabels, length_zip_with, !length_zip_with.
  rewrite Hwe, Hx.
  destruct transformer_context as [tc|].
  - apply Nat.eqb_eq in Htc. rewrite length_fmap, Htc. lia.
  - rewrite length_replicate. lia.
Qed.

(** *** The output text *)

Lemma conll_line_fields (i : nat) (surface lemma : string)
    (tags : list string) :
  conll_line i surface lemma (join ";" tags)
  = join tab (conll_fields i surface lemma tags) +:+ newline.
Proof.
  unfold conll_line, conll_fields, join; fold (join ";" tags).
  by rewrite !string_app_assoc.
Qed.

Lemma add_lines_join (entries : list (string * (string * list string))) :
  ∀ (conll_sentence : string) (i : nat),
  add_lines conll_sentence i
    ((fun '(surface, (lemma, tags)) => (surface, (lemma, join ";" tags)))
       <$> entries)
  = conll_sentence
    +:+ join EmptyString
          (imap (fun j '(surface, (lemma, tags)) =>
                   join tab (conll_fields (i + j) surface lemma tags)
                   +:+ newline) entries).
Proof.
  induction entries as [|[surface [lemma tags]] entries IH]; intros acc i.
  - simpl. by rewrite string_app_nil_r.
  - rewrite fmap_cons, imap_cons, join_empty_cons. simpl add_lines.
    rewrite IH, conll_line_fields, Nat.add_0_r, string_app_assoc.
    do 3 f_equal. apply imap_ext. intros j [s [l t]] _. simpl.
    by rewrite Nat.add_succ_r.
Qed.

Lemma zip_fmap_join (surface_words lemmas : list string)
    (tagss : list (list string)) :
  zip surface_words (zip lemmas (join ";" <$> tagss))
  = (fun '(surface, (lemma, tags)) => (surface, (lemma, join ";" tags)))
      <$> zip surface_words (zip lemmas tagss).
Proof.
  revert lemmas tagss.
  induction surface_words as [|w ws IH]; intros [|l ls] [|t ts]; try done.
  simpl. by rewrite IH.
Qed.

Lemma add_lines_text (surface_words lemmas : list string)
    (tagss : list (list string)) :
  add_lines ("# Sentence" +:+ newline) 0
    (zip surface_words (zip lemmas (join ";" <$> tagss)))
  = conll_text surface_words lemmas tagss.
Proof. by rewrite zip_fmap_join, add_lines_join. Qed.

Lemma joined_tags (morph_features : list string) :
  Forall (fun s => ∃ tags, s = join ";" tags) morph_features ->
  ∃ tagss : list (list string), morph_features = join ";" <$> tagss.
Proof.
  induction 1 as [|s l [tags ->] _ [tagss ->]].
  - by exists [].
  - by exists (tags :: tagss).
Qed.

Section SentenceFacts.
Variable inverse_transformation : string -> list string -> string.
Variable from_pretrained : Tokenizer.
Variable surface_words : list string.
Variable encoder : EncoderRNN.t.
Variable decoder_lemma : LemmaDecoder.
Variable decoder_morph_tags : MorphDecoder.
Variable dataset : ConllDataset.t.
Variable use_transformer use_char_lstm : bool.
Variable tokenizer : option Tokenizer.
Variable use_rnn_morph : bool.
Variable max_morph_features_len : nat.

Lemma encode_surfaces_length (encoded_surfaces : list (list nat)) :
  encode_surfaces surface_words dataset use_char_lstm = Ok encoded_surfaces ->
  length encoded_surfaces = length surface_words.
Proof.
  unfold encode_surfaces. destruct use_char_lstm.
  - intros H%result_mapM_Ok%Forall2_length. done.
  - intros [= <-]. by rewrite length_replicate.
Qed.

Lemma decode_morph_join (transformer_output : option Tensor)
    (word_representations context_aware_representations : list Vec)
    (i : nat) (calls : list call) (s : string) :
  decode_morph decoder_morph_tags use_transformer use_rnn_morph
    max_morph_features_len transformer_output word_representations
    context_aware_representations i = (calls, Ok s) ->
  ∃ tags, s = join ";" tags.
Proof.
  unfold decode_morph.
  intros (? & ? & ? & _ & H & _)%traced_bind_Ok.
  apply traced_bind_Ok in H as (? & ? & ? & _ & H & _).
  apply traced_bind_Ok in H as (? & ? & ? & _ & H & _).
  apply traced_bind_Ok in H as (? & tags & ? & _ & H & _).
  injection H as _ <-. by exists tags.
Qed.

(** A run of [predict_sentence] on a sentence with words that returns a
    text: there are decoded lemmas and tags, one per word, such that the
    text is made of the lemmas after the override and of the tags; and the
    same calls and the same decoded lemmas and tags come out whatever the
    override dictionary is. *)
Lemma predict_sentence_inv (surface2lemma : option (gmap string string))
    (calls : list call) (s : string) :
  surface_words ≠ [] ->
  predict_sentence inverse_transformation from_pretrained surface_words
    encoder decoder_lemma decoder_morph_tags dataset use_transformer
    use_char_lstm tokenizer use_rnn_morph max_morph_features_len
    surface2lemma = (calls, Ok s) ->
  ∃ (decoded : list string) (tagss : list (list string)),
    length decoded = length surface_words
    ∧ length tagss = length surface_words
    ∧ ∀ other : option (gmap string string),
        predict_sentence inverse_transformation from_pretrained
          surface_words encoder decoder_lemma decoder_morph_tags dataset
          use_transformer use_char_lstm tokenizer use_rnn_morph
          max_morph_features_len other
        = (calls,
           Ok (conll_text surface_words
                 (apply_surface2lemma (is_TransformerRNN decoder_lemma)
                    other surface_words decoded) tagss)).
Proof.
  intros Hne. unfold predict_sentence.
  destruct (length surface_words =? 0) eqn:Hlen.
  { apply Nat.eqb_eq in Hlen. by destruct surface_words. }
  intros H.
  apply traced_bind_Ok in H as (l1 & encoded_surfaces & ? & H1 & H & ->).
  apply traced_bind_Ok in H as (l2 & [sub_tokens word_ids] & ? & H2 & H & ->).
  apply traced_bind_Ok in H
    as (l3 & [[transformer_output word_representations]
              context_aware_representations] & ? & H3 & H & ->).
  apply traced_bind_Ok in H as (l4 & decoded & ? & H4 & H & ->).
  apply traced_bind_Ok in H as (l5 & morph_features & ? & H5 & H & ->).
  injection H as <- <-.
  pose proof H1 as [Henc _]%lift_Ok.
  apply encode_surfaces_length in Henc.
  pose proof H3 as [[Hwe Hctx]%forward_rows _]%invoke_Ok.
  rewrite Henc in Hwe, Hctx.
  assert (Hdecoded : length decoded = length surface_words).
  { destruct decoder_lemma as [d|d].
    - apply traced_bind_Ok in H4 as (? & [scores lemmas] & ? & H4 & H & _).
      injection H as _ <-.
      apply invoke_Ok in H4 as [H4%transformer_predict_length _].
      rewrite H4, Hctx. lia.
    - apply traced_mapM_Ok, Forall2_length in H4.
      by rewrite <- H4, length_seq. }
  pose proof H5 as Hmorph%traced_mapM_Ok.
  assert (Htags : ∃ tagss : list (list string),
            morph_features = join ";" <$> tagss) .
  { apply joined_tags. eapply Forall2_Forall_r; [exact Hmorph|].
    apply Forall_forall. intros i _ y [c Hy].
    by eapply decode_morph_join. }
  destruct Htags as [tagss ->].
  exists decoded, tagss. split; [done|]. split.
  { apply Forall2_length in Hmorph.
    rewrite length_fmap in Hmorph. by rewrite <- Hmorph, length_seq. }
  intros other.
  apply traced_bind_Ok. eexists _, _, _. split; [exact H1|]. split; [|done].
  apply traced_bind_Ok. eexists _, _, _. split; [exact H2|]. split; [|done].
  apply traced_bind_Ok. eexists _, _, _. split; [exact H3|]. split; [|done].
  apply traced_bind_Ok. eexists _, _, _. split; [exact H4|]. split; [|done].
  apply traced_bind_Ok. eexists _, _, _. split; [exact H5|]. split; [|done].
  unfold mret, traced_ret. by rewrite add_lines_text.
Qed.

End SentenceFacts.

(** C9.  On the empty sentence [predict_sentence] returns the empty string:
    no comment line, no record; and it calls neither the encoder nor a
    decoder, whatever the modules and options are. *)
Theorem empty_sentence_gives_empty_text
    (inverse_transformation : string -> list string -> string)
    (from_pretrained : Tokenizer) (encoder : EncoderRNN.t)
    (decoder_lemma : LemmaDecoder) (decoder_morph_tags : MorphDecoder)
    (dataset : ConllDataset.t) (use_transformer use_char_lstm : bool)
    (tokenizer : option Tokenizer) (use_rnn_morph : bool)
    (max_morph_features_len : nat)
    (surface2lemma : option (gmap string string)) :
  predict_sentence inverse_transformation from_pretrained [] encoder
    decoder_lemma decoder_morph_tags dataset use_transformer use_char_lstm
    tokenizer use_rnn_morph max_morph_features_len surface2lemma
  = ([], Ok EmptyString).
Proof. reflexivity. Qed.

(** C7, as stated, fails.  The surface field of a record is not the
    surface word when the word ends with the end marker: for the one-word
    sentence [dog$] the record reads [dog], so the text is not the comment
    line followed by a record built on [dog$], whatever the lemma and the
    tags. *)
Lemma surface_field_loses_end_marker :
  predict_sentence keep_surface toy_tokenizer ["dog$"] toy_encoder
    (LemmaDecoderRNN spell_abc) (MorphDecoderFF tagger) toy_dataset true true
    None false 10 None
  = ([EncoderCall; LemmaDecoderCall; MorphDecoderCall],
     Ok ("# Sentence" +:+ newline
         +:+ join tab ["1"; "dog"; "bc"; "_"; "_"; "N;SG"; "_"; "_"; "_"; "_"]
         +:+ newline))
  ∧ ∀ (lemma : string) (tags : list string),
      "# Sentence" +:+ newline
      +:+ join tab ["1"; "dog"; "bc"; "_"; "_"; "N;SG"; "_"; "_"; "_"; "_"]
      +:+ newline
      ≠ "# Sentence" +:+ newline
        +:+ join tab ["1"; "dog$"; lemma; "_"; "_"; join ";" tags;
                      "_"; "_"; "_"; "_"]
        +:+ newline.
Proof.
  split; [vm_compute; reflexivity|].
  intros lemma tags H. vm_compute in H. discriminate H.
Qed.

(** C7, amended.  For a sentence with at least one word, a text that
    [predict_sentence] returns is the comment line followed by exactly one
    record per word, in word order: ten fields separated by tabs and closed
    by a newline, namely the position counted from 1, the surface word
    with a final end marker [$] removed, the lemma, two underscores, the
    tags joined by [;], and four underscores. *)
Theorem conll_record_format
    (inverse_transformation : string -> list string -> string)
    (from_pretrained : Tokenizer) (surface_words : list string)
    (encoder : EncoderRNN.t)
    (decoder_lemma : LemmaDecoder) (decoder_morph_tags : MorphDecoder)
    (dataset : ConllDataset.t) (use_transformer use_char_lstm : bool)
    (tokenizer : option Tokenizer) (use_rnn_morph : bool)
    (max_morph_features_len : nat)
    (surface2lemma : option (gmap string string))
    (calls : list call) (s : string) :
  surface_words ≠ [] ->
  predict_sentence inverse_transformation from_pretrained surface_words
    encoder decoder_lemma decoder_morph_tags dataset use_transformer
    use_char_lstm tokenizer use_rnn_morph max_morph_features_len
    surface2lemma = (calls, Ok s) ->
  ∃ (lemmas : list string) (tagss : list (list string)),
    length lemmas = length surface_words
    ∧ length tagss = length surface_words
    ∧ s = "# Sentence" +:+ newline
          +:+ join EmptyString
                (imap (fun i '(surface, (lemma, tags)) =>
                         join tab
                           [pretty (i + 1); remove_eos surface; lemma;
                            "_"; "_"; join ";" tags; "_"; "_"; "_"; "_"]
                         +:+ newline)
                   (zip surface_words (zip lemmas tagss))).
Proof.
  intros Hne H.
  destruct (predict_sentence_inv _ _ _ _ _ _ _ _ _ _ _ _ _ _ _ Hne H)
    as (decoded & tagss & Hd & Ht & Hall).
  rewrite (Hall surface2lemma) in H. injection H as <-.
  exists (apply_surface2lemma (is_TransformerRNN decoder_lemma) surface2lemma
            surface_words decoded), tagss.
  split_and!; try done.
  unfold apply_surface2lemma. destruct surface2lemma as [m|]; [|done].
  case_bool_decide; [done|]. rewrite length_zip_with. lia.
Qed.

(** The hypotheses of the amended C7 hold for the sentence [dog$ do]. *)
Lemma conll_record_format_witness :
  ["dog$"; "do"] ≠ []
  ∧ ∃ (lemmas : list string) (tagss : list (list string)),
      length lemmas = 2 ∧ length tagss = 2
      ∧ "# Sentence" +:+ newline
        +:+ (join tab ["1"; "dog"; "canine"; "_"; "_"; "N;SG";
                       "_"; "_"; "_"; "_"] +:+ newline)
        +:+ (join tab ["2"; "do"; "do"; "_"; "_"; "N;SG";
                       "_"; "_"; "_"; "_"] +:+ newline)
        = "# Sentence" +:+ newline
          +:+ join EmptyString
                (imap (fun i '(surface, (lemma, tags)) =>
                         join tab
                           [pretty (i + 1); remove_eos surface; lemma;
                            "_"; "_"; join ";" tags; "_"; "_"; "_"; "_"]
                         +:+ newline)
                   (zip ["dog$"; "do"] (zip lemmas tagss))).
Proof.
  split; [discriminate|].
  apply (conll_record_format keep_surface toy_tokenizer ["dog$"; "do"]
           toy_encoder (LemmaTransformerRNN toy_labeler)
           (MorphDecoderFF tagger) toy_dataset true true None false 10
           (Some canine)
           [EncoderCall; LemmaDecoderCall; MorphDecoderCall;
            MorphDecoderCall]); [discriminate|].
  vm_compute. reflexivity.
Defined.

(** C6, as stated, fails.  With a transformation decoder the dictionary is
    looked up at the surface word without its last character: the word
    [dog] is a key of the non-empty dictionary, mapped to [canine], and the
    lemma of its record is still the decoded one. *)
Lemma override_misses_exact_key :
  canine ≠ ∅
  ∧ canine !! "dog" = Some "canine"
  ∧ predict_sentence keep_surface toy_tokenizer ["dog"] toy_encoder
      (LemmaTransformerRNN toy_labeler) (MorphDecoderFF tagger) toy_dataset
      true true None false 10 (Some canine)
    = ([EncoderCall; LemmaDecoderCall; MorphDecoderCall],
       Ok ("# Sentence" +:+ newline
           +:+ join tab ["1"; "dog"; "dog"; "_"; "_"; "N;SG";
                         "_"; "_"; "_"; "_"]
           +:+ newline)).
Proof.
  split; [by apply insert_non_empty|].
  split; [by apply lookup_insert_eq|].
  vm_compute. reflexivity.
Qed.

(** C6, amended.  The override looks a word up by its lookup key: the
    surface word itself with a character decoder, the surface word without
    its last character with a transformation decoder.  For every word whose
    lookup key is a key of the dictionary, the lemma of its record is the
    mapped lemma, whatever was decoded; the lemma of any other word is the
    decoded one.  The override comes after decoding: the same calls are
    made and the same lemmas and tags are decoded as without a
    dictionary. *)
Theorem override_by_lookup_key
    (inverse_transformation : string -> list string -> string)
    (from_pretrained : Tokenizer) (surface_words : list string)
    (encoder : EncoderRNN.t)
    (decoder_lemma : LemmaDecoder) (decoder_morph_tags : MorphDecoder)
    (dataset : ConllDataset.t) (use_transformer use_char_lstm : bool)
    (tokenizer : option Tokenizer) (use_rnn_morph : bool)
    (max_morph_features_len : nat)
    (surface2lemma : gmap string string)
    (calls : list call) (s : string) :
  surface_words ≠ [] ->
  predict_sentence inverse_transformation from_pretrained surface_words
    encoder decoder_lemma decoder_morph_tags dataset use_transformer
    use_char_lstm tokenizer use_rnn_morph max_morph_features_len
    (Some surface2lemma) = (calls, Ok s) ->
  ∃ (decoded lemmas : list string) (tagss : list (list string)),
    length decoded = length surface_words
    ∧ length lemmas = length surface_words
    ∧ length tagss = length surface_words
    ∧ predict_sentence inverse_transformation from_pretrained surface_words
        encoder decoder_lemma decoder_morph_tags dataset use_transformer
        use_char_lstm tokenizer use_rnn_morph max_morph_features_len None
      = (calls, Ok (conll_text surface_words decoded tagss))
    ∧ s = conll_text surface_words lemmas tagss
    ∧ ∀ (i : nat) (surface : string),
        surface_words !! i = Some surface ->
        match surface2lemma !! lookup_key decoder_lemma surface with
        | Some mapped => lemmas !! i = Some mapped
        | None => lemmas !! i = decoded !! i
        end.
Proof.
  intros Hne H.
  destruct (predict_sentence_inv _ _ _ _ _ _ _ _ _ _ _ _ _ _ _ Hne H)
    as (decoded & tagss & Hd & Ht & Hall).
  rewrite (Hall (Some surface2lemma)) in H. injection H as <-.
  exists decoded,
    (apply_surface2lemma (is_TransformerRNN decoder_lemma)
       (Some surface2lemma) surface_words decoded), tagss.
  assert (Hlook : ∀ (i : nat) (surface : string),
    surface_words !! i = Some surface ->
    match surface2lemma !! lookup_key decoder_lemma surface with
    | Some mapped =>
        apply_surface2lemma (is_TransformerRNN decoder_lemma)
          (Some surface2lemma) surface_words decoded !! i = Some mapped
    | None =>
        apply_surface2lemma (is_TransformerRNN decoder_lemma)
          (Some surface2lemma) surface_words decoded !! i = decoded !! i
    end).
  { intros i surface Hi. unfold apply_surface2lemma.
    case_bool_decide as Hempty.
    { subst surface2lemma. by rewrite lookup_empty. }
    rewrite lookup_zip_with, Hi. simpl.
    destruct (lookup_lt_is_Some_2 decoded i) as [lemma Hlemma].
    { rewrite Hd. by eapply lookup_lt_Some. }
    rewrite Hlemma. simpl. unfold override_lemma, lookup_key.
    destruct (surface2lemma !! _) as [mapped|]; [|done].
    case_bool_decide as Hdiff; [done|]. by subst. }
  split_and!; try done.
  unfold apply_surface2lemma. case_bool_decide; [done|].
  rewrite length_zip_with. lia.
Qed.

(** The hypotheses of the amended C6 hold for the sentence [dog$ do] with
    a transformation decoder: the key [dog] is mapped to [canine]. *)
Lemma override_by_lookup_key_witness :
  ["dog$"; "do"] ≠ []
  ∧ canine !! lookup_key (LemmaTransformerRNN toy_labeler) "dog$"
    = Some "canine"
  ∧ ∃ (lemmas : list string) (tagss : list (list string)),
      lemmas !! 0 = Some "canine"
      ∧ "# Sentence" +:+ newline
        +:+ (join tab ["1"; "dog"; "canine"; "_"; "_"; "N;SG";
                       "_"; "_"; "_"; "_"] +:+ newline)
        +:+ (join tab ["2"; "do"; "do"; "_"; "_"; "N;SG";
                       "_"; "_"; "_"; "_"] +:+ newline)
        = conll_text ["dog$"; "do"] lemmas tagss.
Proof.
  split; [discriminate|]. split; [vm_compute; reflexivity|].
  destruct (override_by_lookup_key keep_surface toy_tokenizer ["dog$"; "do"]
              toy_encoder (LemmaTransformerRNN toy_labeler)
              (MorphDecoderFF tagger) toy_dataset true true None false 10
              canine
              [EncoderCall; LemmaDecoderCall; MorphDecoderCall;
               MorphDecoderCall]
              ("# Sentence" +:+ newline
               +:+ (join tab ["1"; "dog"; "canine"; "_"; "_"; "N;SG";
                              "_"; "_"; "_"; "_"] +:+ newline)
               +:+ (join tab ["2"; "do"; "do"; "_"; "_"; "N;SG";
                              "_"; "_"; "_"; "_"] +:+ newline)))
    as (decoded & lemmas & tagss & Hd & Hl & Ht & Hnone & Hs & Hlook);
    [discriminate|vm_compute; reflexivity|].
  exists lemmas, tagss. split; [|exact Hs].
  apply (Hlook 0 "dog$"). reflexivity.
Defined.

(** * Further properties *)

(** ** Encoding symbols *)

Lemma length_omap_le {A B : Type} (f : A -> option B) (l : list A) :
  length (omap f l) <= length l.
Proof.
  induction l as [|x l IH]; [done|].
  cbn. destruct (f x); simpl; lia.
Qed.

Lemma omap_filter_is_Some {A B : Type} (f : A -> option B) (l : list A) :
  omap f (filter (fun x => is_Some (f x)) l) = omap f l.
Proof.
  induction l as [|x l IH]; [done|].
  destruct (f x) as [y|] eqn:Hx.
  - rewrite filter_cons_True by (by rewrite Hx). cbn. by rewrite Hx, IH.
  - rewrite filter_cons_False by (rewrite Hx; by intros [? ?]).
    cbn. by rewrite Hx.
Qed.

Lemma length_omap_total {A B : Type} (f : A -> option B) (l : list A) :
  Forall (fun x => is_Some (f x)) l -> length (omap f l) = length l.
Proof.
  induction 1 as [|x l [y Hx] _ IH]; [done|].
  cbn. rewrite Hx. simpl. by rewrite IH.
Qed.

(** What [encode] returns: the id of the start symbol when asked for, the
    ids of the symbols the vocabulary knows, the id of the end symbol when
    asked for. *)
Lemma encode_Ok (seq : list string) (vocab : gmap string nat)
    (add_start_tag add_end_tag : bool) (res : list nat) :
  ConllDataset.encode seq vocab add_start_tag add_end_tag = Ok res <->
  ∃ pre post,
    (if add_start_tag
     then ∃ v, vocab !! ConllDataset.START_TAG = Some v ∧ pre = [v]
     else pre = [])
    ∧ (if add_end_tag
       then ∃ v, vocab !! ConllDataset.EOS_token = Some v ∧ post = [v]
       else post = [])
    ∧ res = pre ++ omap (fun token => vocab !! token) seq ++ post.
Proof.
  unfold ConllDataset.encode. split.
  - intros (pre & Hpre & H)%bind_Ok. exists pre.
    destruct add_end_tag.
    + apply bind_Ok in H as (v & Hv%of_option_Ok & [= <-]).
      exists [v]. split_and!.
      * destruct add_start_tag; [|by injection Hpre as <-].
        apply bind_Ok in Hpre as (s & Hs%of_option_Ok & [= <-]). by exists s.
      * by exists v.
      * by rewrite <- app_assoc.
    + injection H as <-. exists []. split_and!; [|done|by rewrite app_nil_r].
      destruct add_start_tag; [|by injection Hpre as <-].
      apply bind_Ok in Hpre as (s & Hs%of_option_Ok & [= <-]). by exists s.
  - intros (pre & post & Hpre & Hpost & ->).
    apply bind_Ok. exists pre. split.
    + destruct add_start_tag; [|by subst].
      destruct Hpre as (v & -> & ->). done.
    + destruct add_end_tag.
      * destruct Hpost as (v & -> & ->). simpl. by rewrite <- app_assoc.
      * subst post. by rewrite app_nil_r.
Qed.

Lemma encode_Err (seq : list string) (vocab : gmap string nat)
    (add_start_tag add_end_tag : bool) (e : exn) :
  ConllDataset.encode seq vocab add_start_tag add_end_tag = Err e ->
  e = KeyError
  ∧ ((add_start_tag = true ∧ vocab !! ConllDataset.START_TAG = None)
     ∨ (add_end_tag = true ∧ vocab !! ConllDataset.EOS_token = None)).
Proof.
  unfold ConllDataset.encode.
  destruct add_start_tag, add_end_tag;
    destruct (vocab !! ConllDataset.START_TAG) as [s|] eqn:Hs;
    destruct (vocab !! ConllDataset.EOS_token) as [v|] eqn:Hv; simpl;
    intros [= <-] || intros [=]; auto.
Qed.

(** X1.  [encode] raises only a key error, and only when the start or the
    end symbol it is asked to add is missing from the vocabulary.  When it
    returns, the symbols the vocabulary does not hold have been skipped
    without a trace: the result is the one for the sequence without them, it
    is no longer than the sequence plus the added symbols and exactly as
    long when every symbol is known, every id in it is the id of the start
    symbol, of the end symbol or of a symbol of the sequence, and the added
    symbols stand first and last. *)
Theorem encode_skips_unknown_symbols (seq : list string)
    (vocab : gmap string nat) (add_start_tag add_end_tag : bool) :
  ((∃ res, ConllDataset.encode seq vocab add_start_tag add_end_tag = Ok res)
   <-> (add_start_tag = true -> is_Some (vocab !! ConllDataset.START_TAG))
       ∧ (add_end_tag = true -> is_Some (vocab !! ConllDataset.EOS_token)))
  ∧ (∀ e, ConllDataset.encode seq vocab add_start_tag add_end_tag = Err e ->
       e = KeyError)
  ∧ ∀ res, ConllDataset.encode seq vocab add_start_tag add_end_tag = Ok res ->
      length res
        <= length seq + Nat.b2n add_start_tag + Nat.b2n add_end_tag
      ∧ (Forall (fun token => is_Some (vocab !! token)) seq ->
         length res
         = length seq + Nat.b2n add_start_tag + Nat.b2n add_end_tag)
      ∧ ConllDataset.encode
          (filter (fun token => is_Some (vocab !! token)) seq) vocab
          add_start_tag add_end_tag = Ok res
      ∧ (∀ id, id ∈ res -> ∃ token, vocab !! token = Some id)
      ∧ (add_start_tag = true ->
         head res = vocab !! ConllDataset.START_TAG)
      ∧ (add_end_tag = true ->
         last res = vocab !! ConllDataset.EOS_token).
Proof.
  split_and!.
  - split.
    + intros [res (pre & post & Hpre & Hpost & _)%encode_Ok]. split.
      * intros ->. destruct Hpre as (v & -> & _). by eexists.
      * intros ->. destruct Hpost as (v & -> & _). by eexists.
    + intros [Hs He].
      destruct (ConllDataset.encode seq vocab add_start_tag add_end_tag)
        as [res|e] eqn:Henc; [by exists res|].
      apply encode_Err in Henc as [_ [[-> Hn]|[-> Hn]]].
      * destruct Hs as [? ?]; congruence.
      * destruct He as [? ?]; congruence.
  - intros e He. by apply encode_Err in He as [-> _].
  - intros res Hres. pose proof Hres as Hres'.
    apply encode_Ok in Hres as (pre & post & Hpre & Hpost & ->).
    assert (Hlpre : length pre = Nat.b2n add_start_tag).
    { destruct add_start_tag; [by destruct Hpre as (v & _ & ->)|by subst]. }
    assert (Hlpost : length post = Nat.b2n add_end_tag).
    { destruct add_end_tag; [by destruct Hpost as (v & _ & ->)|by subst]. }
    rewrite !length_app, Hlpre, Hlpost. split_and!.
    + pose proof (length_omap_le (fun token => vocab !! token) seq). lia.
    + intros Hall. rewrite (length_omap_total _ _ Hall). lia.
    + apply encode_Ok. exists pre, post.
      by rewrite (omap_filter_is_Some (fun token => vocab !! token)).
    + intros id Hid. rewrite !elem_of_app in Hid.
      destruct Hid as [Hid|[Hid|Hid]].
      * destruct add_start_tag; [|subst; by apply elem_of_nil in Hid].
        destruct Hpre as (v & Hv & ->).
        apply list_elem_of_singleton in Hid as ->. eauto.
      * apply list_elem_of_omap in Hid as (token & _ & Htok). eauto.
      * destruct add_end_tag; [|subst; by apply elem_of_nil in Hid].
        destruct Hpost as (v & Hv & ->).
        apply list_elem_of_singleton in Hid as ->. eauto.
    + intros ->. by destruct Hpre as (v & -> & ->).
    + intros ->. destruct Hpost as (v & -> & ->).
      by rewrite app_assoc, last_snoc.
Qed.

(** X2.  When the inverse vocabulary maps every id back to its symbol, and
    the vocabulary holds every symbol of the sequence and the reserved
    symbols asked for, decoding the ids [encode] returns gives the sequence
    back, between the start and the end symbol when they were added. *)
Theorem encode_round_trip (seq : list string) (vocab : gmap string nat)
    (index2token : gmap nat string) (add_start_tag add_end_tag : bool) :
  (∀ token id, vocab !! token = Some id -> index2token !! id = Some token) ->
  Forall (fun token => is_Some (vocab !! token)) seq ->
  (add_start_tag = true -> is_Some (vocab !! ConllDataset.START_TAG)) ->
  (add_end_tag = true -> is_Some (vocab !! ConllDataset.EOS_token)) ->
  ∃ res,
    ConllDataset.encode seq vocab add_start_tag add_end_tag = Ok res
    ∧ mapM (fun id => index2token !! id) res
      = Some ((if add_start_tag then [ConllDataset.START_TAG] else [])
              ++ seq
              ++ (if add_end_tag then [ConllDataset.EOS_token] else [])).
Proof.
  intros Hinv Hall Hs He.
  destruct (proj2 (proj1 (encode_skips_unknown_symbols seq vocab
                            add_start_tag add_end_tag)) (conj Hs He))
    as [res Hres].
  exists res. split; [done|].
  apply encode_Ok in Hres as (pre & post & Hpre & Hpost & ->).
  apply mapM_Some. apply Forall2_app; [|apply Forall2_app].
  - destruct add_start_tag; [|subst; constructor].
    destruct Hpre as (v & Hv & ->). repeat constructor. by apply Hinv.
  - clear -Hinv Hall. induction Hall as [|token seq [id Hid] _ IH].
    + constructor.
    + cbn. rewrite Hid. constructor; [by apply Hinv|done].
  - destruct add_end_tag; [|subst; constructor].
    destruct Hpost as (v & Hv & ->). repeat constructor. by apply Hinv.
Qed.

Lemma encode_round_trip_witness :
  ∃ res,
    ConllDataset.encode ["c"; "a"; "b"] abc_vocab true true = Ok res
    ∧ mapM (fun id => vocabulary !! id) res
      = Some (["<s>"] ++ ["c"; "a"; "b"] ++ ["<e>"]).
Proof.
  apply (encode_round_trip ["c"; "a"; "b"] abc_vocab vocabulary true true).
  - intros token id Hid. apply elem_of_list_to_map_2 in Hid.
    repeat (apply elem_of_cons in Hid as [[= -> ->]|Hid];
            [vm_compute; reflexivity|]).
    by apply elem_of_nil in Hid.
  - repeat constructor; by eexists.
  - intros _. by eexists.
  - intros _. by eexists.
Defined.

(** ** The end marker *)

Lemma remove_eos_unfold (a : ascii) (r : string) :
  remove_eos (String a r)
  = if bool_decide (a = "$"%char ∧ (r = EmptyString ∨ r = newline))
    then r else String a (remove_eos r).
Proof. reflexivity. Qed.

(** X3.  What [REMOVE_EOS_REGEX.sub] does to a surface form: a dollar sign
    that ends the string is removed, a dollar sign just before a final
    newline is removed and the newline stays, and any other string is
    returned unchanged. *)
Theorem remove_eos_drops_final_marker :
  (∀ s, remove_eos (s +:+ "$") = s)
  ∧ (∀ s, remove_eos (s +:+ "$" +:+ newline) = s +:+ newline)
  ∧ (∀ s, (∀ p, s ≠ p +:+ "$") -> (∀ p, s ≠ p +:+ "$" +:+ newline) ->
          remove_eos s = s).
Proof.
  split_and!.
  - induction s as [|a s IH]; [done|].
    rewrite string_app_cons, remove_eos_unfold.
    case_bool_decide as H; [|by rewrite IH].
    destruct H as [_ [H|H]]; destruct s as [|b [|c s]]; done.
  - induction s as [|a s IH]; [done|].
    rewrite string_app_cons, remove_eos_unfold.
    case_bool_decide as H; [|by rewrite IH].
    destruct H as [_ [H|H]]; destruct s as [|b [|c s]]; done.
  - induction s as [|a s IH]; intros H1 H2; [done|].
    rewrite remove_eos_unfold. case_bool_decide as H.
    + destruct H as [-> [->| ->]].
      * by destruct (H1 EmptyString).
      * by destruct (H2 EmptyString).
    + f_equal. apply IH.
      * intros p ->. by apply (H1 (String a p)).
      * intros p ->. by apply (H2 (String a p)).
Qed.

(** ** The encoded surfaces of a sentence *)

Lemma length_chars (s : string) : length (chars s) = String.length s.
Proof. induction s as [|a s IH]; simpl; [done|]. by rewrite IH. Qed.

Lemma result_mapM_Ok_inv {A B : Type} (f : A -> result B) (l : list A)
    (ys : list B) :
  Forall2 (fun x y => f x = Ok y) l ys -> mapM f l = Ok ys.
Proof.
  induction 1 as [|x y l ys Hxy _ IH]; [done|].
  change (mapM f (x :: l)) with (y' ← f x; k ← mapM f l; mret (y' :: k)).
  by rewrite Hxy, IH.
Qed.

(** X4.  The character ids [predict_sentence] hands to the encoder.
    Building them fails only when characters are used, the sentence has a
    word and the character vocabulary lacks the end symbol.  Otherwise there
    is one row per word and every row is [max_token_len] long, so that no
    encoded word overflows its row: a row holds the ids of the known
    characters of the word, the id of the end symbol and zeros, or zeros
    only when characters are not used. *)
Theorem encoded_surfaces_rectangular (surface_words : list string)
    (dataset : ConllDataset.t) (use_char_lstm : bool) :
  ((∃ rows, encode_surfaces surface_words dataset use_char_lstm = Ok rows)
   <-> use_char_lstm = false ∨ surface_words = []
       ∨ is_Some (ConllDataset.surface_char2id dataset
                    !! ConllDataset.EOS_token))
  ∧ ∀ rows, encode_surfaces surface_words dataset use_char_lstm = Ok rows ->
      length rows = length surface_words
      ∧ Forall (fun row => length row = max_token_len surface_words) rows
      ∧ Forall2
          (fun surface row =>
             if use_char_lstm then
               ∃ e known,
                 ConllDataset.surface_char2id dataset
                   !! ConllDataset.EOS_token = Some e
                 ∧ known
                   = omap (fun ch => ConllDataset.surface_char2id dataset
                                       !! ch) (chars surface)
                 ∧ row
                   = known ++ [e]
                     ++ replicate (max_token_len surface_words
                                   - (length known + 1)) 0
             else row = replicate (max_token_len surface_words) 0)
          surface_words rows.
Proof.
  assert (Hmax : ∀ surface, surface ∈ surface_words ->
            String.length surface + 1 <= max_token_len surface_words).
  { intros surface Hin. unfold max_token_len.
    assert (String.length surface
            <= max_list (String.length <$> surface_words)); [|lia].
    apply max_list_elem_of_le. apply list_elem_of_fmap. by exists surface. }
  assert (Hrows : ∀ rows,
    encode_surfaces surface_words dataset use_char_lstm = Ok rows ->
    Forall2
      (fun surface row =>
         if use_char_lstm then
           ∃ e known,
             ConllDataset.surface_char2id dataset
               !! ConllDataset.EOS_token = Some e
             ∧ known
               = omap (fun ch => ConllDataset.surface_char2id dataset !! ch)
                   (chars surface)
             ∧ row
               = known ++ [e]
                 ++ replicate (max_token_len surface_words
                               - (length known + 1)) 0
         else row = replicate (max_token_len surface_words) 0)
      surface_words rows).
  { intros rows H. unfold encode_surfaces in H. destruct use_char_lstm.
    - apply result_mapM_Ok in H.
      eapply Forall2_impl; [exact H|]. intros surface row Hrow. simpl in Hrow.
      apply bind_Ok in Hrow as (encoded & Henc & [= <-]).
      apply encode_Ok in Henc as (pre & post & -> & (e & He & ->) & ->).
      simpl. exists e, (omap (fun ch =>
        ConllDataset.surface_char2id dataset !! ch) (chars surface)).
      split_and!; try done. rewrite <- !app_assoc. do 3 f_equal.
      rewrite length_app. done.
    - injection H as <-.
      apply Forall2_same_length_lookup. rewrite length_replicate.
      split; [done|]. intros i surface row _ Hr.
      by apply lookup_replicate_1 in Hr as [-> _]. }
  split.
  - split.
    + intros [rows Hrows']. destruct use_char_lstm; [|by left].
      destruct surface_words as [|surface rest]; [by right; left|].
      right. right. apply Hrows in Hrows'.
      apply Forall2_cons_inv_l in Hrows'
        as (row & rows' & (e & _ & He & _) & _ & _). by exists e.
    + intros H. unfold encode_surfaces.
      destruct use_char_lstm; [|by eexists].
      destruct H as [H|[->|[e He]]]; [done|by eexists|].
      exists ((fun surface =>
                 (omap (fun ch => ConllDataset.surface_char2id dataset !! ch)
                    (chars surface) ++ [e])
                 ++ replicate
                      (max_token_len surface_words
                       - length (omap (fun ch =>
                                         ConllDataset.surface_char2id dataset
                                           !! ch) (chars surface) ++ [e])) 0)
                <$> surface_words).
      apply result_mapM_Ok_inv.
      apply Forall2_fmap_r, Forall_Forall2_diag, Forall_forall.
      intros surface _. apply bind_Ok. eexists. split; [|reflexivity].
      apply encode_Ok. exists [], [e]. split_and!; try done. by exists e.
  - intros rows H. pose proof (Hrows rows H) as Hall. split_and!.
    + by apply Forall2_length in Hall.
    + apply Forall_forall. intros row Hrow.
      apply list_elem_of_lookup_1 in Hrow as [i Hi].
      destruct (Forall2_lookup_r _ _ _ _ _ Hall Hi) as (surface & Hs & Hrow).
      apply list_elem_of_lookup_2, Hmax in Hs.
      destruct use_char_lstm.
      * destruct Hrow as (e & known & _ & Hk & ->).
        pose proof (length_omap_le (fun ch =>
          ConllDataset.surface_char2id dataset !! ch) (chars surface)) as Hle.
        rewrite length_chars, <- Hk in Hle.
        rewrite !length_app, !length_replicate. simpl. lia.
      * subst row. by rewrite length_replicate.
    + done.
Qed.

(** ** Sub-words and words *)

Section Tokenize.
Variable from_pretrained : Tokenizer.
Variable tokenizer : option Tokenizer.

Lemma elem_of_word_ids_from (surface_words : list string) :
  ∀ (k x : nat),
  x ∈ mjoin (imap (fun word_id surface =>
                     replicate
                       (length (sub_tokens_of from_pretrained tokenizer
                                  surface)) (k + word_id))
               surface_words)
  <-> ∃ i surface, surface_words !! i = Some surface ∧ x = k + i
        ∧ sub_tokens_of from_pretrained tokenizer surface ≠ [].
Proof.
  induction surface_words as [|w ws IH]; intros k x.
  - simpl. rewrite elem_of_nil. split; [done|]. by intros (i & s & ? & _).
  - rewrite imap_cons. simpl. rewrite elem_of_app, elem_of_replicate.
    rewrite (imap_ext _ (fun word_id surface =>
               replicate
                 (length (sub_tokens_of from_pretrained tokenizer surface))
                 (S k + word_id))).
    2: { intros i s _. simpl. f_equal. lia. }
    rewrite IH. split.
    + intros [[-> Hne]|(i & s & Hi & -> & Hne)].
      * exists 0, w. split_and!; [done|lia|].
        by destruct (sub_tokens_of from_pretrained tokenizer w).
      * exists (S i), s. split_and!; [done|lia|done].
    + intros ([|i] & s & Hi & -> & Hne); simpl in Hi.
      * injection Hi as ->. left. split; [lia|].
        by destruct (sub_tokens_of from_pretrained tokenizer s).
      * right. exists i, s. split_and!; [done|lia|done].
Qed.

Lemma word_ids_from_0 (surface_words : list string) :
  (tokenize from_pretrained surface_words tokenizer).2
  = mjoin (imap (fun word_id surface =>
                   replicate
                     (length (sub_tokens_of from_pretrained tokenizer
                                surface)) (0 + word_id))
             surface_words).
Proof. reflexivity. Qed.

Lemma elem_of_word_ids (surface_words : list string) (x : nat) :
  x ∈ (tokenize from_pretrained surface_words tokenizer).2
  <-> ∃ surface, surface_words !! x = Some surface
        ∧ sub_tokens_of from_pretrained tokenizer surface ≠ [].
Proof.
  rewrite word_ids_from_0.
  rewrite (elem_of_word_ids_from surface_words 0 x). split.
  - intros (i & s & Hi & -> & Hne). by exists s.
  - intros (s & Hx & Hne). by exists x, s.
Qed.

Lemma tokenize_lengths (surface_words : list string) :
  length (tokenize from_pretrained surface_words tokenizer).1
  = length (tokenize from_pretrained surface_words tokenizer).2.
Proof.
  rewrite word_ids_from_0. unfold tokenize. simpl fst.
  change (fun surface => default from_pretrained tokenizer (drop_last surface))
    with (sub_tokens_of from_pretrained tokenizer).
  generalize 0.
  induction surface_words as [|w ws IH]; intros k; [done|].
  rewrite imap_cons. simpl. rewrite !length_app, length_replicate.
  f_equal. etrans; [apply (IH (S k))|]. do 2 f_equal. apply imap_ext.
  intros i s _. simpl. f_equal. lia.
Qed.

(** The word ids of a sentence in which every word has a sub-token take
    every value below the number of words. *)
Lemma word_ids_count (surface_words : list string) :
  let word_ids := (tokenize from_pretrained surface_words tokenizer).2 in
  Forall (fun x => x < length (unique word_ids)) word_ids ->
  (length (unique word_ids) = length surface_words
   <-> Forall (fun surface =>
                 sub_tokens_of from_pretrained tokenizer surface ≠ [])
         surface_words).
Proof.
  intros word_ids Hall.
  pose proof (labels_below_count word_ids Hall) as Hin.
  split.
  - intros Hk. apply Forall_forall. intros s Hs.
    apply list_elem_of_lookup_1 in Hs as [i Hi].
    assert (Hlt : i < length (unique word_ids)).
    { rewrite Hk. by eapply lookup_lt_Some. }
    apply Hin, elem_of_word_ids in Hlt as (s' & Hi' & Hne). congruence.
  - intros Hne. rewrite Forall_forall in Hne.
    destruct (Nat.lt_trichotomy (length (unique word_ids))
                (length surface_words)) as [Hlt|[Heq|Hgt]]; [|done|].
    + exfalso.
      destruct (lookup_lt_is_Some_2 surface_words _ Hlt) as [s Hs].
      assert (Hk : length (unique word_ids) ∈ word_ids).
      { apply elem_of_word_ids. exists s. split; [done|].
        apply Hne. by eapply list_elem_of_lookup_2. }
      apply Hin in Hk. lia.
    + exfalso. apply Hin, elem_of_word_ids in Hgt as (s & Hs & _).
      apply lookup_lt_Some in Hs. lia.
Qed.

End Tokenize.

Lemma encode_surfaces_is_Ok (surface_words : list string)
    (dataset : ConllDataset.t) (use_char_lstm : bool) :
  use_char_lstm = false
  ∨ is_Some (ConllDataset.surface_char2id dataset !! ConllDataset.EOS_token) ->
  ∃ rows, encode_surfaces surface_words dataset use_char_lstm = Ok rows.
Proof.
  intros H. unfold encode_surfaces.
  destruct use_char_lstm; [|by eexists].
  destruct H as [H|[e He]]; [done|].
  exists ((fun surface =>
             (omap (fun ch => ConllDataset.surface_char2id dataset !! ch)
                (chars surface) ++ [e])
             ++ replicate
                  (max_token_len surface_words
                   - length (omap (fun ch =>
                                     ConllDataset.surface_char2id dataset
                                       !! ch) (chars surface) ++ [e])) 0)
            <$> surface_words).
  apply result_mapM_Ok_inv.
  apply Forall2_fmap_r, Forall_Forall2_diag, Forall_forall.
  intros surface _. apply bind_Ok. eexists. split; [|reflexivity].
  apply encode_Ok. exists [], [e]. split_and!; try done. by exists e.
Qed.

Lemma encode_surfaces_KeyError (surface_words : list string)
    (dataset : ConllDataset.t) :
  surface_words ≠ [] ->
  ConllDataset.surface_char2id dataset !! ConllDataset.EOS_token = None ->
  encode_surfaces surface_words dataset true = Err KeyError.
Proof.
  intros Hne HE. destruct surface_words as [|surface rest]; [done|].
  unfold encode_surfaces.
  change (mapM ?f (surface :: rest))
    with (y ← f surface; k ← mapM f rest; mret (y :: k)).
  unfold ConllDataset.encode. simpl. by rewrite HE.
Qed.

Lemma segment_sum_Ok_inv (data : Tensor) (segment_ids : list nat)
    (out : Tensor) :
  length (rows data) = length segment_ids ->
  segment_sum data segment_ids = Ok out ->
  Forall (fun x => x < length (unique segment_ids)) segment_ids
  ∧ length (rows out) = length (unique segment_ids).
Proof.
  intros Hlen H.
  destruct (decide (Forall (fun x => x < length (unique segment_ids))
                      segment_ids)) as [Hall|Hnot].
  - split; [done|]. rewrite segment_sum_ok in H by done.
    injection H as <-. simpl. by rewrite length_fmap, length_seq.
  - exfalso. apply not_Forall_Exists in Hnot; [|apply _].
    rewrite segment_sum_err in H; [done|done|].
    eapply Exists_impl; [exact Hnot|]. simpl. intros x Hx. lia.
Qed.

Section Pooling.
Variable from_pretrained : Tokenizer.
Variable tokenizer : option Tokenizer.
Variable enc : EncoderRNN.t.
Variable based_model : list nat -> Tensor.
Hypothesis Hmodel : EncoderRNN.based_model enc = Some based_model.
Hypothesis Hrows :
  ∀ sub_tokens, length (rows (based_model sub_tokens)) = length sub_tokens.

Lemma forward_pooled (sub_tokens word_ids : list nat)
    (x2 : list (list nat)) (pooled : Tensor) :
  segment_sum (based_model sub_tokens) word_ids = Ok pooled ->
  ∃ word_embeddings context_embeddings,
    EncoderRNN.forward enc (sub_tokens, word_ids) x2
    = Ok (Some (mkTensor (EncoderRNN.hidden_size2 enc)
                  (EncoderRNN.tuning_layer enc <$> rows pooled)),
          word_embeddings, context_embeddings).
Proof.
  intros H. unfold EncoderRNN.forward. rewrite Hmodel, H. simpl.
  by eexists _, _.
Qed.

Lemma forward_raises (sub_tokens word_ids : list nat)
    (x2 : list (list nat)) (e : exn) :
  segment_sum (based_model sub_tokens) word_ids = Err e ->
  EncoderRNN.forward enc (sub_tokens, word_ids) x2 = Err e.
Proof. intros H. unfold EncoderRNN.forward. by rewrite Hmodel, H. Qed.

Lemma tokenize_rows (surface_words : list string) :
  length (rows (based_model
                  (tokenize from_pretrained surface_words tokenizer).1))
  = length (tokenize from_pretrained surface_words tokenizer).2.
Proof. rewrite Hrows. apply tokenize_lengths. Qed.

End Pooling.

(** X5.  With a transformer that returns one row per sub-token, the encoder
    returns one pooled transformer row per word of the sentence exactly when
    the tokenizer gives every word at least one sub-token. *)
Theorem transformer_rows_match_words (from_pretrained : Tokenizer)
    (tokenizer : option Tokenizer) (enc : EncoderRNN.t)
    (based_model : list nat -> Tensor) (surface_words : list string)
    (x2 : list (list nat)) :
  EncoderRNN.based_model enc = Some based_model ->
  (∀ sub_tokens, length (rows (based_model sub_tokens)) = length sub_tokens) ->
  (∃ transformer_output word_embeddings context_embeddings,
     EncoderRNN.forward enc
       (tokenize from_pretrained surface_words tokenizer) x2
     = Ok (Some transformer_output, word_embeddings, context_embeddings)
     ∧ length (rows transformer_output) = length surface_words)
  <-> Forall (fun surface =>
                sub_tokens_of from_pretrained tokenizer surface ≠ [])
        surface_words.
Proof.
  intros Hmodel Hrows.
  pose proof (tokenize_rows from_pretrained tokenizer based_model Hrows
                surface_words) as Hlen.
  pose proof (word_ids_count from_pretrained tokenizer surface_words)
    as Hcount. cbv zeta in Hcount.
  pose proof (elem_of_word_ids from_pretrained tokenizer surface_words)
    as Hin.
  destruct (tokenize from_pretrained surface_words tokenizer)
    as [sub_tokens word_ids] eqn:Htok.
  cbn [fst snd] in Hlen, Hcount, Hin.
  split.
  - intros (t & we & ce & Hfwd & Hn).
    destruct (segment_sum (based_model sub_tokens) word_ids)
      as [pooled|e] eqn:Hsum.
    + destruct (forward_pooled enc based_model Hmodel _ _ x2 _ Hsum)
        as (we' & ce' & Hfwd').
      rewrite Hfwd' in Hfwd. injection Hfwd as <- _ _.
      apply segment_sum_Ok_inv in Hsum as [Hall Hk]; [|done].
      apply (proj1 (Hcount Hall)). simpl in Hn. rewrite length_fmap in Hn. lia.
    + by rewrite (forward_raises enc based_model Hmodel _ _ x2 _ Hsum)
        in Hfwd.
  - intros Hne.
    assert (Hall : Forall (fun x => x < length (unique word_ids)) word_ids).
    { apply contiguous_below_count. intros x y Hx Hy.
      apply Hin in Hx as (s & Hs & _). apply Hin.
      destruct (lookup_lt_is_Some_2 surface_words y) as [s' Hs'].
      { apply lookup_lt_Some in Hs. lia. }
      exists s'. split; [done|].
      rewrite Forall_forall in Hne. apply Hne.
      by eapply list_elem_of_lookup_2. }
    pose proof (segment_sum_ok _ _ Hlen Hall) as Hsum.
    destruct (forward_pooled enc based_model Hmodel _ _ x2 _ Hsum)
      as (we & ce & Hfwd).
    eexists _, we, ce. split; [exact Hfwd|]. simpl.
    rewrite !length_fmap, length_seq. by apply (proj2 (Hcount Hall)).
Qed.

Lemma transformer_rows_match_words_witness :
  ∃ transformer_output word_embeddings context_embeddings,
    EncoderRNN.forward toy_encoder
      (tokenize toy_tokenizer ["dog$"; "do$"] None) [[2; 3; 4]; [2; 3]]
    = Ok (Some transformer_output, word_embeddings, context_embeddings)
    ∧ length (rows transformer_output) = length ["dog$"; "do$"].
Proof.
  apply (transformer_rows_match_words toy_tokenizer None toy_encoder
           (fun sub_tokens =>
              mkTensor 1 ((fun token => [Qnat token]) <$> sub_tokens))).
  - reflexivity.
  - intros sub_tokens. simpl. by rewrite length_fmap.
  - repeat constructor; vm_compute; discriminate.
Defined.

(** ** Runs of [predict_sentence] that raise *)

Lemma traced_bind_lift_Ok {A B : Type} (a : A) (f : A -> traced B) :
  (lift (Ok a) ≫= f) = f a.
Proof. unfold lift, mbind, traced_bind. by destruct (f a). Qed.

Lemma traced_bind_Err {A B : Type} (l : list call) (e : exn)
    (f : A -> traced B) :
  ((l, Err e) : traced A) ≫= f = (l, Err e).
Proof. reflexivity. Qed.

Lemma length_eqb_0 {A : Type} (l : list A) :
  l ≠ [] -> (length l =? 0) = false.
Proof. by destruct l. Qed.



(** X7.  With [use_transformer] off, [predict_sentence] raises on every
    sentence that has a word, before any module is called: a key error when
    the characters cannot be encoded, an attribute error otherwise, since
    the sub-tokens are then a plain list, which has no [view]. *)
Theorem without_transformer_nothing_is_predicted
    (inverse_transformation : string -> list string -> string)
    (from_pretrained : Tokenizer) (surface_words : list string)
    (encoder : EncoderRNN.t) (decoder_lemma : LemmaDecoder)
    (decoder_morph_tags : MorphDecoder) (dataset : ConllDataset.t)
    (use_char_lstm : bool) (tokenizer : option Tokenizer)
    (use_rnn_morph : bool) (max_morph_features_len : nat)
    (surface2lemma : option (gmap string string)) :
  surface_words ≠ [] ->
  predict_sentence inverse_transformation from_pretrained surface_words
    encoder decoder_lemma decoder_morph_tags dataset false use_char_lstm
    tokenizer use_rnn_morph max_morph_features_len surface2lemma
  = ([], Err (if bool_decide
                   (use_char_lstm = true
                    ∧ ConllDataset.surface_char2id dataset
                        !! ConllDataset.EOS_token = None)
              then KeyError else AttributeError)).
Proof.
  intros Hne. unfold predict_sentence. rewrite length_eqb_0 by done.
  case_bool_decide as Hcase.
  - destruct Hcase as [-> HE].
    by rewrite encode_surfaces_KeyError.
  - destruct (encode_surfaces_is_Ok surface_words dataset use_char_lstm)
      as [encoded ->]; [|by rewrite traced_bind_lift_Ok].
    destruct use_char_lstm; [|by left]. right.
    destruct (ConllDataset.surface_char2id dataset !! ConllDataset.EOS_token)
      eqn:HE; [by eexists|]. by destruct Hcase.
Qed.

Lemma without_transformer_nothing_is_predicted_witness :
  predict_sentence keep_surface toy_tokenizer ["dog$"] toy_encoder
    (LemmaTransformerRNN toy_labeler) (MorphDecoderFF tagger) toy_dataset
    false true None false 0 None
  = ([], Err AttributeError).
Proof.
  apply (without_transformer_nothing_is_predicted keep_surface toy_tokenizer
           ["dog$"] toy_encoder (LemmaTransformerRNN toy_labeler)
           (MorphDecoderFF tagger) toy_dataset true None false 0 None).
  discriminate.
Defined.

(** ** The module calls of a run *)

Lemma traced_mapM_calls {A B : Type} (f : A -> traced B) (c : call)
    (l : list A) :
  (∀ x calls y, f x = (calls, Ok y) -> calls = [c]) ->
  ∀ (calls : list call) (ys : list B),
  mapM f l = (calls, Ok ys) -> calls = replicate (length l) c.
Proof.
  intros Hf. induction l as [|x l IH]; intros calls ys H.
  - by injection H as <- <-.
  - change (mapM f (x :: l)) with (y ← f x; k ← mapM f l; mret (y :: k)) in H.
    apply traced_bind_Ok in H as (l1 & y & l2 & Hy & H & ->).
    apply traced_bind_Ok in H as (l3 & k & l4 & Hk & H & ->).
    injection H as <- <-. apply Hf in Hy as ->. apply IH in Hk as ->.
    simpl. by rewrite app_nil_r.
Qed.

Section Calls.
Variable inverse_transformation : string -> list string -> string.
Variable from_pretrained : Tokenizer.
Variable surface_words : list string.
Variable encoder : EncoderRNN.t.
Variable decoder_lemma : LemmaDecoder.
Variable decoder_morph_tags : MorphDecoder.
Variable dataset : ConllDataset.t.
Variable use_transformer use_char_lstm : bool.
Variable tokenizer : option Tokenizer.
Variable use_rnn_morph : bool.
Variable max_morph_features_len : nat.

Lemma decode_lemma_calls (d : DecoderRNN.t)
    (transformer_output : option Tensor)
    (word_representations context_aware_representations : list Vec)
    (i : nat) (calls : list call) (s : string) :
  decode_lemma surface_words use_transformer d transformer_output
    word_representations context_aware_representations i = (calls, Ok s) ->
  calls = [LemmaDecoderCall].
Proof.
  unfold decode_lemma. intros H.
  apply traced_bind_Ok in H as (? & ? & ? & [_ ->]%lift_Ok & H & ->).
  apply traced_bind_Ok in H as (? & ? & ? & [_ ->]%lift_Ok & H & ->).
  apply traced_bind_Ok in H as (? & ? & ? & [_ ->]%lift_Ok & H & ->).
  apply traced_bind_Ok in H as (? & [? ?] & ? & [_ ->]%invoke_Ok & H & ->).
  by injection H as <- _.
Qed.

Lemma decode_morph_calls (transformer_output : option Tensor)
    (word_representations context_aware_representations : list Vec)
    (i : nat) (calls : list call) (s : string) :
  decode_morph decoder_morph_tags use_transformer use_rnn_morph
    max_morph_features_len transformer_output word_representations
    context_aware_representations i = (calls, Ok s) ->
  calls = [MorphDecoderCall]
  ∧ match decoder_morph_tags with
    | MorphDecoderRNN _ => use_rnn_morph = true
    | MorphDecoderFF _ => use_rnn_morph = false
    end.
Proof.
  unfold decode_morph. intros H.
  apply traced_bind_Ok in H as (? & ? & ? & [_ ->]%lift_Ok & H & ->).
  apply traced_bind_Ok in H as (? & ? & ? & [_ ->]%lift_Ok & H & ->).
  apply traced_bind_Ok in H as (? & ? & ? & [_ ->]%lift_Ok & H & ->).
  apply traced_bind_Ok in H as (? & tags & ? & Hcall & H & ->).
  injection H as <- _.
  destruct use_rnn_morph, decoder_morph_tags as [d|d].
  - apply traced_bind_Ok in Hcall
      as (? & [? ?] & ? & [_ ->]%invoke_Ok & H & ->).
    by injection H as <- _.
  - by apply lift_Ok in Hcall as [? _].
  - apply traced_bind_Ok in Hcall as (? & ? & ? & _ & H & _).
    by apply lift_Ok in H as [? _].
  - by apply invoke_Ok in Hcall as [_ ->].
Qed.

(** X8.  A run of [predict_sentence] that returns a text for a sentence with
    a word had [use_transformer] on and a tag decoder of the kind
    [use_rnn_morph] announces, and it called the encoder once, then the
    lemma decoder once for the sentence when it predicts transformations and
    once per word otherwise, then the tag decoder once per word. *)
Theorem successful_run_calls (surface2lemma : option (gmap string string))
    (calls : list call) (s : string) :
  surface_words ≠ [] ->
  predict_sentence inverse_transformation from_pretrained surface_words
    encoder decoder_lemma decoder_morph_tags dataset use_transformer
    use_char_lstm tokenizer use_rnn_morph max_morph_features_len
    surface2lemma = (calls, Ok s) ->
  use_transformer = true
  ∧ match decoder_morph_tags with
    | MorphDecoderRNN _ => use_rnn_morph = true
    | MorphDecoderFF _ => use_rnn_morph = false
    end
  ∧ calls
    = [EncoderCall]
      ++ replicate (if is_TransformerRNN decoder_lemma then 1
                    else length surface_words) LemmaDecoderCall
      ++ replicate (length surface_words) MorphDecoderCall.
Proof.
  intros Hne. unfold predict_sentence.
  rewrite length_eqb_0 by done.
  intros H.
  apply traced_bind_Ok in H as (l1 & encoded_surfaces & ? & H1 & H & ->).
  apply traced_bind_Ok in H as (l2 & [sub_tokens word_ids] & ? & H2 & H & ->).
  apply traced_bind_Ok in H
    as (l3 & [[transformer_output word_representations]
              context_aware_representations] & ? & H3 & H & ->).
  apply traced_bind_Ok in H as (l4 & decoded & ? & H4 & H & ->).
  apply traced_bind_Ok in H as (l5 & morph_features & ? & H5 & H & ->).
  injection H as <- _.
  apply lift_Ok in H1 as [Henc%encode_surfaces_length ->].
  apply lift_Ok in H2 as [H2 ->].
  apply invoke_Ok in H3 as [[Hwe Hctx]%forward_rows ->].
  rewrite Henc in Hwe, Hctx. rewrite Hctx in H4, H5.
  assert (Hmorph : l5 = replicate (length surface_words) MorphDecoderCall
            ∧ match decoder_morph_tags with
              | MorphDecoderRNN _ => use_rnn_morph = true
              | MorphDecoderFF _ => use_rnn_morph = false
              end).
  { split.
    - rewrite (traced_mapM_calls _ MorphDecoderCall _
                 (fun x c y Hx =>
                    proj1 (decode_morph_calls _ _ _ x c y Hx)) _ _ H5).
      by rewrite length_seq.
    - apply traced_mapM_Ok in H5.
      destruct surface_words as [|w ws]; [done|].
      simpl in H5. apply Forall2_cons_inv_l in H5 as (y & ? & [c Hy] & _).
      by apply decode_morph_calls in Hy as [_ ?]. }
  destruct Hmorph as [-> Hkind].
  split_and!; [by destruct use_transformer|done|].
  rewrite app_nil_r. simpl. do 2 f_equal.
  destruct decoder_lemma as [d|d]; simpl.
  - apply traced_bind_Ok in H4 as (? & [? ?] & ? & [_ ->]%invoke_Ok & H & ->).
    by injection H as <- _.
  - rewrite (traced_mapM_calls _ LemmaDecoderCall _
               (fun x c y Hx => decode_lemma_calls _ _ _ _ x c y Hx) _ _ H4).
    by rewrite length_seq.
Qed.

End Calls.

Lemma successful_run_calls_witness :
  true = true
  ∧ false = false
  ∧ [EncoderCall; LemmaDecoderCall; LemmaDecoderCall; MorphDecoderCall;
     MorphDecoderCall]
    = [EncoderCall]
      ++ replicate (length ["dog$"; "do$"]) LemmaDecoderCall
      ++ replicate (length ["dog$"; "do$"]) MorphDecoderCall.
Proof.
  apply (successful_run_calls keep_surface toy_tokenizer ["dog$"; "do$"]
           toy_encoder (LemmaDecoderRNN spell_abc) (MorphDecoderFF tagger)
           toy_dataset true true None false 0 None _
           (String.append "# Sentence"
              (String.append newline
                 (String.append (conll_line 0 "dog$" "bc" "N;SG")
                    (conll_line 1 "do$" "bc" "N;SG"))))).
  - discriminate.
  - vm_compute. reflexivity.
Defined.

(** ** Greedy decoding and the maximum length *)

Section GreedyLength.
Import DecoderRNN.
Variable dec : t.

(** Once the end symbol has been predicted, more iterations change
    nothing. *)
Lemma predict_loop_stable (steps : nat) :
  ∀ (predicted_token : nat) (hidden : Hidden) (run run' : GreedyRun),
  predict_loop dec steps predicted_token hidden run = Ok run' ->
  1 ∉ run_tokens run ->
  1 ∈ run_tokens run' ->
  ∀ more, predict_loop dec (steps + more) predicted_token hidden run = Ok run'.
Proof.
  induction steps as [|steps IH]; intros tok h run run' Hrun Hnot Hin more.
  - simplify_eq/=. done.
  - simpl in *. destruct (gru dec (embedding dec tok) h) as [output h'].
    destruct (topk 1 (classifier dec output)) as [top|e]; [|done].
    simpl in *. destruct top as [|[topi v] top]; [done|].
    destruct (topi =? 1) eqn:E1; [done|].
    apply Nat.eqb_neq in E1.
    destruct (2 <? topi).
    + destruct (index2token dec !! topi) as [token|]; [|done]. simpl in *.
      apply IH; try done. simpl. rewrite elem_of_app, list_elem_of_singleton.
      intros [?|?]; [done|lia].
    + apply IH; try done. simpl. rewrite elem_of_app, list_elem_of_singleton.
      intros [?|?]; [done|lia].
Qed.

End GreedyLength.

(** X9.  A greedy run that has predicted the end symbol is the run of every
    larger maximum length: the same symbols are returned and the same score
    rows, followed by rows of zeros. *)
Theorem greedy_stable_after_END (dec : DecoderRNN.t)
    (word_embedding context_vector : Vec) (transformer_context : option Vec)
    (max_len : nat) (run : DecoderRNN.GreedyRun) :
  DecoderRNN.predict_run dec word_embedding context_vector
    transformer_context max_len = Ok run ->
  1 ∈ DecoderRNN.run_tokens run ->
  ∀ longer, max_len <= longer ->
    DecoderRNN.predict_run dec word_embedding context_vector
      transformer_context longer = Ok run
    ∧ DecoderRNN.predict dec word_embedding context_vector
        transformer_context longer
      = Ok (DecoderRNN.run_scores run
              ++ replicate (longer - length (DecoderRNN.run_scores run))
                   (zeros (DecoderRNN.vocab_size dec)),
            DecoderRNN.run_predictions run).
Proof.
  intros Hrun Hin longer Hle.
  assert (Hlonger : DecoderRNN.predict_run dec word_embedding context_vector
                      transformer_context longer = Ok run).
  { unfold DecoderRNN.predict_run in *.
    replace longer with (max_len + (longer - max_len)) by lia.
    apply predict_loop_stable; [done| |done]. simpl. apply not_elem_of_nil. }
  split; [done|]. unfold DecoderRNN.predict. by rewrite Hlonger.
Qed.

Lemma greedy_stable_after_END_witness :
  DecoderRNN.predict_run spell_abc [] [] None 9
  = Ok (DecoderRNN.mkGreedyRun
          [one_hot 3; one_hot 4; one_hot 5; one_hot 1] [3; 4; 5; 1]
          ["a"; "b"; "c"])
  ∧ DecoderRNN.predict spell_abc [] [] None 9
    = Ok ([one_hot 3; one_hot 4; one_hot 5; one_hot 1]
            ++ replicate (9 - 4) (zeros 6),
          ["a"; "b"; "c"]).
Proof.
  apply (greedy_stable_after_END spell_abc [] [] None 4
           (DecoderRNN.mkGreedyRun
              [one_hot 3; one_hot 4; one_hot 5; one_hot 1] [3; 4; 5; 1]
              ["a"; "b"; "c"])).
  - vm_compute. reflexivity.
  - simpl. rewrite !elem_of_cons. tauto.
  - lia.
Defined.

Section GreedyTruncation.
Import DecoderRNN.
Variable dec : t.

Lemma predict_loop_truncate (steps : nat) :
  ∀ (more predicted_token : nat) (hidden : Hidden) (run' : GreedyRun),
  predict_loop dec (steps + more) predicted_token hidden empty_run = Ok run' ->
  ∃ cut,
    predict_loop dec steps predicted_token hidden empty_run = Ok cut
    ∧ run_tokens cut = take steps (run_tokens run')
    ∧ run_scores cut = take steps (run_scores run')
    ∧ run_predictions cut `prefix_of` run_predictions run'.
Proof.
  induction steps as [|steps IH]; intros more tok h run' Hrun.
  - exists empty_run. split_and!; try done. by eexists.
  - simpl in *. destruct (gru dec (embedding dec tok) h) as [output h'].
    destruct (topk 1 (classifier dec output)) as [top|e]; [|done].
    simpl in *. destruct top as [|[topi v] top]; [done|].
    destruct (topi =? 1) eqn:E1.
    { exists run'. simplify_eq/=.
      split_and!; simpl; rewrite ?take_nil; done. }
    destruct (2 <? topi).
    + destruct (index2token dec !! topi) as [token|]; [|done]. simpl in *.
      rewrite predict_loop_shift in Hrun.
      apply bind_Ok in Hrun as (r & Hr & [= <-]).
      apply IH in Hr as (cut & Hcut & Ht & Hs & Hp).
      rewrite predict_loop_shift, Hcut. eexists. split; [done|]. simpl.
      rewrite Ht, Hs. split_and!; try done. by apply prefix_cons.
    + rewrite predict_loop_shift in Hrun.
      apply bind_Ok in Hrun as (r & Hr & [= <-]).
      apply IH in Hr as (cut & Hcut & Ht & Hs & Hp).
      rewrite predict_loop_shift, Hcut. eexists. split; [done|]. simpl.
      rewrite Ht, Hs. split_and!; done.
Qed.

End GreedyTruncation.

(** X10.  Lowering the maximum length only cuts a greedy run: the predicted
    ids and the score rows of the shorter run are the first ones of the
    longer run, and the symbols returned are a prefix of those the longer
    run returns. *)
Theorem greedy_shorter_run_is_prefix (dec : DecoderRNN.t)
    (word_embedding context_vector : Vec) (transformer_context : option Vec)
    (max_len shorter : nat) (run : DecoderRNN.GreedyRun) :
  DecoderRNN.predict_run dec word_embedding context_vector
    transformer_context max_len = Ok run ->
  shorter <= max_len ->
  ∃ cut,
    DecoderRNN.predict_run dec word_embedding context_vector
      transformer_context shorter = Ok cut
    ∧ DecoderRNN.run_tokens cut = take shorter (DecoderRNN.run_tokens run)
    ∧ DecoderRNN.run_scores cut = take shorter (DecoderRNN.run_scores run)
    ∧ DecoderRNN.run_predictions cut
        `prefix_of` DecoderRNN.run_predictions run.
Proof.
  unfold DecoderRNN.predict_run. intros Hrun Hle.
  replace max_len with (shorter + (max_len - shorter)) in Hrun by lia.
  by apply predict_loop_truncate in Hrun.
Qed.

Lemma greedy_shorter_run_is_prefix_witness :
  ∃ cut,
    DecoderRNN.predict_run spell_abc [] [] None 2 = Ok cut
    ∧ DecoderRNN.run_tokens cut = take 2 [3; 4; 5; 1]
    ∧ DecoderRNN.run_scores cut
      = take 2 [one_hot 3; one_hot 4; one_hot 5; one_hot 1]
    ∧ DecoderRNN.run_predictions cut `prefix_of` ["a"; "b"; "c"].
Proof.
  apply (greedy_shorter_run_is_prefix spell_abc [] [] None 4 2
           (DecoderRNN.mkGreedyRun
              [one_hot 3; one_hot 4; one_hot 5; one_hot 1] [3; 4; 5; 1]
              ["a"; "b"; "c"])).
  - vm_compute. reflexivity.
  - lia.
Defined.

(** ** What makes greedy decoding raise *)

(** The entry [topk 1] returns is a largest one. *)
Lemma topk_1_max (t : list Q) (ix : nat) (p : Q) :
  topk 1 t = Ok [(ix, p)] -> ∀ other, other ∈ t -> (other <= p)%Q.
Proof.
  unfold topk. case_decide as Hk; [|done]. intros [= Htop] other Hin.
  assert (Hhead : head (sort_desc snd (imap pair t)) = Some (ix, p)).
  { destruct (sort_desc snd (imap pair t)) as [|x r]; [done|].
    simpl in Htop. rewrite take_0 in Htop. by simplify_eq. }
  apply sort_desc_head in Hhead as [_ Hmax].
  apply list_elem_of_lookup_1 in Hin as [i Hi].
  apply (Hmax (i, other)). apply elem_of_lookup_imap. by exists i, other.
Qed.

Section GreedyFailures.
Import DecoderRNN.
Variable dec : t.


End GreedyFailures.



(** ** What beam search returns *)

Lemma join_empty_snoc (xs : list string) (x : string) :
  join EmptyString (xs ++ [x]) = join EmptyString xs +:+ x.
Proof.
  induction xs as [|y xs IH].
  - change (x = EmptyString +:+ x). done.
  - change ((y :: xs) ++ [x]) with (y :: (xs ++ [x])).
    by rewrite !join_empty_cons, IH, string_app_assoc.
Qed.

Section BeamResult.
Import DecoderRNN.
Variable dec : t.
Variable surface_len beam_size : nat.

(** Two properties that the candidates of the search keep: [Open] for the
    candidates still to expand, [Closed] for the completed ones. *)
Variable Open Closed : State -> Prop.
Hypothesis Open_child : ∀ parent child,
  Open parent -> expands dec surface_len beam_size parent child ->
  last_output child ≠ 1 -> Open child.
Hypothesis Closed_child : ∀ parent child,
  Open parent -> expands dec surface_len beam_size parent child ->
  last_output child = 1 -> Closed child.

Lemma beam_search_invariant (fuel : nat) :
  ∀ states completed_states completed,
  Forall Open states ->
  Forall Closed completed_states ->
  beam_search dec surface_len beam_size fuel states completed_states
  = Some (Ok completed) ->
  Forall Closed completed.
Proof.
  induction fuel as [|fuel IH]; intros states comp comp' Hopen Hclosed H.
  { destruct states; by simplify_eq/=. }
  destruct states as [|state states]; [by simplify_eq/=|].
  rewrite beam_search_step in H.
  destruct (beam_round dec surface_len beam_size (state :: states) [] comp)
    as [[new comp1]|e] eqn:Hround; [|done].
  apply beam_round_spec in Hround as (open & closed & -> & -> & Ho & Hc).
  apply IH in H; [done| |].
  - apply Forall_take. rewrite sort_desc_perm. simpl.
    eapply Forall_impl; [exact Ho|].
    intros child (Hlast & parent & Hin & Hex).
    apply (Open_child parent); try done.
    rewrite Forall_forall in Hopen. by apply Hopen.
  - apply Forall_app. split; [done|].
    eapply Forall_impl; [exact Hc|].
    intros child (Hlast & parent & Hin & Hex).
    apply (Closed_child parent); try done.
    rewrite Forall_forall in Hopen. by apply Hopen.
Qed.

End BeamResult.

(** X12.  The string beam search returns is shorter than [surface_len + 2],
    and it is spelled with symbols of the vocabulary whose ids differ from
    the id of the end symbol. *)
Theorem beam_result_bounded (dec : DecoderRNN.t)
    (surface_len beam_size fuel : nat) (word_embedding context_vector : Vec)
    (transformer_context : option Vec) (s : string) :
  DecoderRNN.predict_beam dec surface_len beam_size fuel word_embedding
    context_vector transformer_context = Some (Ok s) ->
  String.length s < surface_len + 2
  ∧ ∃ ids tokens,
      Forall2 (fun id token => DecoderRNN.index2token dec !! id = Some token)
        ids tokens
      ∧ (1 ∉ ids)
      ∧ s = join EmptyString tokens.
Proof.
  unfold DecoderRNN.predict_beam. intros H.
  destruct (DecoderRNN.beam_search dec surface_len beam_size fuel _ [])
    as [[completed|e]|] eqn:Hsearch; [|done|done].
  pose (spelled := fun state : DecoderRNN.State =>
    ∃ ids tokens,
      Forall2 (fun id token => DecoderRNN.index2token dec !! id = Some token)
        ids tokens
      ∧ (1 ∉ ids)
      ∧ DecoderRNN.prediction state = join EmptyString tokens).
  apply (beam_search_invariant dec surface_len beam_size spelled
           (fun state =>
              String.length (DecoderRNN.prediction state) < surface_len + 2
              ∧ spelled state)) in Hsearch.
  - injection H as H. unfold DecoderRNN.best_completed in H.
    apply bind_Ok in H as (best & Hbest%of_option_Ok & [= <-]).
    apply sort_desc_head in Hbest as [Hin _].
    rewrite Forall_forall in Hsearch. by apply Hsearch.
  - intros parent child (ids & tokens & Hall & Hnot & Hpred)
      (_ & tops & ix & p & _ & _ & Hchild) Hlast.
    pose proof (beam_child_last_output _ _ _ _ _ _ _ Hchild) as Hix.
    unfold DecoderRNN.beam_child in Hchild.
    destruct (ix =? 1) eqn:E; [apply Nat.eqb_eq in E; congruence|].
    apply bind_Ok in Hchild as (token & Htok%of_option_Ok & [= <-]).
    exists (ids ++ [ix]), (tokens ++ [token]). simpl. split_and!.
    + apply Forall2_app; [done|]. by repeat constructor.
    + rewrite elem_of_app, list_elem_of_singleton. intros [?|?]; [done|].
      simpl in Hlast. congruence.
    + by rewrite join_empty_snoc, Hpred.
  - intros parent child Hparent (Hlen & tops & ix & p & _ & _ & Hchild) Hlast.
    pose proof (beam_child_last_output _ _ _ _ _ _ _ Hchild) as Hix.
    unfold DecoderRNN.beam_child in Hchild.
    destruct (ix =? 1) eqn:E.
    + injection Hchild as <-. split; [done|exact Hparent].
    + apply Nat.eqb_neq in E. congruence.
  - repeat constructor. exists [], []. split_and!; try done.
    apply not_elem_of_nil.
  - constructor.
Qed.

Lemma beam_result_bounded_witness :
  String.length "<p>a" < 3 + 2
  ∧ ∃ ids tokens,
      Forall2 (fun id token =>
                 DecoderRNN.index2token spell_pad_a !! id = Some token)
        ids tokens
      ∧ (1 ∉ ids)
      ∧ "<p>a" = join EmptyString tokens.
Proof.
  apply (beam_result_bounded spell_pad_a 3 1 6 [] [] None "<p>a").
  vm_compute. reflexivity.
Defined.

(** ** Beam widths out of range *)

(** X13.  With a beam of width zero no candidate is ever built and the
    final selection raises an index error; with a beam wider than the row of
    scores of the first step, taking the best scores raises a runtime error.
    Either way the first round shows it. *)
Theorem beam_width_out_of_range (dec : DecoderRNN.t)
    (surface_len beam_size fuel : nat) (word_embedding context_vector : Vec)
    (transformer_context : option Vec) :
  beam_size = 0
  ∨ length (next_scores dec
              (DecoderRNN.mkState EmptyString 1 1 2
                 (DecoderRNN.init_hidden dec word_embedding context_vector
                    transformer_context))) < beam_size ->
  DecoderRNN.predict_beam dec surface_len beam_size (S fuel) word_embedding
    context_vector transformer_context
  = Some (Err (if decide (beam_size = 0) then IndexError else RuntimeError)).
Proof.
  intros Hwidth. unfold DecoderRNN.predict_beam.
  rewrite beam_search_step. unfold DecoderRNN.beam_round.
  rewrite decide_False by (simpl; lia). simpl DecoderRNN.last_output.
  simpl DecoderRNN.hidden. unfold next_scores in Hwidth. simpl in Hwidth.
  destruct (DecoderRNN.gru dec (DecoderRNN.embedding dec 2)
              (DecoderRNN.init_hidden dec word_embedding context_vector
                 transformer_context)) as [gru_outputs _hidden].
  simpl in Hwidth. unfold topk.
  destruct (decide (beam_size = 0)) as [->|Hne].
  - rewrite decide_True by lia. simpl. by rewrite beam_search_nil.
  - destruct Hwidth as [?|Hwidth]; [done|].
    rewrite decide_False by lia. done.
Qed.

Lemma beam_width_out_of_range_witness :
  DecoderRNN.predict_beam spell_abc 2 7 (S 0) [] [] None
  = Some (Err RuntimeError).
Proof.
  apply (beam_width_out_of_range spell_abc 2 7 0 [] [] None).
  right. vm_compute. lia.
Defined.

(** ** Pooling when every word is one sub-word *)

Lemma filter_none {A : Type} (P : A -> Prop) `{!∀ x, Decision (P x)}
    (l : list A) :
  Forall (fun x => ¬ P x) l -> filter P l = [].
Proof.
  induction 1 as [|x l Hx _ IH]; [done|]. by rewrite filter_cons_False.
Qed.

Lemma segment_seq (rows : list Vec) :
  ∀ (k j : nat) (row : Vec),
  rows !! j = Some row ->
  segment (k + j) (seq k (length rows)) rows = [row].
Proof.
  unfold segment.
  induction rows as [|r rows IH]; intros k j row Hj; [done|].
  simpl. destruct j as [|j]; simpl in Hj.
  - injection Hj as ->. rewrite Nat.add_0_r.
    rewrite filter_cons_True by done. simpl. f_equal.
    rewrite filter_none; [done|].
    apply Forall_forall. intros [i v] Hin. simpl.
    apply elem_of_zip_l, elem_of_seq in Hin. lia.
  - rewrite filter_cons_False by (simpl; lia).
    replace (k + S j) with (S k + j) by lia. by apply IH.
Qed.

(** X14.  When the labels are [0, 1, ..., n-1], one per row, as they are
    when every word is a single sub-token, [segment_sum] gives back the rows
    it was given. *)
Theorem segment_sum_one_row_per_label (data : Tensor) :
  Forall (fun row => length row = last_dim data) (rows data) ->
  segment_sum data (seq 0 (length (rows data))) = Ok data.
Proof.
  intros Hdim.
  assert (Hall : Forall (fun x =>
                          x < length (unique (seq 0 (length (rows data)))))
                   (seq 0 (length (rows data)))).
  { apply contiguous_below_count. intros x y Hx%elem_of_seq Hy.
    apply elem_of_seq. lia. }
  rewrite segment_sum_ok; [|by rewrite length_seq|done].
  pose proof (labels_below_count _ Hall) as Hin.
  assert (Hk : length (unique (seq 0 (length (rows data))))
               = length (rows data)).
  { destruct (Nat.lt_trichotomy
                (length (unique (seq 0 (length (rows data)))))
                (length (rows data))) as [Hlt|[Heq|Hgt]]; [|done|].
    - assert (H : length (unique (seq 0 (length (rows data))))
                  ∈ seq 0 (length (rows data))) by (apply elem_of_seq; lia).
      apply Hin in H. lia.
    - apply Hin, elem_of_seq in Hgt. lia. }
  rewrite Hk. destruct data as [d rs]. simpl in *. do 2 f_equal.
  apply list_eq. intros j. rewrite list_lookup_fmap.
  destruct (rs !! j) as [row|] eqn:Hj.
  - rewrite lookup_seq_lt by (by eapply lookup_lt_Some). simpl.
    pose proof (segment_seq rs 0 j row Hj) as Hseg. simpl in Hseg.
    rewrite Hseg. simpl. f_equal.
    apply vadd_zeros_l. rewrite Forall_forall in Hdim. apply Hdim.
    by eapply list_elem_of_lookup_2.
  - rewrite lookup_seq_ge; [done|]. by apply lookup_ge_None.
Qed.

Lemma segment_sum_one_row_per_label_witness :
  segment_sum (mkTensor 2 [[1; 2]; [3; 4]; [5; 6]]%Q) (seq 0 3)
  = Ok (mkTensor 2 [[1; 2]; [3; 4]; [5; 6]]%Q).
Proof.
  apply (segment_sum_one_row_per_label
           (mkTensor 2 [[1; 2]; [3; 4]; [5; 6]]%Q)).
  repeat constructor.
Defined.

(** ** Building the vocabularies *)

Section VocabularyFacts.
Import Vocabularies.

Lemma assign_lookup (vocab : gmap string nat) (symbol s : string) :
  assign vocab symbol !! s
  = if decide (symbol = s) then Some (size vocab) else vocab !! s.
Proof.
  unfold assign. case_decide as Heq.
  - subst. apply lookup_insert_eq.
  - by apply lookup_insert_ne.
Qed.

Lemma size_assign (vocab : gmap string nat) (symbol : string) :
  size (assign vocab symbol)
  = if decide (is_Some (vocab !! symbol)) then size vocab
    else S (size vocab).
Proof.
  unfold assign. case_decide as Hin.
  - by apply map_size_insert_Some.
  - apply map_size_insert_None. by apply eq_None_not_Some.
Qed.

Lemma dense_empty : dense ∅.
Proof.
  split.
  - intros s1 s2 id H. by rewrite lookup_empty in H.
  - intros id. rewrite map_size_empty. split; [lia|].
    intros [s H]. by rewrite lookup_empty in H.
Qed.

Lemma dense_below (vocab : gmap string nat) (s : string) (id : nat) :
  dense vocab -> vocab !! s = Some id -> id < size vocab.
Proof. intros [_ Hd] Hs. apply Hd. by exists s. Qed.

Lemma dense_assign (vocab : gmap string nat) (symbol : string) :
  dense vocab -> vocab !! symbol = None -> dense (assign vocab symbol).
Proof.
  intros Hd Hnone. pose proof Hd as [Hinj Hall]. split.
  - intros s1 s2 id. rewrite !assign_lookup.
    repeat case_decide; subst; try done.
    + intros [= <-] H2. apply (dense_below _ _ _ Hd) in H2. lia.
    + intros H1 [= <-]. apply (dense_below _ _ _ Hd) in H1. lia.
    + apply Hinj.
  - intros id. rewrite size_assign.
    rewrite decide_False by (rewrite Hnone; by intros [? ?]).
    split.
    + intros Hlt. destruct (decide (id = size vocab)) as [->|Hne].
      * exists symbol. rewrite assign_lookup. by rewrite decide_True.
      * destruct (proj1 (Hall id)) as [s Hs]; [lia|].
        exists s. rewrite assign_lookup. rewrite decide_False; [done|].
        intros ->. congruence.
    + intros [s Hs]. rewrite assign_lookup in Hs. case_decide.
      * injection Hs as <-. lia.
      * apply (dense_below _ _ _ Hd) in Hs. lia.
Qed.

(** Symbols that are new to a vocabulary are numbered from its size on, in
    the order of the loop. *)
Lemma assign_all_fresh (symbols : list string) :
  ∀ vocab : gmap string nat,
  dense vocab ->
  NoDup symbols ->
  Forall (fun s => vocab !! s = None) symbols ->
  dense (assign_all vocab symbols)
  ∧ size (assign_all vocab symbols) = size vocab + length symbols
  ∧ (∀ s id, vocab !! s = Some id ->
       assign_all vocab symbols !! s = Some id)
  ∧ (∀ i s, symbols !! i = Some s ->
       assign_all vocab symbols !! s = Some (size vocab + i))
  ∧ (∀ s, is_Some (assign_all vocab symbols !! s) ->
       is_Some (vocab !! s) ∨ s ∈ symbols).
Proof.
  induction symbols as [|symbol symbols IH]; intros vocab Hd Hnd Hnew.
  { simpl. split_and!; try done; try lia; auto. }
  apply NoDup_cons in Hnd as [Hnotin Hnd].
  apply Forall_cons in Hnew as [Hsym Hnew].
  assert (Hsize : size (assign vocab symbol) = S (size vocab)).
  { rewrite size_assign. rewrite decide_False; [done|].
    rewrite Hsym. by intros [? ?]. }
  destruct (IH (assign vocab symbol)) as (Hd' & Hs' & Hold & Hnth & Hdom).
  { by apply dense_assign. }
  { done. }
  { apply Forall_forall. intros s Hin. rewrite assign_lookup.
    rewrite decide_False by (by intros ->).
    rewrite Forall_forall in Hnew. by apply Hnew. }
  change (assign_all vocab (symbol :: symbols))
    with (assign_all (assign vocab symbol) symbols).
  split_and!.
  - done.
  - rewrite Hs', Hsize. simpl. lia.
  - intros s id Hs. apply Hold. rewrite assign_lookup.
    rewrite decide_False; [done|]. intros ->. congruence.
  - intros [|i] s Hi; simpl in Hi.
    + injection Hi as ->. rewrite Nat.add_0_r. apply Hold.
      rewrite assign_lookup. by rewrite decide_True.
    + rewrite (Hnth i s Hi), Hsize. f_equal. lia.
  - intros s Hs. apply Hdom in Hs as [Hs|Hs].
    + rewrite assign_lookup in Hs. case_decide.
      * subst. right. left.
      * by left.
    + right. by right.
Qed.

Lemma chars_one (s ch : string) : ch ∈ chars s -> String.length ch = 1.
Proof.
  induction s as [|a s IH]; simpl.
  - by intros ?%elem_of_nil.
  - intros [->|Hin]%elem_of_cons; [done|by apply IH].
Qed.

Lemma supplied_or_fresh (supplied : option (gmap string nat))
    (reserved : list string) :
  not_supplied supplied ->
  supplied_or supplied reserved = assign_all ∅ reserved.
Proof.
  intros [->| ->]; [done|]. unfold supplied_or. by rewrite decide_True.
Qed.

Lemma supplied_or_given (vocab : gmap string nat) (reserved : list string) :
  vocab ≠ ∅ -> supplied_or (Some vocab) reserved = vocab.
Proof. intros Hne. unfold supplied_or. by rewrite decide_False. Qed.

(** A fresh vocabulary, filled with symbols that are new to it. *)
Lemma fresh_numbered (reserved symbols : list string) :
  NoDup reserved ->
  NoDup symbols ->
  (∀ s, s ∈ symbols -> s ∉ reserved) ->
  numbered reserved (fun s => s ∈ symbols)
    (assign_all (assign_all ∅ reserved) symbols).
Proof.
  intros Hr Hs Hdisj.
  replace (assign_all (assign_all ∅ reserved) symbols)
    with (assign_all ∅ (reserved ++ symbols))
    by (unfold assign_all; by rewrite foldl_app).
  destruct (assign_all_fresh (reserved ++ symbols) ∅)
    as (Hd & Hsize & _ & Hnth & Hdom).
  { apply dense_empty. }
  { apply NoDup_app. split_and!; try done. intros s H1 H2.
    by apply (Hdisj s). }
  { apply Forall_forall. intros s _. apply lookup_empty. }
  rewrite map_size_empty in Hnth. split_and!.
  - done.
  - intros i s Hi. apply (Hnth i s). by apply lookup_app_l_Some.
  - intros s. rewrite <- elem_of_app. split.
    + intros [H|H]%Hdom; [|done]. rewrite lookup_empty in H.
      by destruct H.
    + intros [i Hi]%list_elem_of_lookup_1. rewrite (Hnth i s Hi). by eexists.
Qed.

Section Enumeration.
Variable set_order : list string -> list string.
Hypothesis set_order_enumerates : enumerates set_order.

Lemma elem_of_unique_chars (words : list string) (ch : string) :
  ch ∈ set_order (mjoin (chars <$> set_order words))
  <-> ∃ word, word ∈ words ∧ ch ∈ chars word.
Proof.
  rewrite (proj2 (set_order_enumerates _)), list_elem_of_join. split.
  - intros (l & Hch & (word & -> & Hw)%list_elem_of_fmap).
    apply (proj1 (proj2 (set_order_enumerates _) _)) in Hw.
    exists word. by split.
  - intros (word & Hw & Hch). exists (chars word). split; [done|].
    apply list_elem_of_fmap. exists word. split; [done|].
    by apply (proj2 (proj2 (set_order_enumerates _) _)).
Qed.

Lemma elem_of_sentence_chars (field : Sentence -> list string)
    (data : list Sentence) (ch : string) :
  ch ∈ set_order (mjoin (chars <$> set_order (mjoin (field <$> data))))
  <-> ∃ sentence word,
        sentence ∈ data ∧ word ∈ field sentence ∧ ch ∈ chars word.
Proof.
  rewrite elem_of_unique_chars. split.
  - intros (word & Hw & Hch).
    apply list_elem_of_join in Hw as (l & Hw & Hl).
    apply list_elem_of_fmap in Hl as (sentence & -> & Hs).
    by exists sentence, word.
  - intros (sentence & word & Hs & Hw & Hch). exists word. split; [|done].
    apply list_elem_of_join. exists (field sentence). split; [done|].
    apply list_elem_of_fmap. by exists sentence.
Qed.

Lemma elem_of_sentence_tags (data : list Sentence) (tag : string) :
  tag ∈ set_order (mjoin (mjoin (morph_tags <$> data)))
  <-> tag_of data tag.
Proof.
  rewrite (proj2 (set_order_enumerates _)). unfold tag_of. split.
  - intros (morph_tag & Htag & Hm)%list_elem_of_join.
    apply list_elem_of_join in Hm as (l & Hm & Hl).
    apply list_elem_of_fmap in Hl as (sentence & -> & Hs).
    by exists sentence, morph_tag.
  - intros (sentence & morph_tag & Hs & Hm & Htag).
    apply list_elem_of_join. exists morph_tag. split; [done|].
    apply list_elem_of_join. exists (morph_tags sentence). split; [done|].
    apply list_elem_of_fmap. by exists sentence.
Qed.

End Enumeration.

End VocabularyFacts.

(** X15.  A vocabulary that [create_vocabs] fills from its reserved symbols
    alone, with symbols of the data that differ from them, numbers its
    symbols without gap or clash: the reserved symbols keep the ids 0, 1,
    ... in their order, the symbols of the data follow in the order of
    iteration, two symbols never share an id, every id below the size
    belongs to a symbol, and the vocabulary holds the reserved symbols and
    the symbols of the data and nothing else. *)
Theorem fresh_vocabulary_is_dense
    (set_order : list string -> list string)
    (sentences : list Vocabularies.Sentence)
    (surface_char2id lemma_char2id morph_tag2id transformation2id
       : option (gmap string nat))
    (max_sentences : nat) :
  enumerates set_order ->
  let self :=
    Vocabularies.init set_order sentences surface_char2id lemma_char2id
      morph_tag2id transformation2id "train" max_sentences in
  let data := kept_sentences sentences max_sentences in
  (not_supplied surface_char2id ->
   numbered [ConllDataset.PAD_token; ConllDataset.EOS_token]
     (surface_char_of data) (Vocabularies.surface_char2id self))
  ∧ (not_supplied lemma_char2id ->
     numbered
       [ConllDataset.PAD_token; ConllDataset.EOS_token;
        ConllDataset.START_TAG]
       (lemma_char_of data) (Vocabularies.lemma_char2id self))
  ∧ (not_supplied morph_tag2id ->
     (∀ tag, tag_of data tag ->
        tag ∉ [ConllDataset.PAD_token; ConllDataset.EOS_token;
               ConllDataset.START_TAG]) ->
     numbered
       [ConllDataset.PAD_token; ConllDataset.EOS_token;
        ConllDataset.START_TAG]
       (tag_of data) (Vocabularies.morph_tag2id self)).
Proof.
  intros Henum self data. subst self. unfold Vocabularies.init.
  fold (kept_sentences sentences max_sentences). fold data.
  rewrite decide_True by done. unfold Vocabularies.create_vocabs.
  simpl.
  assert (Hreserved3 : NoDup [ConllDataset.PAD_token; ConllDataset.EOS_token;
                              ConllDataset.START_TAG]).
  { repeat constructor; rewrite ?elem_of_cons, ?elem_of_nil;
      intros H; repeat destruct H as [H|H]; try discriminate; done. }
  assert (Hreserved2 : NoDup [ConllDataset.PAD_token;
                              ConllDataset.EOS_token]).
  { repeat constructor; rewrite ?elem_of_cons, ?elem_of_nil;
      intros H; repeat destruct H as [H|H]; try discriminate; done. }
  assert (Hchar : ∀ (ch : string) (reserved : list string),
            String.length ch = 1 ->
            Forall (fun s => String.length s = 3) reserved ->
            ch ∉ reserved).
  { intros ch reserved Hlen Hall Hin. rewrite Forall_forall in Hall.
    apply Hall in Hin. lia. }
  split_and!.
  - intros Hfresh. rewrite supplied_or_fresh by done.
    destruct (fresh_numbered
                [ConllDataset.PAD_token; ConllDataset.EOS_token]
                (set_order (mjoin (chars <$> set_order
                   (mjoin (Vocabularies.surface_words <$> data))))))
      as (Hd & Hpos & Hdom); try done.
    { apply Henum. }
    { intros ch (word & _ & Hch%chars_one)%(elem_of_unique_chars _ Henum).
      apply Hchar; [done|]. by repeat constructor. }
    split_and!; try done. intros s. rewrite Hdom.
    by rewrite (elem_of_sentence_chars _ Henum).
  - intros Hfresh. rewrite supplied_or_fresh by done.
    destruct (fresh_numbered
                [ConllDataset.PAD_token; ConllDataset.EOS_token;
                 ConllDataset.START_TAG]
                (set_order (mjoin (chars <$> set_order
                   (mjoin (Vocabularies.lemmas <$> data))))))
      as (Hd & Hpos & Hdom); try done.
    { apply Henum. }
    { intros ch (word & _ & Hch%chars_one)%(elem_of_unique_chars _ Henum).
      apply Hchar; [done|]. by repeat constructor. }
    split_and!; try done. intros s. rewrite Hdom.
    by rewrite (elem_of_sentence_chars _ Henum).
  - intros Hfresh Htags. rewrite supplied_or_fresh by done.
    pose proof (elem_of_sentence_tags _ Henum data) as Hin.
    destruct (fresh_numbered
                [ConllDataset.PAD_token; ConllDataset.EOS_token;
                 ConllDataset.START_TAG]
                (set_order (mjoin (mjoin (Vocabularies.morph_tags
                                            <$> data)))))
      as (Hd & Hpos & Hdom); try done.
    { apply Henum. }
    { intros tag Htag%Hin. by apply Htags. }
    split_and!; try done. intros s. by rewrite Hdom, Hin.
Qed.

Lemma fresh_vocabulary_is_dense_witness :
  numbered [ConllDataset.PAD_token; ConllDataset.EOS_token]
    (surface_char_of (kept_sentences toy_sentences 0))
    (Vocabularies.surface_char2id
       (Vocabularies.init remove_dups toy_sentences None None None None
          "train" 0))
  ∧ numbered
      [ConllDataset.PAD_token; ConllDataset.EOS_token;
       ConllDataset.START_TAG]
      (lemma_char_of (kept_sentences toy_sentences 0))
      (Vocabularies.lemma_char2id
         (Vocabularies.init remove_dups toy_sentences None None None None
            "train" 0))
  ∧ numbered
      [ConllDataset.PAD_token; ConllDataset.EOS_token;
       ConllDataset.START_TAG]
      (tag_of (kept_sentences toy_sentences 0))
      (Vocabularies.morph_tag2id
         (Vocabularies.init remove_dups toy_sentences None None None None
            "train" 0)).
Proof.
  destruct (fresh_vocabulary_is_dense remove_dups toy_sentences None None
              None None 0) as (Hsurface & Hlemma & Htag).
  { intros xs. split; [apply NoDup_remove_dups|].
    intros x. apply elem_of_remove_dups. }
  split_and!.
  - apply Hsurface. by left.
  - apply Hlemma. by left.
  - apply Htag; [by left|].
    intros tag (sentence & morph_tag & Hs & Hm & Ht).
    unfold kept_sentences, toy_sentences in Hs. simpl in Hs.
    repeat match goal with
           | H : _ ∈ _ :: _ |- _ => apply elem_of_cons in H as [->|H]; simpl in *
           | H : _ ∈ [] |- _ => by apply elem_of_nil in H
           end;
      rewrite !elem_of_cons, elem_of_nil;
      intros H; repeat destruct H as [H|H]; done.
Defined.

Section Renumbering.
Import Vocabularies.

Lemma size_assign_le (vocab : gmap string nat) (symbol : string) :
  size vocab <= size (assign vocab symbol).
Proof. rewrite size_assign. case_decide; lia. Qed.

Lemma size_assign_all_le (symbols : list string) :
  ∀ vocab : gmap string nat, size vocab <= size (assign_all vocab symbols).
Proof.
  induction symbols as [|symbol symbols IH]; intros vocab; simpl; [done|].
  etrans; [apply (size_assign_le vocab symbol)|apply IH].
Qed.

Lemma assign_all_other (symbols : list string) :
  ∀ (vocab : gmap string nat) (s : string),
  s ∉ symbols -> assign_all vocab symbols !! s = vocab !! s.
Proof.
  induction symbols as [|symbol symbols IH]; intros vocab s Hs; [done|].
  apply not_elem_of_cons in Hs as [Hne Hs].
  change (assign_all vocab (symbol :: symbols))
    with (assign_all (assign vocab symbol) symbols).
  rewrite IH by done. rewrite assign_lookup. by rewrite decide_False.
Qed.

Lemma assign_all_ids (symbols : list string) :
  ∀ (vocab : gmap string nat) (s : string),
  s ∈ symbols ->
  ∃ id, assign_all vocab symbols !! s = Some id ∧ size vocab <= id.
Proof.
  induction symbols as [|symbol symbols IH]; intros vocab s Hs.
  { by apply elem_of_nil in Hs. }
  change (assign_all vocab (symbol :: symbols))
    with (assign_all (assign vocab symbol) symbols).
  destruct (decide (s ∈ symbols)) as [Hin|Hnotin].
  - destruct (IH (assign vocab symbol) s Hin) as (id & Hid & Hle).
    exists id. split; [done|].
    pose proof (size_assign_le vocab symbol). lia.
  - apply elem_of_cons in Hs as [->|Hs]; [|done].
    exists (size vocab). split; [|done].
    rewrite assign_all_other by done. rewrite assign_lookup.
    by rewrite decide_True.
Qed.

Lemma assign_all_known (symbols : list string) :
  ∀ vocab : gmap string nat,
  Forall (fun s => is_Some (vocab !! s)) symbols ->
  size (assign_all vocab symbols) = size vocab
  ∧ ∀ s, s ∈ symbols -> assign_all vocab symbols !! s = Some (size vocab).
Proof.
  induction symbols as [|symbol symbols IH]; intros vocab Hall.
  { split; [done|]. by intros s ?%elem_of_nil. }
  apply Forall_cons in Hall as [Hsym Hall].
  change (assign_all vocab (symbol :: symbols))
    with (assign_all (assign vocab symbol) symbols).
  assert (Hsize : size (assign vocab symbol) = size vocab).
  { rewrite size_assign. by rewrite decide_True. }
  destruct (IH (assign vocab symbol)) as [Hs Hids].
  { eapply Forall_impl; [exact Hall|]. intros s Hs.
    rewrite assign_lookup. by case_decide. }
  rewrite Hsize in Hs, Hids. split; [done|].
  intros s Hin. destruct (decide (s ∈ symbols)) as [Hin'|Hnotin].
  - by apply Hids.
  - apply elem_of_cons in Hin as [->|Hin]; [|done].
    rewrite assign_all_other by done. rewrite assign_lookup.
    by rewrite decide_True.
Qed.

Lemma assign_all_renumbered (vocab : gmap string nat)
    (symbols : list string) (in_data : string -> Prop) :
  (∀ s, s ∈ symbols <-> in_data s) ->
  renumbered vocab in_data (assign_all vocab symbols).
Proof.
  intros Hin. split_and!.
  - intros s Hs%Hin. by apply assign_all_ids.
  - intros Hknown s Hs%Hin. apply assign_all_known; [|done].
    apply Forall_forall. intros s' Hs'%Hin. by apply Hknown.
  - intros s Hs. apply assign_all_other. by rewrite Hin.
Qed.

End Renumbering.

(** X16.  The loops of [create_vocabs] over characters and tags assign
    without looking: a symbol of the data that the vocabulary already holds
    is given the size of the vocabulary as its new id.  So after training
    mode on a supplied vocabulary no symbol of the data has an id below the
    size of that vocabulary, and when the data brings no new symbol, all its
    symbols share one id. *)
Theorem known_symbols_are_renumbered
    (set_order : list string -> list string)
    (sentences : list Vocabularies.Sentence)
    (surface_char2id lemma_char2id morph_tag2id : gmap string nat)
    (transformation2id : option (gmap string nat))
    (max_sentences : nat) :
  enumerates set_order ->
  surface_char2id ≠ ∅ ->
  lemma_char2id ≠ ∅ ->
  morph_tag2id ≠ ∅ ->
  let self :=
    Vocabularies.init set_order sentences (Some surface_char2id)
      (Some lemma_char2id) (Some morph_tag2id) transformation2id "train"
      max_sentences in
  let data := kept_sentences sentences max_sentences in
  renumbered surface_char2id (surface_char_of data)
    (Vocabularies.surface_char2id self)
  ∧ renumbered lemma_char2id (lemma_char_of data)
      (Vocabularies.lemma_char2id self)
  ∧ renumbered morph_tag2id (tag_of data) (Vocabularies.morph_tag2id self).
Proof.
  intros Henum Hs Hl Hm self data. subst self. unfold Vocabularies.init.
  fold (kept_sentences sentences max_sentences). fold data.
  rewrite decide_True by done. rewrite !supplied_or_given by done.
  unfold Vocabularies.create_vocabs. simpl. split_and!.
  - apply assign_all_renumbered. intros s.
    apply (elem_of_sentence_chars _ Henum).
  - apply assign_all_renumbered. intros s.
    apply (elem_of_sentence_chars _ Henum).
  - apply assign_all_renumbered. intros s.
    apply (elem_of_sentence_tags _ Henum).
Qed.

Lemma known_symbols_are_renumbered_witness :
  renumbered abc_vocab (surface_char_of (kept_sentences toy_sentences 0))
    (Vocabularies.surface_char2id
       (Vocabularies.init remove_dups toy_sentences (Some abc_vocab)
          (Some abc_vocab) (Some abc_vocab) None "train" 0))
  ∧ renumbered abc_vocab (lemma_char_of (kept_sentences toy_sentences 0))
      (Vocabularies.lemma_char2id
         (Vocabularies.init remove_dups toy_sentences (Some abc_vocab)
            (Some abc_vocab) (Some abc_vocab) None "train" 0))
  ∧ renumbered abc_vocab (tag_of (kept_sentences toy_sentences 0))
      (Vocabularies.morph_tag2id
         (Vocabularies.init remove_dups toy_sentences (Some abc_vocab)
            (Some abc_vocab) (Some abc_vocab) None "train" 0)).
Proof.
  apply (known_symbols_are_renumbered remove_dups toy_sentences abc_vocab
           abc_vocab abc_vocab None 0).
  - intros xs. split; [apply NoDup_remove_dups|].
    intros x. apply elem_of_remove_dups.
  - intros H. by apply (f_equal (fun m => m !! "a")) in H.
  - intros H. by apply (f_equal (fun m => m !! "a")) in H.
  - intros H. by apply (f_equal (fun m => m !! "a")) in H.
Defined.

Section Transformations.
Import Vocabularies.

Lemma assign_new_all (labels : list string) :
  ∀ vocab : gmap string nat,
  (∀ s id, vocab !! s = Some id ->
     foldl assign_new vocab labels !! s = Some id)
  ∧ (∀ s, is_Some (foldl assign_new vocab labels !! s)
          <-> is_Some (vocab !! s) ∨ s ∈ labels)
  ∧ (dense vocab -> dense (foldl assign_new vocab labels)).
Proof.
  induction labels as [|label labels IH]; intros vocab.
  { simpl. split_and!; try done. intros s. rewrite elem_of_nil. tauto. }
  simpl. destruct (IH (assign_new vocab label)) as (Hold & Hdom & Hdense).
  assert (Hstep : ∀ s id, vocab !! s = Some id ->
            assign_new vocab label !! s = Some id).
  { intros s id Hs. unfold assign_new. case_decide as Hin; [done|].
    rewrite assign_lookup. rewrite decide_False; [done|].
    intros ->. apply Hin. by eexists. }
  split_and!.
  - intros s id Hs. by apply Hold, Hstep.
  - intros s. rewrite Hdom, elem_of_cons. unfold assign_new.
    case_decide as Hin.
    + split; [tauto|]. intros [?|[->|?]]; auto.
    + rewrite assign_lookup. case_decide as Heq.
      * subst. split; [auto|]. intros _. left. by eexists.
      * split; [tauto|]. intros [?|[?|?]]; auto. congruence.
  - intros Hd. apply Hdense. unfold assign_new. case_decide as Hin; [done|].
    apply dense_assign; [done|]. by apply eq_None_not_Some.
Qed.

End Transformations.

(** X17.  The loop of [create_vocabs] over transformations looks before it
    assigns: the entries of a supplied vocabulary are kept, every label of
    the data gets an id, and a vocabulary that numbered its symbols without
    gap or clash still does so afterwards. *)
Theorem transformations_keep_their_ids
    (set_order : list string -> list string)
    (sentences : list Vocabularies.Sentence)
    (surface_char2id lemma_char2id morph_tag2id transformation2id
       : option (gmap string nat))
    (max_sentences : nat) :
  let self :=
    Vocabularies.init set_order sentences surface_char2id lemma_char2id
      morph_tag2id transformation2id "train" max_sentences in
  let data := kept_sentences sentences max_sentences in
  (not_supplied transformation2id ->
   numbered [ConllDataset.PAD_token] (transformation_of data)
     (Vocabularies.transformation2id self))
  ∧ ∀ supplied, transformation2id = Some supplied -> supplied ≠ ∅ ->
      (∀ s id, supplied !! s = Some id ->
         Vocabularies.transformation2id self !! s = Some id)
      ∧ (∀ s, is_Some (Vocabularies.transformation2id self !! s)
              <-> is_Some (supplied !! s) ∨ transformation_of data s)
      ∧ (dense supplied -> dense (Vocabularies.transformation2id self)).
Proof.
  intros self data. subst self. unfold Vocabularies.init.
  fold (kept_sentences sentences max_sentences). fold data.
  rewrite decide_True by done. unfold Vocabularies.create_vocabs. simpl.
  assert (Hin : ∀ s,
            s ∈ mjoin (mjoin (Vocabularies.transformations <$> data))
            <-> transformation_of data s).
  { intros s. unfold transformation_of. split.
    - intros (transformation & Hs & Ht)%list_elem_of_join.
      apply list_elem_of_join in Ht as (l & Ht & Hl).
      apply list_elem_of_fmap in Hl as (sentence & -> & Hsen).
      by exists sentence, transformation.
    - intros (sentence & transformation & Hsen & Ht & Hs).
      apply list_elem_of_join. exists transformation. split; [done|].
      apply list_elem_of_join.
      exists (Vocabularies.transformations sentence). split; [done|].
      apply list_elem_of_fmap. by exists sentence. }
  split.
  - intros Hfresh. rewrite (supplied_or_fresh transformation2id) by done.
    destruct (assign_new_all
                (mjoin (mjoin (Vocabularies.transformations <$> data)))
                (Vocabularies.assign_all ∅ [ConllDataset.PAD_token]))
      as (Hold & Hdom & Hdense).
    assert (Hpad : ∀ s, is_Some (Vocabularies.assign_all ∅
                                   [ConllDataset.PAD_token] !! s)
                        <-> s ∈ [ConllDataset.PAD_token]).
    { intros s. simpl. rewrite assign_lookup, list_elem_of_singleton.
      case_decide as Heq.
      - split; [done|]. by eexists.
      - rewrite lookup_empty. split; [by intros [? ?]|done]. }
    split_and!.
    + apply Hdense. simpl. apply dense_assign; [apply dense_empty|].
      apply lookup_empty.
    + intros [|i] s Hi; [|done]. injection Hi as <-. apply Hold.
      simpl. rewrite assign_lookup, map_size_empty. by rewrite decide_True.
    + intros s. by rewrite Hdom, Hpad, Hin.
  - intros supplied -> Hne. rewrite supplied_or_given by done.
    destruct (assign_new_all
                (mjoin (mjoin (Vocabularies.transformations <$> data)))
                supplied) as (Hold & Hdom & Hdense).
    split_and!; try done. intros s. by rewrite Hdom, Hin.
Qed.

(** ** Predicting whole files *)

Section FileFacts.
Variable inverse_transformation : string -> list string -> string.
Variable from_pretrained : Tokenizer.

(** A run of [predict_sentence] on a sentence with a word returns only with
    the transformer in use and with a tag decoder of the kind
    [use_rnn_morph] announces. *)
Lemma predict_sentence_Ok_flags (surface_words : list string)
    (encoder : EncoderRNN.t) (decoder_lemma : LemmaDecoder)
    (decoder_morph_tags : MorphDecoder) (dataset : ConllDataset.t)
    (use_transformer use_char_lstm : bool) (tokenizer : option Tokenizer)
    (use_rnn_morph : bool) (max_morph_features_len : nat)
    (surface2lemma : option (gmap string string))
    (calls : list call) (s : string) :
  surface_words ≠ [] ->
  predict_sentence inverse_transformation from_pretrained surface_words
    encoder decoder_lemma decoder_morph_tags dataset use_transformer
    use_char_lstm tokenizer use_rnn_morph max_morph_features_len
    surface2lemma = (calls, Ok s) ->
  use_transformer = true
  ∧ match decoder_morph_tags with
    | MorphDecoderRNN _ => use_rnn_morph = true
    | MorphDecoderFF _ => use_rnn_morph = false
    end.
Proof.
  intros Hne. unfold predict_sentence.
  rewrite length_eqb_0 by done.
  intros H.
  apply traced_bind_Ok in H as (l1 & encoded_surfaces & ? & H1 & H & ->).
  apply traced_bind_Ok in H as (l2 & [sub_tokens word_ids] & ? & H2 & H & ->).
  apply traced_bind_Ok in H
    as (l3 & [[transformer_output word_representations]
              context_aware_representations] & ? & H3 & H & ->).
  apply traced_bind_Ok in H as (l4 & decoded & ? & H4 & H & ->).
  apply traced_bind_Ok in H as (l5 & morph_features & ? & H5 & H & ->).
  apply lift_Ok in H1 as [Henc%encode_surfaces_length _].
  apply lift_Ok in H2 as [H2 _].
  apply invoke_Ok in H3 as [[_ Hctx]%forward_rows _].
  rewrite Henc in Hctx. rewrite Hctx in H5.
  split; [by destruct use_transformer|].
  apply traced_mapM_Ok in H5.
  destruct surface_words as [|w ws]; [done|].
  simpl in H5. apply Forall2_cons_inv_l in H5 as (y & ? & [c Hy] & _).
  by apply decode_morph_calls in Hy as [_ ?].
Qed.

Lemma empty_lines_S (n : nat) :
  empty_lines (S n) = newline +:+ empty_lines n.
Proof. unfold empty_lines. simpl replicate. apply join_empty_cons. Qed.

(** When no sentence with a word is ever predicted, the loop writes an empty
    line for each leading empty sentence and stops at the first sentence
    with a word. *)
Lemma write_predictions_stuck (predict_one : list string -> traced string) :
  predict_one [] = ([], Ok EmptyString) ->
  (∀ sentence calls s,
     sentence ≠ [] -> predict_one sentence ≠ (calls, Ok s)) ->
  ∀ (data_surface_words : list (list string)) (f : string)
    (calls : list call),
  ∃ calls' outcome,
    write_predictions predict_one data_surface_words f calls
    = (f +:+ empty_lines (leading_empty data_surface_words),
       (calls', outcome))
    ∧ (outcome = Ok tt
       <-> Forall (fun sentence => sentence = []) data_surface_words).
Proof.
  intros Hnil Hstuck data.
  induction data as [|sentence data IH]; intros f calls.
  - exists calls, (Ok tt). simpl. unfold empty_lines. simpl.
    change (join EmptyString []) with EmptyString.
    rewrite string_app_nil_r. split; [done|]. split; [by constructor|done].
  - destruct sentence as [|word sentence].
    + simpl write_predictions. rewrite Hnil.
      destruct (IH (f +:+ EmptyString +:+ newline) (calls ++ []))
        as (calls' & outcome & Hw & Hiff).
      exists calls', outcome. rewrite Hw. split.
      * simpl leading_empty. rewrite empty_lines_S.
        change (EmptyString +:+ newline) with newline.
        by rewrite string_app_assoc.
      * rewrite Hiff. split; [by constructor|].
        by intros [_ ?]%Forall_cons.
    + simpl write_predictions.
      destruct (predict_one (word :: sentence)) as [l [s|e]] eqn:Hone.
      { by apply Hstuck in Hone. }
      exists (calls ++ l), (Err e). split.
      * simpl. unfold empty_lines. simpl.
        change (join EmptyString []) with EmptyString.
        by rewrite string_app_nil_r.
      * split; [done|]. by intros [? _]%Forall_cons.
Qed.

End FileFacts.

(** X18.  [predict] gives [predict_sentence] a recurrent tag decoder and
    leaves [use_rnn_morph] at its default, so no sentence with a word is
    ever predicted: what reaches the output file is one empty line per empty
    sentence that comes before the first sentence with a word, and the call
    returns only when every sentence is empty. *)
Theorem predict_writes_no_record
    (inverse_transformation : string -> list string -> string)
    (from_pretrained : Tokenizer) (train_set : ConllDataset.t)
    (encoder : EncoderRNN.t) (decoder_lemma : TransformerRNN.t)
    (decoder_morph_tags : DecoderRNN.t) (use_transformer use_char_lstm : bool)
    (data_surface_words : list (list string)) :
  ∃ calls outcome,
    predict inverse_transformation from_pretrained train_set encoder
      decoder_lemma decoder_morph_tags use_transformer use_char_lstm
      data_surface_words
    = (empty_lines (leading_empty data_surface_words), (calls, outcome))
    ∧ (outcome = Ok tt
       <-> Forall (fun sentence => sentence = []) data_surface_words).
Proof.
  unfold predict.
  apply (write_predictions_stuck
           (fun sentence =>
              predict_sentence inverse_transformation from_pretrained
                sentence encoder (LemmaTransformerRNN decoder_lemma)
                (MorphDecoderRNN decoder_morph_tags) train_set
                use_transformer use_char_lstm
                (if use_transformer then Some from_pretrained else None)
                false 10 (Some ∅))).
  - reflexivity.
  - intros sentence calls s Hne H.
    by apply predict_sentence_Ok_flags in H as [_ ?].
Qed.

(** X19.  [predict_unimorph] builds a recurrent tag decoder when
    [use_rnn_morph] is set but does not pass the flag on to
    [predict_sentence].  With [use_rnn_morph] set, or with [use_transformer]
    off, no sentence with a word is ever predicted: the output holds one
    empty line per empty sentence that comes before the first sentence with
    a word, and the loop ends well only when every sentence is empty. *)
Theorem predict_unimorph_needs_default_flags
    (inverse_transformation : string -> list string -> string)
    (from_pretrained : Tokenizer) (train_set : ConllDataset.t)
    (encoder : EncoderRNN.t) (lemma_rnn : DecoderRNN.t)
    (lemma_transformer : TransformerRNN.t) (morph_rnn : DecoderRNN.t)
    (morph_ff : DecoderFF.t) (read_surface_lemma_map : gmap string string)
    (non_transformer_language : bool)
    (use_surface_lemma_mapping use_min_edit_operation_decoder : bool)
    (use_transformer use_char_lstm use_rnn_morph : bool)
    (data_surface_words : list (list string)) :
  use_transformer = false ∨ use_rnn_morph = true ->
  ∃ calls outcome,
    predict_unimorph inverse_transformation from_pretrained train_set
      encoder lemma_rnn lemma_transformer morph_rnn morph_ff
      read_surface_lemma_map non_transformer_language
      use_surface_lemma_mapping use_min_edit_operation_decoder
      use_transformer use_char_lstm use_rnn_morph data_surface_words
    = (empty_lines (leading_empty data_surface_words), (calls, outcome))
    ∧ (outcome = Ok tt
       <-> Forall (fun sentence => sentence = []) data_surface_words).
Proof.
  intros Hflags. unfold predict_unimorph.
  apply (write_predictions_stuck
           (fun sentence =>
              predict_sentence inverse_transformation from_pretrained
                sentence encoder _ _ train_set use_transformer
                use_char_lstm _ false 10 _)).
  - reflexivity.
  - intros sentence calls s Hne H.
    apply predict_sentence_Ok_flags in H as [Ht Hkind]; [|done].
    destruct Hflags as [->| ->]; [done|]. done.
Qed.

Lemma predict_unimorph_needs_default_flags_witness :
  ∃ calls outcome,
    predict_unimorph keep_surface toy_tokenizer toy_dataset toy_encoder
      spell_abc toy_labeler spell_abc tagger canine false true true true
      true true [[]; ["dog$"]; []]
    = (empty_lines (leading_empty [[]; ["dog$"]; []]), (calls, outcome))
    ∧ (outcome = Ok tt
       <-> Forall (fun sentence => sentence = []) [[]; ["dog$"]; []]).
Proof.
  apply (predict_unimorph_needs_default_flags keep_surface toy_tokenizer
           toy_dataset toy_encoder spell_abc toy_labeler spell_abc tagger
           canine false true true true true true [[]; ["dog$"]; []]).
  by right.
Defined.

(** ** Teacher forcing and greedy decoding *)

Section TeacherForcing.
Import DecoderRNN DecoderRNNForward.
Variable dec : t.

Lemma predict_loop_unroll (steps : nat) :
  ∀ (predicted_token : nat) (hidden : Hidden) (run : GreedyRun),
  predict_loop dec steps predicted_token hidden empty_run = Ok run ->
  classifier dec
    <$> unroll dec
          (embedding dec
             <$> take (length (run_tokens run))
                   (predicted_token :: run_tokens run))
          hidden
  = run_scores run.
Proof.
  induction steps as [|steps IH]; intros tok h run Hrun.
  { by simplify_eq/=. }
  simpl in Hrun. destruct (gru dec (embedding dec tok) h) as [output h'] eqn:Hg.
  destruct (topk 1 (classifier dec output)) as [top|e]; [|done].
  simpl in Hrun. destruct top as [|[topi v] top]; [done|].
  destruct (topi =? 1).
  { simplify_eq/=. by rewrite Hg. }
  assert (Hrest : ∀ run1,
            predict_loop dec steps topi h' run1 = Ok run ->
            run_scores run1 = [classifier dec output] ->
            run_tokens run1 = [topi] ->
            classifier dec
              <$> unroll dec
                    (embedding dec
                       <$> take (length (run_tokens run))
                             (tok :: run_tokens run)) h
            = run_scores run).
  { intros run1 H1 Hs1 Ht1. rewrite predict_loop_shift in H1.
    apply bind_Ok in H1 as (r & Hr & [= <-]). simpl.
    rewrite Hs1, Ht1. simpl. rewrite Hg. simpl. f_equal.
    by apply IH. }
  destruct (2 <? topi).
  - destruct (index2token dec !! topi) as [token|]; [|done].
    simpl in Hrun. by eapply Hrest.
  - by eapply Hrest.
Qed.

End TeacherForcing.

(** X20.  In evaluation mode [DecoderRNN.forward], given the start symbol
    followed by the ids a greedy run predicted, the last one left out,
    returns the score rows of that run: teacher forcing with the greedy
    symbols retraces greedy decoding. *)
Theorem teacher_forcing_reproduces_greedy (dec : DecoderRNN.t)
    (word_embedding context_vector : Vec) (transformer_context : option Vec)
    (max_len : nat) (run : DecoderRNN.GreedyRun) :
  DecoderRNN.predict_run dec word_embedding context_vector
    transformer_context max_len = Ok run ->
  DecoderRNNForward.forward dec [word_embedding] [context_vector]
    [take (length (DecoderRNN.run_tokens run))
       (2 :: DecoderRNN.run_tokens run)]
    ((fun tc => [tc]) <$> transformer_context)
  = Ok [DecoderRNN.run_scores run].
Proof.
  unfold DecoderRNN.predict_run. intros Hrun.
  apply predict_loop_unroll in Hrun.
  unfold DecoderRNNForward.forward.
  destruct transformer_context as [tc|]; simpl;
    unfold DecoderRNNForward.forward_word; by rewrite Hrun.
Qed.

Lemma teacher_forcing_reproduces_greedy_witness :
  DecoderRNNForward.forward spell_abc [[]] [[]] [take 4 [2; 3; 4; 5; 1]]
    ((fun tc => [tc]) <$> None)
  = Ok [[one_hot 3; one_hot 4; one_hot 5; one_hot 1]].
Proof.
  apply (teacher_forcing_reproduces_greedy spell_abc [] [] None 4
           (DecoderRNN.mkGreedyRun
              [one_hot 3; one_hot 4; one_hot 5; one_hot 1] [3; 4; 5; 1]
              ["a"; "b"; "c"])).
  vm_compute. reflexivity.
Defined.

(** ** The tensors of one training sentence *)

Section GetItemFacts.
Import Vocabularies GetItem.

Lemma encode_rows_Ok (vocab : gmap string nat)
    (add_start_tag add_end_tag : bool) (width : nat)
    (seqs : list (list string)) :
  ∀ (ix : nat) (tensor out : list (list nat)),
  encode_rows vocab add_start_tag add_end_tag width ix seqs tensor = Ok out
  <-> (seqs = [] ∨ ix + length seqs <= length tensor)
      ∧ ∃ encs,
          Forall2 (fun seq encoded =>
                     ConllDataset.encode seq vocab add_start_tag add_end_tag
                     = Ok encoded
                     ∧ length encoded <= width) seqs encs
          ∧ out = take ix tensor ++ (padded width <$> encs)
                  ++ drop (ix + length seqs) tensor.
Proof.
  induction seqs as [|seq seqs IH]; intros ix tensor out.
  - simpl. rewrite Nat.add_0_r. split.
    + intros [= <-]. split; [by left|]. exists []. split; [constructor|].
      simpl. by rewrite take_drop.
    + intros (_ & encs & ->%Forall2_nil_inv_l & ->). simpl.
      by rewrite take_drop.
  - simpl. split.
    + intros (encoded & Henc & H)%bind_Ok.
      destruct (tensor !! ix) as [row|] eqn:Hrow; [|done].
      case_decide as Hfit; [|done].
      apply IH in H as (Hlen & encs & Hall & ->).
      pose proof (lookup_lt_Some _ _ _ Hrow) as Hix.
      rewrite length_insert in Hlen. split.
      * right. destruct Hlen as [->|Hlen]; simpl; lia.
      * exists (encoded :: encs). split; [by constructor|].
        rewrite take_insert_lt by lia. rewrite take_S_r with (x := row)
          by done.
        rewrite insert_app_r_alt by (rewrite length_take; lia).
        rewrite length_take, Nat.min_l by lia. rewrite Nat.sub_diag. simpl.
        rewrite drop_insert_lt by lia. rewrite <- app_assoc. simpl.
        do 3 f_equal. f_equal. lia.
    + intros (Hlen & encs & Hall & ->).
      apply Forall2_cons_inv_l in Hall
        as (encoded & encs' & [Henc Hfit] & Hall & ->).
      rewrite Henc. simpl.
      destruct Hlen as [?|Hlen]; [done|]. simpl in Hlen.
      destruct (lookup_lt_is_Some_2 tensor ix) as [row Hrow]; [lia|].
      rewrite Hrow. rewrite decide_True by done.
      apply IH. split.
      * right. rewrite length_insert. lia.
      * exists encs'. split; [done|].
        rewrite take_insert_lt by lia. rewrite take_S_r with (x := row)
          by done.
        rewrite insert_app_r_alt by (rewrite length_take; lia).
        rewrite length_take, Nat.min_l by lia. rewrite Nat.sub_diag. simpl.
        rewrite drop_insert_lt by lia. rewrite <- app_assoc. simpl.
        do 3 f_equal. f_equal. lia.
Qed.

Lemma encode_rows_overflow (vocab : gmap string nat)
    (add_start_tag add_end_tag : bool) (width : nat)
    (seqs : list (list string)) :
  ∀ (ix : nat) (tensor : list (list nat)) (encs : list (list nat)),
  ix + length seqs <= length tensor ->
  Forall2 (fun seq encoded =>
             ConllDataset.encode seq vocab add_start_tag add_end_tag
             = Ok encoded) seqs encs ->
  Exists (fun encoded => width < length encoded) encs ->
  encode_rows vocab add_start_tag add_end_tag width ix seqs tensor
  = Err RuntimeError.
Proof.
  induction seqs as [|seq seqs IH]; intros ix tensor encs Hlen Hall Hex.
  { apply Forall2_nil_inv_l in Hall as ->. by apply Exists_nil in Hex. }
  apply Forall2_cons_inv_l in Hall as (encoded & encs' & Henc & Hall & ->).
  simpl in *. rewrite Henc. simpl.
  destruct (lookup_lt_is_Some_2 tensor ix) as [row Hrow]; [lia|].
  rewrite Hrow. case_decide as Hfit; [|done].
  apply Exists_cons in Hex as [Hex|Hex]; [lia|].
  apply (IH _ _ encs'); [|done|done]. rewrite length_insert. lia.
Qed.

Lemma padded_length (width : nat) (encoded : list nat) :
  length encoded <= width -> length (padded width encoded) = width.
Proof.
  intros Hfit. unfold padded. rewrite length_app, length_replicate. lia.
Qed.

(** Filling a tensor of zeros that has one row per sequence. *)
Lemma encode_rows_zeros (vocab : gmap string nat)
    (add_start_tag add_end_tag : bool) (width : nat)
    (seqs : list (list string)) (encs : list (list nat)) :
  Forall2 (fun seq encoded =>
             ConllDataset.encode seq vocab add_start_tag add_end_tag
             = Ok encoded ∧ length encoded <= width) seqs encs ->
  encode_rows vocab add_start_tag add_end_tag width 0 seqs
    (replicate (length seqs) (replicate width 0))
  = Ok (padded width <$> encs)
  ∧ has_shape (length seqs) width (padded width <$> encs).
Proof.
  intros Hall. split.
  - apply encode_rows_Ok. split; [right; rewrite length_replicate; lia|].
    exists encs. split; [done|]. simpl.
    rewrite drop_ge by (rewrite length_replicate; lia).
    by rewrite app_nil_r.
  - split.
    + rewrite length_fmap. symmetry. by eapply Forall2_length.
    + apply Forall_fmap. eapply Forall2_Forall_r; [exact Hall|].
      apply Forall_forall. intros seq _ encoded [_ Hfit]. simpl.
      by apply padded_length.
Qed.

(** With the reserved symbols it needs, [encode] returns, and what it
    returns is no longer than the sequence and the added symbols. *)
Lemma encode_bounded (vocab : gmap string nat)
    (add_start_tag add_end_tag : bool) (seq : list string) :
  (add_start_tag = true -> is_Some (vocab !! ConllDataset.START_TAG)) ->
  (add_end_tag = true -> is_Some (vocab !! ConllDataset.EOS_token)) ->
  ∃ encoded,
    ConllDataset.encode seq vocab add_start_tag add_end_tag = Ok encoded
    ∧ length encoded
      <= length seq + Nat.b2n add_start_tag + Nat.b2n add_end_tag.
Proof.
  intros Hs He.
  destruct (ConllDataset.encode seq vocab add_start_tag add_end_tag)
    as [encoded|e] eqn:Henc.
  - exists encoded. split; [done|].
    apply encode_Ok in Henc as (pre & post & Hpre & Hpost & ->).
    rewrite !length_app.
    pose proof (length_omap_le (fun token => vocab !! token) seq).
    assert (length pre = Nat.b2n add_start_tag).
    { destruct add_start_tag; [by destruct Hpre as (v & _ & ->)|by subst]. }
    assert (length post = Nat.b2n add_end_tag).
    { destruct add_end_tag; [by destruct Hpost as (v & _ & ->)|by subst]. }
    lia.
  - apply encode_Err in Henc as [_ [[-> Hn]|[-> Hn]]].
    + destruct Hs as [? ?]; congruence.
    + destruct He as [? ?]; congruence.
Qed.

Lemma max_list_shift (k : nat) (ns : list nat) :
  ns ≠ [] -> max_list ((fun n => n + k) <$> ns) = max_list ns + k.
Proof.
  induction ns as [|n ns IH]; [done|]. intros _.
  destruct ns as [|m ns]; [simpl; lia|].
  change (max_list ((fun n => n + k) <$> n :: m :: ns))
    with ((n + k) `max` max_list ((fun n => n + k) <$> m :: ns)).
  rewrite IH by done. change (max_list (n :: m :: ns))
    with (n `max` max_list (m :: ns)). lia.
Qed.

Lemma max_of_shift {A : Type} (size : A -> nat) (k : nat) (xs : list A) :
  xs ≠ [] ->
  max_of ((fun x => size x + k) <$> xs) = inr (max_list (size <$> xs) + k).
Proof.
  intros Hne.
  rewrite (list_fmap_compose size (fun n => n + k)).
  rewrite <- (max_list_shift k (size <$> xs)) by (by destruct xs).
  by destruct xs.
Qed.

End GetItemFacts.

(** X21.  What [__getitem__] returns for a sentence as encoded surfaces and
    as sub-tokens with their word ids is what [predict_sentence] builds for
    the surface words of that sentence: at prediction the encoder is given
    the encoding it was trained on. *)
Theorem getitem_matches_predict_sentence (self : Vocabularies.t)
    (tokenizer : option Tokenizer) (from_pretrained : Tokenizer)
    (sentence : Vocabularies.Sentence) (item : GetItem.item) :
  GetItem.getitem self tokenizer sentence = inr item ->
  Vocabularies.sentence_len sentence
  = length (Vocabularies.surface_words sentence) ->
  encode_surfaces (Vocabularies.surface_words sentence)
    (ConllDataset.mk (Vocabularies.surface_char2id self)) true
  = Ok (GetItem.encoded_surfaces item)
  ∧ GetItem.encoded_surfaces_pretrained item
    = (fun tokenizer =>
         tokenize from_pretrained (Vocabularies.surface_words sentence)
           (Some tokenizer)) <$> tokenizer.
Proof.
  unfold GetItem.getitem. intros H Hn.
  destruct (decide (Vocabularies.surface_words sentence = [])) as [Hnil|Hne].
  { by rewrite Hnil in H. }
  rewrite (max_of_shift String.length 1) in H by done.
  unfold GetItem.and_then at 1 in H.
  destruct (GetItem.max_of _) as [?|max_lemma_len]; [done|].
  unfold GetItem.and_then at 1 in H.
  destruct (GetItem.max_of _) as [?|max_morph_tags_len]; [done|].
  unfold GetItem.and_then at 1 in H.
  destruct (GetItem.encode_rows (Vocabularies.surface_char2id self) _ _ _ _
              _ _) as [surfaces|?] eqn:Hsurfaces; [|done].
  simpl in H.
  destruct (GetItem.encode_rows (Vocabularies.lemma_char2id self) _ _ _ _
              _ _) as [lemmas|?]; [|done].
  simpl in H.
  destruct (GetItem.encode_rows (Vocabularies.morph_tag2id self) _ _ _ _
              _ _) as [tags|?]; [|done].
  simpl in H.
  destruct (GetItem.encode_rows (Vocabularies.transformation2id self) _ _ _
              _ _ _) as [transformations|?]; [|done].
  simpl in H. injection H as <-. simpl. split; [|by destruct tokenizer].
  apply encode_rows_Ok in Hsurfaces as (_ & encs & Hall & ->).
  simpl. rewrite length_fmap, Hn.
  rewrite drop_ge by (by rewrite length_replicate).
  rewrite app_nil_r. unfold encode_surfaces. apply result_mapM_Ok_inv.
  apply Forall2_fmap_r. apply Forall2_fmap_l in Hall.
  eapply Forall2_impl; [exact Hall|]. intros surface encoded [Henc _].
  simpl. by rewrite Henc.
Qed.

Section GetItemShapes.
Import Vocabularies GetItem.
Variable self : Vocabularies.t.
Variable tokenizer : option Tokenizer.
Variable sentence : Sentence.
Hypothesis sentence_ready : ready self sentence.

Lemma ready_tensors :
  ∃ surfaces lemmas tags,
    encode_rows (surface_char2id self) false true
      (max_list (String.length <$> surface_words sentence) + 1) 0
      (chars <$> surface_words sentence)
      (replicate (sentence_len sentence)
         (replicate (max_list (String.length <$> surface_words sentence) + 1)
            0)) = Ok surfaces
    ∧ has_shape (sentence_len sentence)
        (max_list (String.length <$> surface_words sentence) + 1) surfaces
    ∧ encode_rows (lemma_char2id self) true true
        (max_list (String.length <$> Vocabularies.lemmas sentence) + 2) 0
        (chars <$> Vocabularies.lemmas sentence)
        (replicate (sentence_len sentence)
           (replicate
              (max_list (String.length <$> Vocabularies.lemmas sentence) + 2)
              0)) = Ok lemmas
    ∧ has_shape (sentence_len sentence)
        (max_list (String.length <$> Vocabularies.lemmas sentence) + 2)
        lemmas
    ∧ encode_rows (morph_tag2id self) true true
        (max_list (length <$> morph_tags sentence) + 2) 0
        (morph_tags sentence)
        (replicate (sentence_len sentence)
           (replicate (max_list (length <$> morph_tags sentence) + 2) 0))
      = Ok tags
    ∧ has_shape (sentence_len sentence)
        (max_list (length <$> morph_tags sentence) + 2) tags.
Proof.
  destruct sentence_ready
    as (Hpos & Hs & Hl & Hm & Ht & HsE & HlS & HlE & HmS & HmE).
  assert (Hrows : ∀ (vocab : gmap string nat) (add_start_tag : bool)
            (seqs : list (list string)),
            (add_start_tag = true ->
             is_Some (vocab !! ConllDataset.START_TAG)) ->
            is_Some (vocab !! ConllDataset.EOS_token) ->
            ∃ encs,
              Forall2 (fun seq encoded =>
                         ConllDataset.encode seq vocab add_start_tag true
                         = Ok encoded
                         ∧ length encoded
                           <= max_list (length <$> seqs)
                              + (Nat.b2n add_start_tag + 1)) seqs encs).
  { intros vocab add_start_tag seqs HS HE.
    assert (Hall : Forall (fun seq => length seq <= max_list (length <$> seqs))
                     seqs).
    { apply Forall_forall. intros seq Hin. apply max_list_elem_of_le.
      apply list_elem_of_fmap. by exists seq. }
    revert Hall. generalize (max_list (length <$> seqs)). intros m.
    induction 1 as [|seq seqs' Hseq _ [encs IH]]; [by exists []|].
    destruct (encode_bounded vocab add_start_tag true seq)
      as (encoded & Henc & Hle); [done|done|].
    exists (encoded :: encs). constructor; [|done]. split; [done|].
    simpl in Hle. lia. }
  destruct (Hrows (surface_char2id self) false
              (chars <$> surface_words sentence)) as [surfaces Hsurfaces];
    [done|done|].
  destruct (Hrows (lemma_char2id self) true
              (chars <$> Vocabularies.lemmas sentence))
    as [lemmas Hlemmas]; [done|done|].
  destruct (Hrows (morph_tag2id self) true (morph_tags sentence))
    as [tags Htags]; [done|done|].
  rewrite <- !list_fmap_compose in Hsurfaces, Hlemmas.
  assert (Hchars : ∀ ws : list string,
            (length ∘ chars) <$> ws = String.length <$> ws).
  { intros ws. apply list_fmap_ext. intros i w _. apply length_chars. }
  rewrite Hchars in Hsurfaces, Hlemmas. simpl in Hsurfaces, Hlemmas, Htags.
  apply encode_rows_zeros in Hsurfaces as [Hsurfaces Hshape1].
  apply encode_rows_zeros in Hlemmas as [Hlemmas Hshape2].
  apply encode_rows_zeros in Htags as [Htags Hshape3].
  rewrite length_fmap in Hsurfaces, Hshape1, Hlemmas, Hshape2.
  rewrite Hs in Hsurfaces, Hshape1. rewrite Hl in Hlemmas, Hshape2.
  rewrite Hm in Htags, Hshape3.
  by eexists _, _, _.
Qed.

End GetItemShapes.

(** X22.  Take a sentence with a word whose fields have one entry per word,
    and vocabularies that hold the reserved symbols.  The encoded surfaces,
    lemmas and tags always fit the rows [__getitem__] allots them, which are
    as wide as the longest entry and its added symbols.  The rows of the
    transformations are as wide as those of the surfaces: when no
    transformation has more known labels than that, [__getitem__] returns
    four tensors of one row per word, the last one holding the ids of the
    known labels followed by zeros; when one has, it raises a runtime
    error. *)
Theorem getitem_needs_short_transformations (self : Vocabularies.t)
    (tokenizer : option Tokenizer) (sentence : Vocabularies.Sentence) :
  ready self sentence ->
  let n := Vocabularies.sentence_len sentence in
  let max_token_len :=
    max_list (String.length <$> Vocabularies.surface_words sentence) + 1 in
  (Forall (fun transformation =>
             length (known_labels self transformation) <= max_token_len)
     (Vocabularies.transformations sentence) ->
   ∃ item,
     GetItem.getitem self tokenizer sentence = inr item
     ∧ has_shape n max_token_len (GetItem.encoded_surfaces item)
     ∧ has_shape n
         (max_list (String.length <$> Vocabularies.lemmas sentence) + 2)
         (GetItem.encoded_lemmas item)
     ∧ has_shape n
         (max_list (length <$> Vocabularies.morph_tags sentence) + 2)
         (GetItem.encoded_morph_tags item)
     ∧ GetItem.encoded_transformations item
       = (fun transformation =>
            padded max_token_len (known_labels self transformation))
           <$> Vocabularies.transformations sentence)
  ∧ (Exists (fun transformation =>
               max_token_len < length (known_labels self transformation))
       (Vocabularies.transformations sentence) ->
     GetItem.getitem self tokenizer sentence
     = inl (GetItem.Raised RuntimeError)).
Proof.
  intros Hready n max_token_len. subst n max_token_len.
  destruct (ready_tensors self sentence Hready)
    as (surfaces & lemmas & tags & Hsurfaces & Hshape1 & Hlemmas & Hshape2
        & Htags & Hshape3).
  pose proof Hready as (Hpos & Hs & Hl & Hm & Ht & _).
  assert (Hne : ∀ {A : Type} (l : list A),
            length l = Vocabularies.sentence_len sentence -> l ≠ []).
  { intros A l Hlen ->. simpl in Hlen. lia. }
  assert (Henc : Forall2
            (fun transformation encoded =>
               ConllDataset.encode transformation
                 (Vocabularies.transformation2id self) false false
               = Ok encoded)
            (Vocabularies.transformations sentence)
            (known_labels self <$> Vocabularies.transformations sentence)).
  { apply Forall2_fmap_r, Forall_Forall2_diag, Forall_forall.
    intros transformation _. apply encode_Ok. exists [], [].
    split_and!; try done. by rewrite app_nil_r. }
  assert (Hget :
    GetItem.getitem self tokenizer sentence
    = GetItem.and_then
        (GetItem.of_result
           (GetItem.encode_rows (Vocabularies.transformation2id self) false
              false
              (max_list
                 (String.length <$> Vocabularies.surface_words sentence) + 1)
              0 (Vocabularies.transformations sentence)
              (replicate (Vocabularies.sentence_len sentence)
                 (replicate
                    (max_list
                       (String.length
                          <$> Vocabularies.surface_words sentence) + 1) 0))))
        (fun encoded_transformations =>
           inr (GetItem.mkItem
                  match tokenizer with
                  | Some tokenizer =>
                      Some (tokenize tokenizer
                              (Vocabularies.surface_words sentence)
                              (Some tokenizer))
                  | None => None
                  end surfaces lemmas tags encoded_transformations))).
  { unfold GetItem.getitem.
    rewrite (max_of_shift String.length 1) by by apply Hne.
    rewrite (max_of_shift String.length 2) by by apply Hne.
    rewrite (max_of_shift length 2) by by apply Hne.
    cbn [GetItem.and_then]. rewrite Hsurfaces.
    cbn [GetItem.and_then GetItem.of_result]. rewrite Hlemmas.
    cbn [GetItem.and_then GetItem.of_result]. rewrite Htags.
    reflexivity. }
  rewrite Hget. clear Hget. split.
  - intros Hfit.
    destruct (encode_rows_zeros (Vocabularies.transformation2id self) false
                false
                (max_list
                   (String.length <$> Vocabularies.surface_words sentence)
                 + 1) (Vocabularies.transformations sentence)
                (known_labels self
                   <$> Vocabularies.transformations sentence))
      as [Htrans _].
    { apply Forall2_fmap_r, Forall_Forall2_diag.
      eapply Forall_impl; [exact Hfit|]. intros transformation Hle.
      split; [|done].
      apply encode_Ok. exists [], []. split_and!; try done.
      by rewrite app_nil_r. }
    rewrite Ht in Htrans. rewrite Htrans. simpl.
    eexists. split; [done|]. simpl. split_and!; try done.
    by rewrite <- list_fmap_compose.
  - intros Hlong.
    rewrite (encode_rows_overflow _ _ _ _ _ _ _
               (known_labels self <$> Vocabularies.transformations sentence));
      [done|rewrite length_replicate; lia|done|].
    apply Exists_fmap. exact Hlong.
Qed.

Lemma getitem_needs_short_transformations_witness :
  (Forall (fun transformation =>
             length (known_labels toy_vocabularies transformation)
             <= max_list (String.length <$> ["ab$"; "b$"]) + 1)
     [["same"; "delete"; "same"]; ["same"; "same"]] ->
   ∃ item,
     GetItem.getitem toy_vocabularies None
       (Vocabularies.mkSentence 2 ["ab$"; "b$"] ["a"; "b"]
          [["same"; "delete"; "same"]; ["same"; "same"]]
          [["N"; "SG"]; ["V"]]) = inr item
     ∧ has_shape 2 (max_list (String.length <$> ["ab$"; "b$"]) + 1)
         (GetItem.encoded_surfaces item)
     ∧ has_shape 2 (max_list (String.length <$> ["a"; "b"]) + 2)
         (GetItem.encoded_lemmas item)
     ∧ has_shape 2 (max_list (length <$> [["N"; "SG"]; ["V"]]) + 2)
         (GetItem.encoded_morph_tags item)
     ∧ GetItem.encoded_transformations item
       = (fun transformation =>
            padded (max_list (String.length <$> ["ab$"; "b$"]) + 1)
              (known_labels toy_vocabularies transformation))
           <$> [["same"; "delete"; "same"]; ["same"; "same"]])
  ∧ (Exists (fun transformation =>
               max_list (String.length <$> ["ab$"; "b$"]) + 1
               < length (known_labels toy_vocabularies transformation))
       [["same"; "delete"; "same"]; ["same"; "same"]] ->
     GetItem.getitem toy_vocabularies None
       (Vocabularies.mkSentence 2 ["ab$"; "b$"] ["a"; "b"]
          [["same"; "delete"; "same"]; ["same"; "same"]]
          [["N"; "SG"]; ["V"]])
     = inl (GetItem.Raised RuntimeError)).
Proof.
  apply (getitem_needs_short_transformations toy_vocabularies None
           (Vocabularies.mkSentence 2 ["ab$"; "b$"] ["a"; "b"]
              [["same"; "delete"; "same"]; ["same"; "same"]]
              [["N"; "SG"]; ["V"]])).
  unfold ready. simpl. split_and!; try done; try lia; by eexists.
Defined.

Lemma getitem_matches_predict_sentence_witness :
  encode_surfaces ["ab$"; "b$"]
    (ConllDataset.mk (Vocabularies.surface_char2id toy_vocabularies)) true
  = Ok [[2; 3; 4; 1]; [3; 4; 1; 0]]
  ∧ Some ([2; 1], [0; 1])
    = (fun tokenizer => tokenize toy_tokenizer ["ab$"; "b$"] (Some tokenizer))
        <$> Some toy_tokenizer.
Proof.
  apply (getitem_matches_predict_sentence toy_vocabularies
           (Some toy_tokenizer) toy_tokenizer
           (Vocabularies.mkSentence 2 ["ab$"; "b$"] ["a"; "b"]
              [["same"; "delete"; "same"]; ["same"; "same"]]
              [["N"; "SG"]; ["V"]])
           (GetItem.mkItem (Some ([2; 1], [0; 1]))
              [[2; 3; 4; 1]; [3; 4; 1; 0]] [[2; 3; 1]; [2; 4; 1]]
              [[2; 3; 4; 1]; [2; 5; 1; 0]] [[1; 2; 1; 0]; [1; 1; 0; 0]])).
  - vm_compute. reflexivity.
  - reflexivity.
Defined.

(** ** The lemmas of the transformation decoder *)

Lemma word_labels_named (dec : TransformerRNN.t)
    (row_scores : list (list Q)) (labels : list string) :
  TransformerRNN.word_labels dec row_scores = Ok labels ->
  Forall2
    (fun _scores label =>
       ∃ ix p, _scores !! ix = Some p
         ∧ (∀ other, other ∈ _scores -> (other <= p)%Q)
         ∧ TransformerRNN.index2transformation dec !! ix = Some label)
    row_scores labels.
Proof.
  unfold TransformerRNN.word_labels. intros H%result_mapM_Ok.
  eapply Forall2_impl; [exact H|]. intros _scores label Hlabel.
  simpl in Hlabel. apply bind_Ok in Hlabel as (ix & Hix & Hname).
  apply of_option_Ok in Hname. apply argmax_topk in Hix as [p Htop].
  exists ix, p. split_and!; [|by eapply topk_1_max|done].
  eapply topk_lookup; [exact Htop|left].
Qed.

(** X23.  When [TransformerRNN.predict] returns, there is one block of
    scores per word and one lemma per word that has a surface form, and the
    lemma of a word is [inverse_transformation] applied to its surface form
    and to labels that are never more than the characters of the surface
    form: the label of a position is the name the vocabulary gives to the
    place of a largest score of that position. *)
Theorem transformer_lemmas_from_labels
    (inverse_transformation : string -> list string -> string)
    (dec : TransformerRNN.t) (word_embeddings context_vectors : list Vec)
    (x : list (list nat)) (surfaces : list string)
    (transformer_context : option (list Vec))
    (scores : list (list (list Q))) (predictions : list string) :
  TransformerRNN.predict inverse_transformation dec word_embeddings
    context_vectors x surfaces transformer_context
  = Ok (scores, predictions) ->
  length scores = length context_vectors
  ∧ length predictions = length surfaces `min` length context_vectors
  ∧ ∀ i surface prediction,
      surfaces !! i = Some surface ->
      predictions !! i = Some prediction ->
      ∃ row_scores labels,
        scores !! i = Some row_scores
        ∧ Forall2
            (fun _scores label =>
               ∃ ix p, _scores !! ix = Some p
                 ∧ (∀ other, other ∈ _scores -> (other <= p)%Q)
                 ∧ TransformerRNN.index2transformation dec !! ix
                   = Some label)
            (take (String.length surface) row_scores) labels
        ∧ length labels <= String.length surface
        ∧ prediction = inverse_transformation surface labels.
Proof.
  intros H.
  pose proof (transformer_predict_length _ _ _ _ _ _ _ _ _ H) as Hlen.
  unfold TransformerRNN.predict in H.
  destruct (negb _) eqn:Hguard; [done|].
  apply negb_false_iff in Hguard.
  apply andb_true_iff in Hguard as [Hguard Htc].
  apply andb_true_iff in Hguard as [Hwe%Nat.eqb_eq Hx%Nat.eqb_eq].
  apply bind_Ok in H as (labelss & Hlabels & [= <- <-]).
  apply result_mapM_Ok in Hlabels.
  split_and!; [|done|].
  - rewrite !length_zip_with, Hwe, Hx.
    destruct transformer_context as [tc|].
    + apply Nat.eqb_eq in Htc. rewrite length_fmap, Htc. lia.
    + rewrite length_replicate. lia.
  - intros i surface prediction Hs Hp.
    apply lookup_zip_with_Some in Hp
      as (surface' & labels & -> & Hs' & Hl).
    assert (surface' = surface) as -> by congruence.
    destruct (Forall2_lookup_r _ _ _ _ _ Hlabels Hl)
      as (row_scores & Hrow & Hword).
    apply word_labels_named in Hword.
    exists row_scores, (take (String.length surface) labels).
    split_and!; try done.
    + by apply Forall2_take.
    + rewrite length_take. lia.
Qed.

Lemma transformer_lemmas_from_labels_witness :
  length [[[0; 1]; [0; 1]; [0; 1]]]%Q = length [[1%Q]]
  ∧ length ["do$"] = length ["do$"] `min` length [[1%Q]]
  ∧ ∀ i surface prediction,
      ["do$"] !! i = Some surface ->
      ["do$"] !! i = Some prediction ->
      ∃ row_scores labels,
        [[[0; 1]; [0; 1]; [0; 1]]]%Q !! i = Some row_scores
        ∧ Forall2
            (fun _scores label =>
               ∃ ix p, _scores !! ix = Some p
                 ∧ (∀ other, other ∈ _scores -> (other <= p)%Q)
                 ∧ TransformerRNN.index2transformation toy_labeler !! ix
                   = Some label)
            (take (String.length surface) row_scores) labels
        ∧ length labels <= String.length surface
        ∧ prediction = keep_surface surface labels.
Proof.
  apply (transformer_lemmas_from_labels keep_surface toy_labeler [[1%Q]]
           [[1%Q]] [[2; 3; 1]] ["do$"] (Some [[1%Q]])).
  vm_compute. reflexivity.
Defined.

(** ** An encoder without transformer *)

Lemma forward_without_model (enc : EncoderRNN.t) (x1 : list nat * list nat)
    (x2 : list (list nat)) (transformer_output : option Tensor)
    (word_embeddings context_embeddings : list Vec) :
  EncoderRNN.based_model enc = None ->
  EncoderRNN.forward enc x1 x2
  = Ok (transformer_output, word_embeddings, context_embeddings) ->
  transformer_output = None.
Proof.
  unfold EncoderRNN.forward. intros ->. by intros [= <- _ _].
Qed.

(** X24.  A run of [predict_sentence] that returns a text for a sentence
    with a word used an encoder that has a transformer, since the tags of a
    word are decoded from the row of the transformer output that belongs to
    it, and, when characters are used, a character vocabulary that holds the
    end symbol. *)
Theorem returning_run_has_transformer
    (inverse_transformation : string -> list string -> string)
    (from_pretrained : Tokenizer) (surface_words : list string)
    (encoder : EncoderRNN.t) (decoder_lemma : LemmaDecoder)
    (decoder_morph_tags : MorphDecoder) (dataset : ConllDataset.t)
    (use_transformer use_char_lstm : bool) (tokenizer : option Tokenizer)
    (use_rnn_morph : bool) (max_morph_features_len : nat)
    (surface2lemma : option (gmap string string))
    (calls : list call) (s : string) :
  surface_words ≠ [] ->
  predict_sentence inverse_transformation from_pretrained surface_words
    encoder decoder_lemma decoder_morph_tags dataset use_transformer
    use_char_lstm tokenizer use_rnn_morph max_morph_features_len
    surface2lemma = (calls, Ok s) ->
  is_Some (EncoderRNN.based_model encoder)
  ∧ (use_char_lstm = true ->
     is_Some (ConllDataset.surface_char2id dataset
                !! ConllDataset.EOS_token)).
Proof.
  intros Hne H.
  pose proof (predict_sentence_Ok_flags _ _ _ _ _ _ _ _ _ _ _ _ _ _ _ Hne H)
    as [-> _].
  unfold predict_sentence in H. rewrite length_eqb_0 in H by done.
  apply traced_bind_Ok in H as (l1 & encoded_surfaces & ? & H1 & H & ->).
  apply traced_bind_Ok in H as (l2 & [sub_tokens word_ids] & ? & H2 & H & ->).
  apply traced_bind_Ok in H
    as (l3 & [[transformer_output word_representations]
              context_aware_representations] & ? & H3 & H & ->).
  apply traced_bind_Ok in H as (l4 & decoded & ? & H4 & H & ->).
  apply traced_bind_Ok in H as (l5 & morph_features & ? & H5 & H & ->).
  apply lift_Ok in H1 as [Henc _].
  apply invoke_Ok in H3 as [Hfwd _]. split.
  - destruct (EncoderRNN.based_model encoder) as [based_model|] eqn:Hmodel;
      [by eexists|].
    apply (forward_without_model _ _ _ _ _ _ Hmodel) in Hfwd as Hnone.
    subst transformer_output.
    apply forward_rows in Hfwd as [_ Hctx].
    apply encode_surfaces_length in Henc. rewrite Henc in Hctx.
    rewrite Hctx in H5. apply traced_mapM_Ok in H5.
    destruct surface_words as [|w ws]; [done|].
    simpl in H5. apply Forall2_cons_inv_l in H5 as (y & ? & [c Hy] & _).
    unfold decode_morph in Hy.
    apply traced_bind_Ok in Hy as (? & ? & ? & _ & Hy & _).
    apply traced_bind_Ok in Hy as (? & ? & ? & _ & Hy & _).
    apply traced_bind_Ok in Hy as (? & ? & ? & Hrow & _).
    by apply lift_Ok in Hrow as [? _].
  - intros ->.
    destruct (ConllDataset.surface_char2id dataset !! ConllDataset.EOS_token)
      eqn:HE; [by eexists|].
    by rewrite encode_surfaces_KeyError in Henc.
Qed.

Lemma returning_run_has_transformer_witness :
  is_Some (EncoderRNN.based_model toy_encoder)
  ∧ (true = true ->
     is_Some (ConllDataset.surface_char2id toy_dataset
                !! ConllDataset.EOS_token)).
Proof.
  apply (returning_run_has_transformer keep_surface toy_tokenizer
           ["dog$"; "do$"] toy_encoder (LemmaDecoderRNN spell_abc)
           (MorphDecoderFF tagger) toy_dataset true true None false 0 None
           [EncoderCall; LemmaDecoderCall; LemmaDecoderCall;
            MorphDecoderCall; MorphDecoderCall]
           (String.append "# Sentence"
              (String.append newline
                 (String.append (conll_line 0 "dog$" "bc" "N;SG")
                    (conll_line 1 "do$" "bc" "N;SG"))))).
  - discriminate.
  - vm_compute. reflexivity.
Defined.
